(** * EM fitting of Gaussian mixture models

    A shallow embedding of mlpack's [EMFit] (methods/gmm/em_fit_impl.hpp):
    the two [Estimate] overloads, [InitialClustering], [LogLikelihood] and
    [ArmadilloGMMWrapper], and the properties of them that the
    specification states, followed by further properties of the code.

    The code computes on C++ [double]s.  The embedding is written once, over
    an interface [Scalar] of the arithmetic that the code uses, and is read
    at two instances: IEEE binary64 ([float]), the arithmetic of the compiled
    code, and exact rationals ([Qc]).  What depends on the control flow
    alone is proved for every instance.  What depends on algebra (sums,
    quotients, order) is proved for every instance that obeys the laws of
    an ordered field, [ScalarLaws]: the rationals do, the reals would,
    binary64 does not. *)

From Stdlib Require Import ZArith QArith Qcanon Field Floats Lia.
From stdpp Require Import base list numbers.

#[local] Unset Default Proof Using.
#[local] Open Scope nat_scope.

(** ** The arithmetic of [double] as the code uses it *)

Class Scalar (T : Type) := {
  zero : T;
  one : T;
  add : T -> T -> T;
  sub : T -> T -> T;
  mul : T -> T -> T;
  div : T -> T -> T;
  fabs : T -> T;            (* std::abs *)
  feqb : T -> T -> bool;    (* operator== *)
  fgtb : T -> T -> bool;    (* operator>  *)
  neg_DBL_MAX : T;          (* -DBL_MAX *)
  lit_1e_10 : T;            (* the literal 1e-10 *)
}.

(** [arma::vec] is a list of entries; [arma::mat] is the list of its
    columns (Armadillo stores matrices column by column). *)
Abbreviation vec T := (list T) (only parsing).
Abbreviation mat T := (list (list T)) (only parsing).

Section LinearAlgebra.
Context {T : Type} `{Scalar T}.

(** [x != y] *)
Definition fneb (x y : T) : bool := negb (feqb x y).

(** Conversion of a [size_t] count to [double]. *)
Fixpoint of_nat (n : nat) : T :=
  match n with
  | O => zero
  | S k => add (of_nat k) one
  end.


Definition zeros (n : nat) : vec T := replicate n zero.
Definition ones (n : nat) : vec T := replicate n one.
(** [arma::mat(n_rows, n_cols)], zero filled. *)
Definition mzeros (n_rows n_cols : nat) : mat T := replicate n_cols (zeros n_rows).

(** [accu(v)]: the entries added up from the left, starting at 0. *)
Definition accu (v : vec T) : T := fold_left add v zero.

Definition vadd (u v : vec T) : vec T := zip_with add u v.
Definition vsub (u v : vec T) : vec T := zip_with sub u v.
(** [u % v], the element-wise product. *)
Definition schur (u v : vec T) : vec T := zip_with mul u v.
(** [v * s] and [v / s] for a scalar [s]. *)
Definition vscale (v : vec T) (s : T) : vec T := map (fun x => mul x s) v.
Definition vdivs (v : vec T) (s : T) : vec T := map (fun x => div x s) v.

Definition madd (A B : mat T) : mat T := zip_with vadd A B.
Definition mdivs (A : mat T) (s : T) : mat T := map (fun c => vdivs c s) A.

(** Number of rows of a matrix given by its columns (a matrix with no
    column is taken to have no row). *)
Definition n_rows (A : mat T) : nat :=
  match A with
  | [] => 0
  | c :: _ => length c
  end.

(** [A.row(i)] and the assignment [A.row(i) = v]. *)
Definition row (i : nat) (A : mat T) : vec T := map (fun c => nth i c zero) A.
Definition set_row (i : nat) (v : vec T) (A : mat T) : mat T :=
  zip_with (fun c x => <[i := x]> c) A v.

(** [A * v] for a matrix [A] and a column vector [v]. *)
Definition mat_vec (A : mat T) (v : vec T) : vec T :=
  fold_left (fun acc cx => vadd acc (vscale (fst cx) (snd cx)))
            (zip A v) (zeros (n_rows A)).

(** [u * trans(v)] *)
Definition outer (u v : vec T) : mat T := map (fun y => vscale u y) v.

(** [A * trans(B)] for two matrices with the same number of columns. *)
Definition mat_mul_trans (A B : mat T) : mat T :=
  fold_left (fun acc ab => madd acc (outer (fst ab) (snd ab)))
            (zip A B) (mzeros (n_rows A) (n_rows B)).

End LinearAlgebra.

(** ** Data of the fit *)

Section Model.
Context {T : Type} `{Scalar T}.

(** [distribution::GaussianDistribution]: a mean and a covariance. *)
Record GaussianDistribution := {
  Mean : vec T;
  Covariance : mat T;
}.

(** The template argument [CovarianceConstraintPolicy]: its
    [ApplyConstraint], and whether the type is [DiagonalConstraint]
    (the test [std::is_same<CovarianceConstraintPolicy, DiagonalConstraint>]). *)
Record CovarianceConstraintPolicy := {
  ApplyConstraint : mat T -> mat T;
  is_DiagonalConstraint : bool;
}.

(** The template argument [InitialClusteringType]: its [Cluster] (the
    assignment of each point to one of [k] clusters), and whether the type
    is the default [kmeans::KMeans<>]. *)
Record InitialClusteringType := {
  Cluster : mat T -> nat -> list nat;
  is_KMeans : bool;
}.

(** The fields of [EMFit].  [maxIterations] is a [size_t]. *)
Record EMFit := {
  maxIterations : Z;
  tolerance : T;
  clusterer : InitialClusteringType;
  constraint : CovarianceConstraintPolicy;
}.

(** The same object with another [tolerance]. *)
Definition with_tolerance (tol : T) (cfg : EMFit) : EMFit :=
  {| maxIterations := maxIterations cfg;
     tolerance := tol;
     clusterer := clusterer cfg;
     constraint := constraint cfg |}.

(** The same object with a policy of the same [ApplyConstraint] that is, or
    is not, of type [DiagonalConstraint]. *)
Definition with_diagonal_tag (b : bool) (cfg : EMFit) : EMFit :=
  {| maxIterations := maxIterations cfg;
     tolerance := tolerance cfg;
     clusterer := clusterer cfg;
     constraint :=
       {| ApplyConstraint := ApplyConstraint (constraint cfg);
          is_DiagonalConstraint := b |} |}.

(** The model that [Estimate] updates in place: [dists] and [weights]. *)
Record Mixture := {
  dists : list GaussianDistribution;
  weights : vec T;
}.

(** [arma::gmm_diag]: means and diagonal covariances by column, and hefts. *)
Record gmm_diag := {
  g_means : mat T;
  g_dcovs : mat T;
  g_hefts : vec T;
}.

Inductive gmm_dist_mode := eucl_dist | maha_dist.
Inductive gmm_seed_mode := keep_existing | static_subset | static_spread | random_subset | random_spread.

(** The arguments of one call of [arma::gmm_diag::learn], in the order of
    the call, under the names of Armadillo's documentation:
    [learn(data, n_gaus, dist_mode, seed_mode, km_iter, em_iter, var_floor,
    print_mode)]. *)
Record learn_args := {
  la_data : mat T;
  la_n_gaus : nat;
  la_dist_mode : gmm_dist_mode;
  la_seed_mode : gmm_seed_mode;
  la_km_iter : Z;
  la_em_iter : Z;
  la_var_floor : T;
  la_print_mode : bool;
}.

End Model.

Arguments GaussianDistribution T : clear implicits.
Arguments CovarianceConstraintPolicy T : clear implicits.
Arguments InitialClusteringType T : clear implicits.
Arguments EMFit T : clear implicits.
Arguments Mixture T : clear implicits.
Arguments gmm_diag T : clear implicits.
Arguments learn_args T : clear implicits.

(** ** The algorithm *)

Section EMFitImpl.
Context {T : Type} `{Scalar T}.

(** The code indexes vectors without checks and leaves the check of
    matching sizes to Armadillo.  Here a read outside a list gives 0 (or
    the empty list), a write outside does nothing, and of two operands of
    different lengths the longer is cut; the properties below are about
    inputs of matching sizes.

    What the code calls and this file does not define:
    - [pdf d x], the density of the Gaussian [d] at the point [x]
      ([GaussianDistribution::Probability] evaluates it at every column);
    - [flog], the natural logarithm of the C library;
    - [gmm_learn], Armadillo's [gmm_diag::learn], from the arguments of the
      call and the object it is called on to the object it leaves;
    - [WIN32], whether the macro [_WIN32] is defined;
    - [default_tolerance], the value of [EMFit().Tolerance()]. *)
Variable pdf : GaussianDistribution T -> vec T -> T.
Variable flog : T -> T.
Variable gmm_learn : learn_args T -> gmm_diag T -> gmm_diag T.
Variable WIN32 : bool.
Variable default_tolerance : T.

(** [d.Probability(observations, probabilities)] *)
Definition Probability (d : GaussianDistribution T) (observations : mat T) : vec T :=
  map (pdf d) observations.

(** *** LogLikelihood (lines 289-315) *)

(** [likelihoods] has one row per component and one column per point.
    The first loop assigns its rows. *)
Definition likelihoods (observations : mat T) (m : Mixture T) : mat T :=
  fold_left
    (fun L id =>
       let phis := Probability (snd id) observations in
       set_row (fst id) (map (fun p => mul (nth (fst id) (weights m) zero) p) phis) L)
    (imap pair (dists m))
    (mzeros (length (dists m)) (length observations)).

(** The second loop: each column is summed, its logarithm is added to the
    running total, and a zero sum is reported on [Log::Info] first.  The
    result is the total and the points reported, in the order of the
    reports. *)
Definition LogLikelihood_sum (L : mat T) : T * list nat :=
  fold_left
    (fun acc jc =>
       let s := accu (snd jc) in
       (add (fst acc) (flog s),
        if feqb s zero then snd acc ++ [fst jc] else snd acc))
    (imap pair L)
    (zero, []).

Definition LogLikelihood (observations : mat T) (m : Mixture T) : T * list nat :=
  LogLikelihood_sum (likelihoods observations m).

(** *** The E-step (lines 75-92 and 159-176) *)

(** Column [i] of [condProb]: the densities of component [i], times
    [weights[i]]. *)
Definition EStep (observations : mat T) (m : Mixture T) : mat T :=
  imap (fun i d => vscale (Probability d observations) (nth i (weights m) zero))
       (dists m).

(** One turn of the loop "Normalize row-wise". *)
Definition normalize_row (condProb : mat T) (i : nat) : mat T :=
  let probSum := accu (row i condProb) in
  if fneb probSum zero
  then set_row i (vdivs (row i condProb) probSum) condProb
  else condProb.

Definition NormalizeRows (n : nat) (condProb : mat T) : mat T :=
  fold_left normalize_row (seq 0 n) condProb.

(** *** The M-step of the unweighted overload (lines 95-124) *)

(** [tmp] and [tmpB] of the loop body, from the mean in force and the
    column of weights. *)
Definition centred (observations : mat T) (mean : vec T) : mat T :=
  map (fun x => vsub x mean) observations.
Definition centred_weighted (tmp : mat T) (c : vec T) : mat T :=
  zip_with vscale tmp c.

(** The body of the loop over the components, for component [i] with
    column [c = condProb.col(i)] and [s = probRowSums[i]]. *)
Definition update_dist (policy : CovarianceConstraintPolicy T)
    (observations : mat T) (c : vec T) (s : T)
    (d : GaussianDistribution T) : GaussianDistribution T :=
  let mean :=
    if fneb s zero then vdivs (mat_vec observations c) s else Mean d in
  let tmp := centred observations mean in
  let tmpB := centred_weighted tmp c in
  if fneb s zero
  then {| Mean := mean;
          Covariance := ApplyConstraint policy (mdivs (mat_mul_trans tmp tmpB) s) |}
  else {| Mean := mean; Covariance := Covariance d |}.

(** One pass of the unweighted loop over the model. *)
Definition EMPass (policy : CovarianceConstraintPolicy T)
    (observations : mat T) (m : Mixture T) : Mixture T :=
  let condProb := NormalizeRows (length observations) (EStep observations m) in
  let probRowSums := map accu condProb in
  {| dists :=
       imap (fun i d =>
               update_dist policy observations
                 (nth i condProb []) (nth i probRowSums zero) d)
            (dists m);
     weights := vdivs probRowSums (of_nat (length observations)) |}.

(** *** The M-step of the weighted overload (lines 180-212) *)

Definition update_dist_weighted (policy : CovarianceConstraintPolicy T)
    (observations : mat T) (probabilities : vec T) (c : vec T)
    (d : GaussianDistribution T) : GaussianDistribution T :=
  let cw := schur c probabilities in
  let s := accu cw in
  let mean := vdivs (mat_vec observations cw) s in
  let tmp := centred observations mean in
  let tmpB := centred_weighted tmp cw in
  {| Mean := mean;
     Covariance := ApplyConstraint policy (mdivs (mat_mul_trans tmp tmpB) s) |}.

Definition EMPass_weighted (policy : CovarianceConstraintPolicy T)
    (observations : mat T) (probabilities : vec T) (m : Mixture T) : Mixture T :=
  let condProb := NormalizeRows (length observations) (EStep observations m) in
  let probRowSums :=
    imap (fun i (_ : GaussianDistribution T) =>
            accu (schur (nth i condProb []) probabilities))
         (dists m) in
  {| dists :=
       imap (fun i d =>
               update_dist_weighted policy observations probabilities
                 (nth i condProb []) d)
            (dists m);
     weights := vdivs probRowSums (accu probabilities) |}.

(** *** Effective mass *)

(** The effective mass of component [k] in a pass from the model [m]: the
    sum of column [k] of the normalised [condProb], the entries multiplied
    by the point weights in the weighted overload. *)
Definition EffectiveMass (observations : mat T) (m : Mixture T) (k : nat) : T :=
  accu (nth k (NormalizeRows (length observations) (EStep observations m)) []).

Definition EffectiveMass_weighted (observations : mat T) (probabilities : vec T)
    (m : Mixture T) (k : nat) : T :=
  accu (schur (nth k (NormalizeRows (length observations) (EStep observations m)) [])
              probabilities).

(** Every component has an effective mass that compares different
    from 0. *)
Definition masses_nonzero (observations : mat T) (m : Mixture T) : bool :=
  forallb (fun k => fneb (EffectiveMass observations m k) zero)
          (seq 0 (length (dists m))).

(** *** InitialClustering (lines 222-287) *)

(** [(w > 1) ? w : 1] *)
Definition clamp_count (w : T) : T := if fgtb w one then w else one.

(** The running [means], [covs] and [weights] of the first loop over the
    points (lines 247-259). *)
Definition accumulate_point (acc : list (vec T) * list (mat T) * vec T)
    (xc : vec T * nat) : list (vec T) * list (mat T) * vec T :=
  let '(means, covs, ws) := acc in
  let (x, cluster) := xc in
  (alter (fun mu => vadd mu x) cluster means,
   alter (fun c => madd c (outer x x)) cluster covs,
   alter (fun w => add w one) cluster ws).

(** The second loop over the points (lines 267-272). *)
Definition accumulate_centred (means : list (vec T)) (covs : list (mat T))
    (xc : vec T * nat) : list (mat T) :=
  let (x, cluster) := xc in
  let normObs := vsub x (nth cluster means []) in
  alter (fun c => madd c (outer normObs normObs)) cluster covs.

Definition InitialClustering (cfg : EMFit T) (observations : mat T)
    (m : Mixture T) : Mixture T :=
  let assignments :=
    Cluster (clusterer cfg) observations (length (dists m)) in
  let means0 := map (fun d => zeros (length (Mean d))) (dists m) in
  let covs0 :=
    map (fun d => mzeros (n_rows (Covariance d)) (length (Covariance d)))
        (dists m) in
  let weights0 := zeros (length (weights m)) in
  let '(means1, covs1, weights1) :=
    fold_left accumulate_point (zip observations assignments)
              (means0, covs0, weights0) in
  let means2 :=
    imap (fun i mu => vdivs mu (clamp_count (nth i weights1 zero))) means1 in
  let covs2 :=
    fold_left (accumulate_centred means2) (zip observations assignments) covs1 in
  {| dists :=
       imap (fun i (_ : GaussianDistribution T) =>
               {| Mean := nth i means2 [];
                  Covariance :=
                    ApplyConstraint (constraint cfg)
                      (mdivs (nth i covs2 [])
                             (clamp_count (nth i weights1 zero))) |})
            (dists m);
     weights := vdivs weights1 (accu weights1) |}.

(** *** The loop of [Estimate] (lines 58-131 and 145-219) *)

(** [size_t] is 64 bits wide: values are taken modulo [2^64]. *)
Definition SIZE_MODULUS : Z := 2 ^ 64.
Definition to_size_t (z : Z) : Z := (z mod SIZE_MODULUS)%Z.

Record LoopState := {
  ls_model : Mixture T;
  ls_l : T;
  ls_lOld : T;
  ls_iteration : Z;
}.

(** The state on entry of the loop. *)
Definition loop_entry (observations : mat T) (m : Mixture T) : LoopState :=
  {| ls_model := m;
     ls_l := fst (LogLikelihood observations m);
     ls_lOld := neg_DBL_MAX;
     ls_iteration := 1 |}.

(** [std::abs(l - lOld) > tolerance] *)
Definition not_converged (cfg : EMFit T) (st : LoopState) : bool :=
  fgtb (fabs (sub (ls_l st) (ls_lOld st))) (tolerance cfg).

(** [std::abs(l - lOld) > tolerance && iteration != maxIterations] *)
Definition loop_guard (cfg : EMFit T) (st : LoopState) : bool :=
  not_converged cfg st
  && negb (ls_iteration st =? to_size_t (maxIterations cfg))%Z.

(** The body of the loop, for a given pass over the model. *)
Definition loop_body (pass : Mixture T -> Mixture T) (observations : mat T)
    (st : LoopState) : LoopState :=
  let m := pass (ls_model st) in
  {| ls_model := m;
     ls_l := fst (LogLikelihood observations m);
     ls_lOld := ls_l st;
     ls_iteration := to_size_t (ls_iteration st + 1) |}.

(** [while (guard) body], run for at most [fuel] passes: the number of
    passes executed and the state reached. *)
Fixpoint while_loop (guard : LoopState -> bool)
    (body : LoopState -> LoopState) (fuel : nat) (st : LoopState)
    : nat * LoopState :=
  match fuel with
  | O => (O, st)
  | S fuel' =>
      if guard st
      then let (n, st') := while_loop guard body fuel' (body st) in (S n, st')
      else (O, st)
  end.

(** [masses_nonzero] in every pass that [while_loop] executes. *)
Fixpoint masses_nonzero_along (guard : LoopState -> bool)
    (body : LoopState -> LoopState) (observations : mat T)
    (fuel : nat) (st : LoopState) : bool :=
  match fuel with
  | O => true
  | S fuel' =>
      if guard st
      then masses_nonzero observations (ls_model st)
           && masses_nonzero_along guard body observations fuel' (body st)
      else true
  end.

(** The counter starts at 1 and is compared with [maxIterations] before
    each pass, so the guard fails at the latest after this many passes
    (see [EMLoop_exits]). *)
Definition loop_fuel (cfg : EMFit T) : nat :=
  Z.to_nat ((maxIterations cfg - 1) mod SIZE_MODULUS).

Definition EMLoop (cfg : EMFit T) (pass : Mixture T -> Mixture T)
    (observations : mat T) (m : Mixture T) : nat * LoopState :=
  while_loop (loop_guard cfg) (loop_body pass observations)
             (loop_fuel cfg) (loop_entry observations m).

(** *** ArmadilloGMMWrapper (lines 332-388) *)

(** [A.diag()] and [arma::diagmat(v)] *)
Definition diag (A : mat T) : vec T := imap (fun i c => nth i c zero) A.
Definition diagmat (v : vec T) : mat T :=
  imap (fun j x => <[j := x]> (zeros (length v))) v.

(** "Extract means, covariances, and weights" (lines 381-387). *)
Definition read_gmm (g : gmm_diag T) (m : Mixture T) : Mixture T :=
  {| dists :=
       imap (fun i (_ : GaussianDistribution T) =>
               {| Mean := nth i (g_means g) [];
                  Covariance := diagmat (nth i (g_dcovs g) []) |})
            (dists m);
     weights := g_hefts g |}.

(** The result is whether the warning was written, and the model. *)
Definition ArmadilloGMMWrapper (cfg : EMFit T) (observations : mat T)
    (m : Mixture T) (useInitialModel : bool) : bool * Mixture T :=
  let warned := fneb (tolerance cfg) default_tolerance in
  let g :=
    if negb (is_KMeans (clusterer cfg)) || useInitialModel
    then
      let m0 :=
        if negb useInitialModel
        then InitialClustering cfg observations m else m in
      let g0 := {| g_means := map Mean (dists m0);
                   g_dcovs := map (fun d => diag (Covariance d)) (dists m0);
                   g_hefts := weights m0 |} in
      gmm_learn
        {| la_data := observations; la_n_gaus := length (dists m);
           la_dist_mode := eucl_dist; la_seed_mode := keep_existing;
           la_km_iter := 0; la_em_iter := to_size_t (maxIterations cfg);
           la_var_floor := lit_1e_10; la_print_mode := false |} g0
    else
      gmm_learn
        {| la_data := observations; la_n_gaus := length (dists m);
           la_dist_mode := eucl_dist; la_seed_mode := static_subset;
           la_km_iter := 1000; la_em_iter := to_size_t (maxIterations cfg);
           la_var_floor := lit_1e_10; la_print_mode := false |}
        {| g_means := []; g_dcovs := []; g_hefts := [] |} in
  (warned, read_gmm g m).

(** *** The two overloads of Estimate *)

(** Unweighted (lines 36-132). *)
Definition Estimate (cfg : EMFit T) (observations : mat T) (m : Mixture T)
    (useInitialModel : bool) : Mixture T :=
  if negb WIN32 && is_DiagonalConstraint (constraint cfg)
  then snd (ArmadilloGMMWrapper cfg observations m useInitialModel)
  else
    let m0 :=
      if negb useInitialModel
      then InitialClustering cfg observations m else m in
    ls_model
      (snd (EMLoop cfg (EMPass (constraint cfg) observations) observations m0)).

(** Weighted (lines 134-220). *)
Definition Estimate_weighted (cfg : EMFit T) (observations : mat T)
    (probabilities : vec T) (m : Mixture T) (useInitialModel : bool)
    : Mixture T :=
  let m0 :=
    if negb useInitialModel
    then InitialClustering cfg observations m else m in
  ls_model
    (snd (EMLoop cfg
            (EMPass_weighted (constraint cfg) observations probabilities)
            observations m0)).

End EMFitImpl.

(** ** The two instances of the arithmetic *)

(** IEEE 754 binary64, the arithmetic of the compiled code. *)
#[export] Instance float_Scalar : Scalar float := {|
  zero := 0%float;
  one := 1%float;
  add := PrimFloat.add;
  sub := PrimFloat.sub;
  mul := PrimFloat.mul;
  div := PrimFloat.div;
  fabs := PrimFloat.abs;
  feqb := PrimFloat.eqb;
  fgtb := fun x y => PrimFloat.ltb y x;
  neg_DBL_MAX := (-0x1.fffffffffffffp+1023)%float;
  lit_1e_10 := 0x1.b7cdfd9d7bdbbp-34%float;
|}.

(** Exact arithmetic on rationals in lowest terms. *)
Definition Qc_abs (x : Qc) : Qc := if Qclt_le_dec x 0 then (- x)%Qc else x.
Definition Qc_gtb (x y : Qc) : bool :=
  if Qclt_le_dec y x then true else false.
Definition Qc_of_Z (z : Z) : Qc := Q2Qc (inject_Z z).

#[export] Instance Qc_Scalar : Scalar Qc := {|
  zero := 0%Qc;
  one := 1%Qc;
  add := Qcplus;
  sub := Qcminus;
  mul := Qcmult;
  div := Qcdiv;
  fabs := Qc_abs;
  feqb := Qc_eq_bool;
  fgtb := Qc_gtb;
  neg_DBL_MAX := (- Qc_of_Z ((2 ^ 53 - 1) * 2 ^ 971))%Qc;
  lit_1e_10 := (1 / Qc_of_Z 10000000000)%Qc;
|}.

(** The laws of exact arithmetic: an ordered field whose tests decide
    equality and order.  The laws of the quotient are those of a nonzero
    divisor: nothing is said of a quotient by zero. *)
Class ScalarLaws (T : Type) `{Scalar T} : Prop := {
  sl_ring :
    ring_theory zero one add mul sub (fun x => sub zero x) (@eq T);
  sl_div :
    forall x y : T, y <> zero -> div x y = mul x (div one y);
  sl_inv :
    forall y : T, y <> zero -> mul (div one y) y = one;
  sl_feqb : forall x y : T, feqb x y = true <-> x = y;
  sl_one_pos : fgtb one zero = true;
  sl_gt_irrefl : forall x : T, fgtb x x = false;
  sl_gt_trans :
    forall x y z : T, fgtb x y = true -> fgtb y z = true -> fgtb x z = true;
  sl_gt_total :
    forall x y : T, x = y \/ fgtb x y = true \/ fgtb y x = true;
  sl_gt_add :
    forall x y z : T, fgtb x y = true -> fgtb (add x z) (add y z) = true;
  sl_gt_mul :
    forall x y : T,
      fgtb x zero = true -> fgtb y zero = true -> fgtb (mul x y) zero = true;
  sl_fabs :
    forall x : T, fabs x = if fgtb zero x then sub zero x else x;
}.

(** ** Notions used in the statements *)

Section Notions.
Context {T : Type} `{Scalar T}.

Definition positive (x : T) : Prop := fgtb x zero = true.
Definition nonneg (x : T) : Prop := x = zero \/ positive x.

(** A matrix whose columns all have [n] entries. *)
Definition well_formed (n : nat) (C : mat T) : Prop :=
  Forall (fun c => length c = n) C.

(** What one turn of "Normalize row-wise" makes of a row. *)
Definition normalized_row (v : vec T) : vec T :=
  if fneb (accu v) zero then vdivs v (accu v) else v.

End Notions.

(** ** Semantics of the [while] loop *)

(** [while_runs guard body st n st']: started in [st], the loop
    [while (guard) body] executes [n] passes and stops in [st']. *)
Inductive while_runs {S : Type} (guard : S -> bool) (body : S -> S)
    : S -> nat -> S -> Prop :=
| while_stop st : guard st = false -> while_runs guard body st 0 st
| while_pass st n st' :
    guard st = true ->
    while_runs guard body (body st) n st' ->
    while_runs guard body st (Datatypes.S n) st'.

(** ** The log-likelihood in the words of the specification *)

Section LogLikelihoodSpec.
Context {T : Type} `{Scalar T}.
Variable pdf : GaussianDistribution T -> vec T -> T.
Variable flog : T -> T.

(** The mixture density of a point: the sum over the components of mixing
    weight times component density. *)
Definition mixture_density (m : Mixture T) (x : vec T) : T :=
  accu (imap (fun i d => mul (nth i (weights m) zero) (pdf d x)) (dists m)).

(** The natural log of each point's mixture density, accumulated across
    all points. *)
Definition LogLikelihood_spec (observations : mat T) (m : Mixture T) : T :=
  fold_left (fun total x => add total (flog (mixture_density m x)))
            observations zero.

(** The points whose mixture density compares equal to 0. *)
Definition zero_density_points (observations : mat T) (m : Mixture T)
    : list nat :=
  concat (imap (fun j x => if feqb (mixture_density m x) zero then [j] else [])
               observations).

End LogLikelihoodSpec.

(** ** The initial covariance in the words of the specification *)

Section InitialCovarianceSpec.
Context {T : Type} `{Scalar T}.

(** The points assigned to cluster [k]. *)
Definition assigned_points (observations : mat T) (assignments : list nat)
    (k : nat) : mat T :=
  map fst (filter (fun xc => snd xc = k) (zip observations assignments)).

(** The assigned count, clamped to a minimum of 1. *)
Definition clamped_count (points : mat T) : T :=
  clamp_count (of_nat (length points)).

Definition cluster_mean (dim : nat) (points : mat T) : vec T :=
  vdivs (fold_left vadd points (zeros dim)) (clamped_count points).

(** The average of the centred outer products of the points, with the
    policy applied. *)
Definition centred_covariance (policy : CovarianceConstraintPolicy T)
    (dim : nat) (points : mat T) : mat T :=
  let mean := cluster_mean dim points in
  ApplyConstraint policy
    (mdivs (fold_left
              (fun acc x => madd acc (outer (vsub x mean) (vsub x mean)))
              points (mzeros dim dim))
           (clamped_count points)).

End InitialCovarianceSpec.

(** ** Inputs used in the examples below *)

(** A policy that leaves the covariance as it is, and one of type
    [DiagonalConstraint] that does the same. *)
Definition identity_policy {T : Type} : CovarianceConstraintPolicy T :=
  {| ApplyConstraint := fun c => c; is_DiagonalConstraint := false |}.
Definition diagonal_tagged_policy {T : Type} : CovarianceConstraintPolicy T :=
  {| ApplyConstraint := fun c => c; is_DiagonalConstraint := true |}.

(** A clusterer that puts every point in cluster 0. *)
Definition one_cluster {T : Type} : InitialClusteringType T :=
  {| Cluster := fun observations _ => replicate (length observations) 0;
     is_KMeans := false |}.

(** A Gaussian in one dimension. *)
Definition gaussian1 {T : Type} (mean variance : T) : GaussianDistribution T :=
  {| Mean := [mean]; Covariance := [[variance]] |}.

(** [maxIterations = 0] and a negative tolerance, in exact arithmetic. *)
Definition cfg_unbounded : EMFit Qc :=
  {| maxIterations := 0; tolerance := (- 1)%Qc;
     clusterer := one_cluster; constraint := identity_policy |}.

(** Two components in one dimension, the first with mixing weight 0, and
    one point with point weight 1. *)
Definition zero_weight_model {T : Type} `{Scalar T} (mean0 : T) : Mixture T :=
  {| dists := [gaussian1 mean0 one; gaussian1 one one];
     weights := [zero; one] |}.
Definition one_point {T : Type} `{Scalar T} : mat T := [[one]].

(** A stand-in for the learner that returns the object unchanged. *)
Definition learn_nothing {T : Type} (_ : learn_args T) (g : gmm_diag T)
    : gmm_diag T := g.

(** A density and a logarithm for running the code on rationals: the
    density is 1 within distance 2 of the mean and 0 elsewhere (in one
    dimension), the "logarithm" is [x - 1]. *)
Definition box_density (d : GaussianDistribution Qc) (x : list Qc) : Qc :=
  match Mean d, x with
  | [mu], [x0] => if Qc_gtb (Qc_abs (x0 - mu)) 2 then 0%Qc else 1%Qc
  | _, _ => 0%Qc
  end.
Definition linear_log (x : Qc) : Qc := (x - 1)%Qc.

(** A fit on the policy of type [DiagonalConstraint]. *)
Definition cfg_diagonal (maxIt : Z) : EMFit Qc :=
  {| maxIterations := maxIt; tolerance := lit_1e_10;
     clusterer := one_cluster; constraint := diagonal_tagged_policy |}.

(** Three points on the line, and a mixture of two Gaussians with equal
    weights; two points of which the second is far from both means. *)
Definition three_points : mat Qc := [[Qc_of_Z 1]; [Qc_of_Z 3]; [Qc_of_Z 6]].
Definition outlier_points : mat Qc := [[Qc_of_Z 1]; [Qc_of_Z 100]].
Definition two_gaussians : Mixture Qc :=
  {| dists := [gaussian1 (Qc_of_Z 2) 1%Qc; gaussian1 (Qc_of_Z 5) 1%Qc];
     weights := [(1 / Qc_of_Z 2)%Qc; (1 / Qc_of_Z 2)%Qc] |}.

(** One component whose mixing weight is 0. *)
Definition weightless_model : Mixture Qc :=
  {| dists := [gaussian1 0%Qc 1%Qc]; weights := [0%Qc] |}.

(** The generic path: a policy that is not [DiagonalConstraint]. *)
Definition cfg_generic {T : Type} `{Scalar T} (maxIt : Z) : EMFit T :=
  {| maxIterations := maxIt; tolerance := lit_1e_10;
     clusterer := one_cluster; constraint := identity_policy |}.

(** Two points in binary64, and a model of one component to be seeded. *)
Definition two_points_binary64 : mat float := [[1%float]; [3%float]].
Definition unseeded_binary64 : Mixture float :=
  {| dists := [gaussian1 0%float 1%float]; weights := [0%float] |}.

(** ** Notions used in the further properties *)

(** The sizes of a component: the length of its mean, the numbers of rows
    and of columns of its covariance. *)
Definition dist_sizes {T : Type} (d : GaussianDistribution T)
    : nat * nat * nat :=
  (length (Mean d), n_rows (Covariance d), length (Covariance d)).

(** A [D] by [D] matrix; a model of dimension [D], whose means have [D]
    entries and whose covariances are [D] by [D]; a policy that returns a
    [D] by [D] matrix for each [D] by [D] matrix. *)
Definition square {T : Type} (D : nat) (A : mat T) : Prop :=
  length A = D /\ Forall (fun c => length c = D) A.

Definition has_dimension {T : Type} (D : nat) (m : Mixture T) : Prop :=
  Forall (fun d => length (Mean d) = D /\ square D (Covariance d)) (dists m).

Definition keeps_dimension {T : Type} (D : nat)
    (policy : CovarianceConstraintPolicy T) : Prop :=
  forall A, square D A -> square D (ApplyConstraint policy A).

(** A matrix equal to its transpose, entry by entry; a model whose
    covariances are all so; a policy that returns such a matrix for each
    such [D] by [D] matrix. *)
Definition symmetric {T : Type} `{Scalar T} (A : mat T) : Prop :=
  forall r j, nth r (nth j A []) zero = nth j (nth r A []) zero.

Definition has_symmetric_covariances {T : Type} `{Scalar T} (m : Mixture T)
    : Prop :=
  Forall (fun d => symmetric (Covariance d)) (dists m).

Definition keeps_symmetry {T : Type} `{Scalar T} (D : nat)
    (policy : CovarianceConstraintPolicy T) : Prop :=
  forall A, square D A -> symmetric A -> symmetric (ApplyConstraint policy A).

(** ** Inputs used in the examples of the further properties *)

(** The model that a pass over [two_points_binary64] leaves as it is, when
    the density is 1 everywhere. *)
Definition fitted_binary64 : Mixture float :=
  {| dists := [gaussian1 2%float 1%float]; weights := [1%float] |}.
Definition constant_density (_ : GaussianDistribution float) (_ : vec float)
    : float := 1%float.
Definition shifted_log (x : float) : float := (x - 1)%float.

(** Two points in the plane, and one component whose covariance has
    entries off the diagonal. *)
Definition plane_points_binary64 : mat float :=
  [[1%float; 2%float]; [3%float; 4%float]].
Definition correlated_binary64 : Mixture float :=
  {| dists := [{| Mean := [0%float; 0%float];
                  Covariance := [[2%float; 1%float]; [1%float; 2%float]] |}];
     weights := [1%float] |}.

(** A stand-in for the density of a Gaussian that has collapsed onto a
    point: infinite at the mean when the variance is 0, and 1/16 anywhere
    else; and a mixture of two components with equal weights, of which the
    first has collapsed onto the point 1. *)
Definition point_mass_density (d : GaussianDistribution float) (x : vec float)
    : float :=
  match Covariance d, Mean d, x with
  | [[v]], [mu], [x0] =>
      if andb (PrimFloat.eqb v 0%float) (PrimFloat.eqb x0 mu)
      then infinity else 0x1p-4%float
  | _, _, _ => 0x1p-4%float
  end.
Definition collapsed_binary64 : Mixture float :=
  {| dists := [gaussian1 1%float 0%float; gaussian1 1%float 1%float];
     weights := [0x1p-1%float; 0x1p-1%float] |}.

(** Two components with equal weights, in binary64. *)
Definition two_gaussians_binary64 : Mixture float :=
  {| dists := [gaussian1 1%float 1%float; gaussian1 3%float 1%float];
     weights := [0x1p-1%float; 0x1p-1%float] |}.

(** Two points in the plane, one component whose covariance has entries off
    the diagonal, and a density that is 1 everywhere, in exact
    arithmetic. *)
Definition plane_points : mat Qc :=
  [[Qc_of_Z 1; Qc_of_Z 2]; [Qc_of_Z 3; Qc_of_Z 4]].
Definition correlated_model : Mixture Qc :=
  {| dists := [{| Mean := [0%Qc; 0%Qc];
                  Covariance := [[Qc_of_Z 2; 1%Qc]; [1%Qc; Qc_of_Z 2]] |}];
     weights := [1%Qc] |}.
Definition unit_density (_ : GaussianDistribution Qc) (_ : vec Qc) : Qc := 1%Qc.

(** * Properties *)

(** ** Exact rationals obey the laws *)

Lemma Qc_gtb_lt (x y : Qc) : Qc_gtb x y = true <-> (y < x)%Qc.
Proof.
  unfold Qc_gtb. destruct (Qclt_le_dec y x) as [Hlt | Hle].
  - tauto.
  - split; [discriminate |]. intros Hlt.
    exfalso. exact (Qcle_not_lt _ _ Hle Hlt).
Qed.

Lemma Qc_ScalarLaws : ScalarLaws Qc.
Proof.
  split; cbn [zero one add sub mul div fabs feqb fgtb Qc_Scalar].
  - destruct Qcrt as [a b c d e f g h i].
    split; try assumption.
    + intros x y. unfold Qcminus. rewrite Qcplus_0_l. reflexivity.
    + intros x. unfold Qcminus. rewrite Qcplus_0_l. apply i.
  - intros x y _. unfold Qcdiv. rewrite Qcmult_1_l. reflexivity.
  - intros y Hy. unfold Qcdiv. rewrite Qcmult_1_l.
    apply Qcmult_inv_l. exact Hy.
  - intros x y. split.
    + apply Qc_eq_bool_correct.
    + intros ->. unfold Qc_eq_bool. destruct (Qcanon.Qc_eq_dec y y); congruence.
  - reflexivity.
  - intros x. destruct (Qc_gtb x x) eqn:E; [| reflexivity].
    apply Qc_gtb_lt in E. exfalso. exact (Qclt_not_eq _ _ E eq_refl).
  - intros x y z Hxy Hyz. apply Qc_gtb_lt. apply Qc_gtb_lt in Hxy, Hyz.
    exact (Qclt_trans _ _ _ Hyz Hxy).
  - intros x y. destruct (Qc_dec x y) as [[Hlt | Hgt] | Heq].
    + right; right. apply Qc_gtb_lt. exact Hlt.
    + right; left. apply Qc_gtb_lt. exact Hgt.
    + left. exact Heq.
  - intros x y z Hxy. apply Qc_gtb_lt. apply Qc_gtb_lt in Hxy.
    apply Qcplus_lt_mono_r. exact Hxy.
  - intros x y Hx Hy. apply Qc_gtb_lt. apply Qc_gtb_lt in Hx, Hy.
    apply Qcmult_pos_pos; assumption.
  - intros x. unfold Qc_abs, Qc_gtb.
    destruct (Qclt_le_dec x 0); unfold Qcminus; rewrite ?Qcplus_0_l; reflexivity.
Qed.

#[export] Existing Instance Qc_ScalarLaws.

(** ** Lists and matrices *)

Section ListFacts.
Context {A B C : Type}.

Lemma imap_imap (f : nat -> B -> C) (g : nat -> A -> B) (l : list A) :
  imap f (imap g l) = imap (fun j x => f j (g j x)) l.
Proof.
  revert f g. induction l as [| x l IH]; intros f g; [reflexivity |].
  rewrite !imap_cons. f_equal. apply IH.
Qed.

Lemma zip_with_imap (f : A -> B -> C) (l : list A) (k : list B) (b : B) :
  length l <= length k ->
  zip_with f l k = imap (fun j x => f x (nth j k b)) l.
Proof.
  revert k. induction l as [| x l IH]; intros [| y k] Hlen; simpl in *;
    try reflexivity; try lia.
  f_equal. apply IH. lia.
Qed.

Lemma imap_replicate (f : nat -> A -> B) (n : nat) (x : A) :
  imap f (replicate n x) = map (fun j => f j x) (seq 0 n).
Proof.
  revert f. induction n as [| n IH]; intros f; [reflexivity |].
  simpl replicate. rewrite imap_cons, IH. simpl. f_equal.
  rewrite <- seq_shift, map_map. reflexivity.
Qed.

Lemma map_seq_nth (l : list A) (f : A -> B) (a : A) :
  map (fun j => f (nth j l a)) (seq 0 (length l)) = map f l.
Proof.
  induction l as [| x l IH]; [reflexivity |].
  simpl. f_equal. rewrite <- seq_shift, map_map. exact IH.
Qed.

End ListFacts.

Section InsertFacts.
Context {A R : Type}.

(** Assigning the entries [n, n+1, ...] of a list one after the other. *)
Lemma fold_left_insert_imap (g : nat * R -> A) (rs : list R) (n : nat)
    (c : list A) :
  n + length rs <= length c ->
  fold_left (fun c a => <[fst a := g a]> c) (imap (fun i r => (n + i, r)) rs) c
  = take n c ++ imap (fun i r => g (n + i, r)) rs ++ drop (n + length rs) c.
Proof.
  revert n c. induction rs as [| r rs IH]; intros n c Hlen.
  - simpl. rewrite Nat.add_0_r, take_drop. reflexivity.
  - rewrite !imap_cons. simpl fold_left. simpl length in *.
    rewrite (imap_ext _ (fun i r => (S n + i, r)))
      by (intros; simpl; f_equal; lia).
    rewrite IH by (rewrite length_insert; lia).
    rewrite (imap_ext ((fun i r0 => g (n + i, r0)) ∘ S) (fun i r0 => g (S n + i, r0)))
      by (intros; simpl; do 2 f_equal; lia).
    rewrite Nat.add_0_r.
    replace (S n + length rs) with (n + S (length rs)) by lia.
    rewrite drop_insert_lt by lia.
    rewrite (take_S_r _ _ (g (n, r))) by (apply list_lookup_insert_eq; lia).
    rewrite take_insert_ge by lia. rewrite <- app_assoc. reflexivity.
Qed.

End InsertFacts.

Section MatrixFacts.
Context {T : Type} `{Scalar T}.

Lemma imap_id {A : Type} (l : list A) : imap (fun _ x => x) l = l.
Proof. induction l as [| x l IH]; [reflexivity |]. rewrite imap_cons. f_equal. exact IH. Qed.

Lemma set_row_imap (i : nat) (v : list T) (L : list (list T)) :
  length L <= length v ->
  set_row i v L = imap (fun j c => <[i := nth j v zero]> c) L.
Proof.
  intros Hl. unfold set_row.
  exact (zip_with_imap (fun c x => <[i := x]> c) L v zero Hl).
Qed.

Lemma length_set_row (i : nat) (v : list T) (L : list (list T)) :
  length L <= length v -> length (set_row i v L) = length L.
Proof. intros Hl. rewrite set_row_imap by exact Hl. apply length_imap. Qed.

(** Assigning rows one after the other, seen column by column. *)
Lemma fold_left_set_row {X : Type} (ix : X -> nat) (rw : X -> list T)
    (xs : list X) (L : list (list T)) :
  Forall (fun a => length L <= length (rw a)) xs ->
  fold_left (fun L a => set_row (ix a) (rw a) L) xs L
  = imap (fun j c => fold_left (fun c a => <[ix a := nth j (rw a) zero]> c) xs c) L.
Proof.
  revert L. induction xs as [| a xs IH]; intros L Hall.
  - simpl. symmetry. apply imap_id.
  - inversion Hall as [| ? ? Ha Hxs]; subst. simpl fold_left.
    rewrite IH by (rewrite length_set_row by exact Ha; exact Hxs).
    rewrite set_row_imap by exact Ha. rewrite imap_imap. reflexivity.
Qed.

End MatrixFacts.

(** ** Exact arithmetic *)

Section Algebra.
Context {T : Type} `{ScalarLaws T}.

Add Ring scalar_ring : sl_ring.

Lemma fneb_true (x y : T) : fneb x y = true <-> x <> y.
Proof.
  unfold fneb. rewrite negb_true_iff. split.
  - intros E Hxy. apply sl_feqb in Hxy. congruence.
  - intros Hxy. destruct (feqb x y) eqn:E; [| reflexivity].
    apply sl_feqb in E. contradiction.
Qed.

Lemma fneb_false (x y : T) : fneb x y = false <-> x = y.
Proof.
  unfold fneb. rewrite negb_false_iff. apply sl_feqb.
Qed.

Lemma div_self (s : T) : s <> zero -> div s s = one.
Proof.
  intros Hs. rewrite (sl_div s s Hs).
  replace (mul s (div one s)) with (mul (div one s) s) by ring.
  apply sl_inv. exact Hs.
Qed.

Lemma zero_div (s : T) : s <> zero -> div zero s = zero.
Proof. intros Hs. rewrite (sl_div zero s Hs). ring. Qed.

Lemma div_add (x y s : T) :
  s <> zero -> div (add x y) s = add (div x s) (div y s).
Proof.
  intros Hs. rewrite (sl_div (add x y) s Hs), (sl_div x s Hs), (sl_div y s Hs).
  ring.
Qed.

(** [accu] folds from the left; in exact arithmetic it is the sum. *)
Lemma fold_left_add (v : list T) (a : T) :
  fold_left add v a = add a (fold_left add v zero).
Proof.
  revert a. induction v as [| x v IH]; intros a; simpl.
  - ring.
  - rewrite (IH (add a x)), (IH (add zero x)). ring.
Qed.

Lemma accu_cons (x : T) (v : list T) : accu (x :: v) = add x (accu v).
Proof.
  unfold accu. simpl. rewrite fold_left_add. ring.
Qed.

Lemma accu_nil : accu ([] : list T) = zero.
Proof. reflexivity. Qed.

Lemma accu_zeros (n : nat) : accu (zeros n) = zero.
Proof.
  induction n as [| n IH]; [reflexivity |].
  unfold zeros in *. simpl replicate. rewrite accu_cons, IH. ring.
Qed.

Lemma accu_vdivs (v : list T) (s : T) :
  s <> zero -> accu (vdivs v s) = div (accu v) s.
Proof.
  intros Hs. induction v as [| x v IH].
  - simpl. rewrite accu_nil, zero_div by exact Hs. reflexivity.
  - unfold vdivs in *. simpl map. rewrite !accu_cons, IH, div_add by exact Hs.
    reflexivity.
Qed.

(** *** Order *)

Lemma positive_ne (x : T) : positive x -> x <> zero.
Proof.
  intros Hx E. unfold positive in Hx. rewrite E, sl_gt_irrefl in Hx. discriminate.
Qed.

Lemma positive_add (x y : T) : positive x -> positive y -> positive (add x y).
Proof.
  unfold positive. intros Hx Hy.
  apply (sl_gt_trans _ (add zero y)).
  - apply sl_gt_add. exact Hx.
  - replace (add zero y) with y by ring. exact Hy.
Qed.

Lemma nonneg_add (x y : T) : nonneg x -> nonneg y -> nonneg (add x y).
Proof.
  intros [-> | Hx] [-> | Hy].
  - left. ring.
  - right. replace (add zero y) with y by ring. exact Hy.
  - right. replace (add x zero) with x by ring. exact Hx.
  - right. apply positive_add; assumption.
Qed.

Lemma nonneg_mul (x y : T) : nonneg x -> nonneg y -> nonneg (mul x y).
Proof.
  intros [-> | Hx] [-> | Hy].
  - left. ring.
  - left. ring.
  - left. ring.
  - right. apply sl_gt_mul; assumption.
Qed.

Lemma positive_inv (s : T) : positive s -> positive (div one s).
Proof.
  intros Hs. pose proof (positive_ne s Hs) as Hne.
  destruct (sl_gt_total (div one s) zero) as [E | [Hp | Hn]].
  - exfalso. pose proof (sl_inv s Hne) as Hi. rewrite E in Hi.
    assert (Hz : zero = one) by (rewrite <- Hi; ring).
    pose proof sl_one_pos as H1. rewrite <- Hz, sl_gt_irrefl in H1. discriminate.
  - exact Hp.
  - exfalso.
    (* -(1/s) > 0, so -(1/s) * s = -1 > 0, against 1 > 0 *)
    assert (Hneg : positive (sub zero (div one s))).
    { unfold positive.
      pose proof (sl_gt_add _ _ (sub zero (div one s)) Hn) as Ha.
      replace (add zero (sub zero (div one s))) with (sub zero (div one s)) in Ha by ring.
      replace (add (div one s) (sub zero (div one s))) with zero in Ha by ring.
      exact Ha. }
    pose proof (sl_gt_mul _ _ Hneg Hs) as Hm.
    replace (mul (sub zero (div one s)) s) with (sub zero (mul (div one s) s)) in Hm by ring.
    rewrite (sl_inv s Hne) in Hm.
    pose proof (sl_gt_add _ _ one Hm) as Ha.
    replace (add (sub zero one) one) with zero in Ha by ring.
    replace (add zero one) with one in Ha by ring.
    pose proof (sl_gt_trans _ _ _ Ha sl_one_pos) as Hc.
    rewrite sl_gt_irrefl in Hc. discriminate.
Qed.

Lemma nonneg_div (x s : T) : nonneg x -> positive s -> nonneg (div x s).
Proof.
  intros Hx Hs. rewrite (sl_div x s (positive_ne s Hs)).
  apply nonneg_mul; [exact Hx |]. right. apply positive_inv. exact Hs.
Qed.

Lemma nonneg_accu (v : list T) : Forall nonneg v -> nonneg (accu v).
Proof.
  induction 1 as [| x v Hx Hv IH].
  - left. reflexivity.
  - rewrite accu_cons. apply nonneg_add; assumption.
Qed.

Lemma nonneg_positive_add (x y : T) : positive x -> nonneg y -> positive (add x y).
Proof.
  intros Hx [-> | Hy].
  - replace (add x zero) with x by ring. exact Hx.
  - apply positive_add; assumption.
Qed.

(** A sum of nonnegative entries that is 0 has only entries 0. *)
Lemma accu_zero_all_zero (v : list T) :
  Forall nonneg v -> accu v = zero -> Forall (fun x => x = zero) v.
Proof.
  induction 1 as [| x v Hx Hv IH]; intros Hs; [constructor |].
  rewrite accu_cons in Hs.
  pose proof (nonneg_accu v Hv) as Hacc.
  destruct Hx as [-> | Hx].
  - constructor; [reflexivity |]. apply IH. rewrite <- Hs. ring.
  - exfalso. apply (positive_ne (add x (accu v))); [| exact Hs].
    apply nonneg_positive_add; assumption.
Qed.

Lemma of_nat_positive (n : nat) : positive (of_nat (S n)).
Proof.
  induction n as [| n IH].
  - simpl. replace (add zero one) with one by ring. exact sl_one_pos.
  - change (of_nat (S (S n))) with (add (of_nat (S n)) one).
    apply positive_add; [exact IH | exact sl_one_pos].
Qed.

End Algebra.

(** ** Row-wise normalisation *)

Section NormalizeFacts.
Context {T : Type} `{Scalar T}.

Lemma length_row (i : nat) (C : mat T) : length (row i C) = length C.
Proof. unfold row. apply List.length_map. Qed.

Lemma length_vdivs (v : vec T) (s : T) : length (vdivs v s) = length v.
Proof. unfold vdivs. apply List.length_map. Qed.

Lemma length_normalized_row (v : vec T) : length (normalized_row v) = length v.
Proof.
  unfold normalized_row. destruct (fneb _ _); [apply length_vdivs | reflexivity].
Qed.

Lemma nth_insert_same (c : vec T) (i : nat) (x : T) :
  i < length c -> nth i (<[i := x]> c) zero = x.
Proof.
  intros Hi. apply nth_lookup_Some. apply list_lookup_insert_eq. exact Hi.
Qed.

Lemma nth_insert_other (c : vec T) (i r : nat) (x : T) :
  r <> i -> nth r (<[i := x]> c) zero = nth r c zero.
Proof.
  intros Hr. rewrite !nth_lookup, list_lookup_insert_ne by congruence.
  reflexivity.
Qed.

Lemma imap_map {A B : Type} (f : A -> B) (l : list A) :
  imap (fun _ x => f x) l = map f l.
Proof.
  induction l as [| x l IH]; [reflexivity |].
  rewrite imap_cons. simpl. f_equal. exact IH.
Qed.

Lemma imap_nth (v : vec T) {A : Type} (l : list A) :
  length l = length v -> imap (fun j _ => nth j v zero) l = v.
Proof.
  revert v. induction l as [| x l IH]; intros [| y v] Hl; simpl in Hl;
    try reflexivity; try lia.
  rewrite imap_cons. simpl. f_equal. apply IH. lia.
Qed.

Lemma row_set_row_other (i r : nat) (v : vec T) (C : mat T) :
  r <> i -> length C <= length v -> row r (set_row i v C) = row r C.
Proof.
  intros Hr Hl. rewrite set_row_imap by exact Hl. unfold row.
  rewrite fmap_imap.
  rewrite (imap_ext _ (fun _ c => nth r c zero)).
  - apply imap_map.
  - intros j c _. simpl. apply nth_insert_other. exact Hr.
Qed.

Lemma row_set_row_same (n i : nat) (v : vec T) (C : mat T) :
  well_formed n C -> i < n -> length v = length C ->
  row i (set_row i v C) = v.
Proof.
  intros Hwf Hi Hl. rewrite set_row_imap by lia. unfold row.
  rewrite fmap_imap.
  rewrite (imap_ext _ (fun j _ => nth j v zero)).
  - apply imap_nth. symmetry. exact Hl.
  - intros j c Hc. simpl. apply nth_insert_same.
    unfold well_formed in Hwf. rewrite Forall_forall in Hwf.
    rewrite (Hwf c); [exact Hi |]. apply list_elem_of_In.
    apply list_elem_of_lookup. exists j. exact Hc.
Qed.

Lemma well_formed_set_row (n i : nat) (v : vec T) (C : mat T) :
  well_formed n C -> length C <= length v -> well_formed n (set_row i v C).
Proof.
  intros Hwf Hl. rewrite set_row_imap by exact Hl.
  unfold well_formed in *. rewrite Forall_forall in *.
  intros c Hc. apply list_elem_of_In, elem_of_lookup_imap in Hc.
  destruct Hc as (j & c0 & -> & Hj). rewrite length_insert.
  apply Hwf. apply list_elem_of_In, list_elem_of_lookup. exists j. exact Hj.
Qed.

Lemma length_normalize_row (C : mat T) (i : nat) :
  length (normalize_row C i) = length C.
Proof.
  unfold normalize_row. destruct (fneb _ _); [| reflexivity].
  apply length_set_row. rewrite length_vdivs, length_row. reflexivity.
Qed.

Lemma well_formed_normalize_row (n i : nat) (C : mat T) :
  well_formed n C -> well_formed n (normalize_row C i).
Proof.
  intros Hwf. unfold normalize_row. destruct (fneb _ _); [| exact Hwf].
  apply well_formed_set_row; [exact Hwf |].
  rewrite length_vdivs, length_row. reflexivity.
Qed.

Lemma row_normalize_row_other (C : mat T) (i r : nat) :
  r <> i -> row r (normalize_row C i) = row r C.
Proof.
  intros Hr. unfold normalize_row. destruct (fneb _ _); [| reflexivity].
  apply row_set_row_other; [exact Hr |].
  rewrite length_vdivs, length_row. reflexivity.
Qed.

Lemma row_normalize_row_same (n i : nat) (C : mat T) :
  well_formed n C -> i < n ->
  row i (normalize_row C i) = normalized_row (row i C).
Proof.
  intros Hwf Hi. unfold normalize_row, normalized_row.
  destruct (fneb _ _); [| reflexivity].
  apply (row_set_row_same n); [exact Hwf | exact Hi |].
  rewrite length_vdivs, length_row. reflexivity.
Qed.

(** The rows are normalised independently of each other. *)
Lemma fold_normalize_row (n a k r : nat) (C : mat T) :
  well_formed n C -> a + k <= n -> r < n ->
  row r (fold_left normalize_row (seq a k) C)
  = if decide (a <= r < a + k) then normalized_row (row r C) else row r C.
Proof.
  revert a C. induction k as [| k IH]; intros a C Hwf Hak Hr.
  - simpl. destruct (decide _) as [Hd | _]; [lia | reflexivity].
  - simpl. rewrite IH by (try apply well_formed_normalize_row; auto; lia).
    destruct (decide (S a <= r < S a + k)) as [Hin | Hout].
    + rewrite row_normalize_row_other by lia.
      destruct (decide _) as [_ | Hd]; [reflexivity | lia].
    + destruct (decide (r = a)) as [-> | Hne].
      * rewrite (row_normalize_row_same n) by (auto; lia).
        destruct (decide _) as [_ | Hd]; [reflexivity | lia].
      * rewrite row_normalize_row_other by exact Hne.
        destruct (decide _) as [Hd | _]; [lia | reflexivity].
Qed.

Lemma NormalizeRows_row (n r : nat) (C : mat T) :
  well_formed n C -> r < n ->
  row r (NormalizeRows n C) = normalized_row (row r C).
Proof.
  intros Hwf Hr. unfold NormalizeRows.
  rewrite (fold_normalize_row n) by (auto; lia).
  destruct (decide _) as [_ | Hd]; [reflexivity | lia].
Qed.

Lemma fold_normalize_row_shape (n : nat) (rows : list nat) (C : mat T) :
  well_formed n C ->
  well_formed n (fold_left normalize_row rows C)
  /\ length (fold_left normalize_row rows C) = length C.
Proof.
  revert C. induction rows as [| i rows IH]; intros C Hwf; [auto |].
  simpl. destruct (IH (normalize_row C i)) as [Hw Hl].
  - apply well_formed_normalize_row. exact Hwf.
  - split; [exact Hw |]. rewrite Hl. apply length_normalize_row.
Qed.

Lemma well_formed_NormalizeRows (n : nat) (C : mat T) :
  well_formed n C -> well_formed n (NormalizeRows n C).
Proof.
  intros Hwf. exact (proj1 (fold_normalize_row_shape n (seq 0 n) C Hwf)).
Qed.

Lemma length_NormalizeRows (n : nat) (C : mat T) :
  well_formed n C -> length (NormalizeRows n C) = length C.
Proof.
  intros Hwf. exact (proj2 (fold_normalize_row_shape n (seq 0 n) C Hwf)).
Qed.

(** The matrix of the E-step has one column per component and one row per
    point. *)
Lemma well_formed_EStep pdf (observations : mat T) (m : Mixture T) :
  well_formed (length observations) (EStep pdf observations m).
Proof.
  unfold well_formed, EStep. rewrite Forall_forall. intros c Hc.
  apply list_elem_of_In, elem_of_lookup_imap in Hc.
  destruct Hc as (i & d & -> & _).
  unfold vscale, Probability. rewrite !List.length_map. reflexivity.
Qed.

Lemma length_EStep pdf (observations : mat T) (m : Mixture T) :
  length (EStep pdf observations m) = length (dists m).
Proof. unfold EStep. apply length_imap. Qed.

End NormalizeFacts.

(** ** Sums over the rows and the columns of [condProb] *)

Section SumFacts.
Context {T : Type} `{ScalarLaws T}.

Add Ring scalar_ring_sums : sl_ring.

Lemma nth_row (C : mat T) (r k : nat) :
  nth k (row r C) zero = nth r (nth k C []) zero.
Proof.
  unfold row. revert k. induction C as [| c C IH]; intros [| k]; simpl; auto.
  - destruct r; reflexivity.
  - destruct r; reflexivity.
Qed.

Lemma accu_map_add {A : Type} (f g : A -> T) (l : list A) :
  accu (map (fun a => add (f a) (g a)) l)
  = add (accu (map f l)) (accu (map g l)).
Proof.
  induction l as [| a l IH]; simpl.
  - rewrite accu_nil. ring.
  - rewrite !accu_cons, IH. ring.
Qed.

Lemma accu_map_zero {A : Type} (l : list A) :
  accu (map (fun _ => zero) l) = zero.
Proof.
  induction l as [| a l IH]; simpl; [reflexivity |].
  rewrite accu_cons, IH. ring.
Qed.

Lemma accu_map_one {A : Type} (l : list A) :
  accu (map (fun _ => one) l) = of_nat (length l).
Proof.
  induction l as [| a l IH]; simpl; [reflexivity |].
  rewrite accu_cons, IH. ring.
Qed.

Lemma accu_ones (n : nat) : accu (ones n) = of_nat n.
Proof.
  induction n as [| n IH]; [reflexivity |].
  unfold ones in *. simpl replicate. rewrite accu_cons, IH. simpl. ring.
Qed.

Lemma accu_vscale (v : vec T) (s : T) : accu (vscale v s) = mul (accu v) s.
Proof.
  unfold vscale. induction v as [| x v IH]; simpl.
  - rewrite accu_nil. ring.
  - rewrite !accu_cons, IH. ring.
Qed.

(** The sum of the column sums is the sum of the row sums. *)
Lemma accu_columns_rows (n : nat) (C : mat T) :
  well_formed n C ->
  accu (map accu C) = accu (map (fun r => accu (row r C)) (seq 0 n)).
Proof.
  induction 1 as [| c C Hc Hwf IH].
  - simpl. rewrite accu_map_zero. reflexivity.
  - simpl map at 1. rewrite accu_cons, IH.
    rewrite (map_ext (fun r => accu (row r (c :: C)))
                     (fun r => add (nth r c zero) (accu (row r C))))
      by (intros r; unfold row; simpl map; apply accu_cons).
    rewrite accu_map_add. f_equal.
    rewrite <- Hc. rewrite (map_seq_nth c (fun x => x) zero), map_id.
    reflexivity.
Qed.

(** If every row sums to 1, the column sums add up to the number of rows. *)
Lemma accu_columns_of_unit_rows (n : nat) (C : mat T) :
  well_formed n C ->
  (forall r, r < n -> accu (row r C) = one) ->
  accu (map accu C) = of_nat n.
Proof.
  intros Hwf Hrows. rewrite (accu_columns_rows n C Hwf).
  rewrite (map_ext_in _ (fun _ => one)).
  - rewrite accu_map_one, length_seq. reflexivity.
  - intros r Hr. apply in_seq in Hr. apply Hrows. lia.
Qed.

(** The same with each row weighted by [p]. *)
Lemma row_map_schur (C : mat T) (p : vec T) (n r : nat) :
  well_formed n C -> length p = n -> r < n ->
  row r (map (fun c => schur c p) C) = vscale (row r C) (nth r p zero).
Proof.
  intros Hwf Hp Hr. unfold row, vscale. rewrite !map_map.
  apply map_ext_in. intros c Hc.
  unfold well_formed in Hwf. rewrite Forall_forall in Hwf.
  specialize (Hwf c Hc). unfold schur.
  rewrite (zip_with_imap mul c p zero) by lia.
  rewrite (nth_lookup (imap _ _)), list_lookup_imap.
  destruct (c !! r) as [x |] eqn:E.
  - simpl. rewrite (nth_lookup_Some c r zero x E). reflexivity.
  - apply lookup_ge_None in E. lia.
Qed.

Lemma accu_weighted_columns_of_unit_rows (n : nat) (C : mat T) (p : vec T) :
  well_formed n C -> length p = n ->
  (forall r, r < n -> accu (row r C) = one) ->
  accu (map (fun c => accu (schur c p)) C) = accu p.
Proof.
  intros Hwf Hp Hrows.
  rewrite <- (map_map (fun c => schur c p) accu).
  rewrite (accu_columns_rows n).
  - rewrite (map_ext_in _ (fun r => nth r p zero)).
    + rewrite <- Hp, (map_seq_nth p (fun x => x) zero), map_id. reflexivity.
    + intros r Hr. apply in_seq in Hr.
      rewrite (row_map_schur C p n) by (auto; lia).
      rewrite accu_vscale, Hrows by lia. ring.
  - unfold well_formed in *. rewrite Forall_forall in *.
    intros c' Hc'. apply in_map_iff in Hc'. destruct Hc' as (c & <- & Hc).
    unfold schur. rewrite length_zip_with, (Hwf c Hc). lia.
Qed.

End SumFacts.

(** ** The loop of [Estimate]: termination and number of passes *)

Section WhileFacts.
Context {T : Type}.
Variable guard : @LoopState T -> bool.
Variable body : @LoopState T -> @LoopState T.

Lemma while_loop_le fuel st : fst (while_loop guard body fuel st) <= fuel.
Proof.
  revert st. induction fuel as [| fuel IH]; intros st; simpl; [lia |].
  destruct (guard st); simpl; [| lia].
  specialize (IH (body st)).
  destruct (while_loop guard body fuel (body st)) as [n st']. simpl in *. lia.
Qed.

Lemma while_loop_runs fuel st :
  guard (snd (while_loop guard body fuel st)) = false ->
  while_runs guard body st
    (fst (while_loop guard body fuel st)) (snd (while_loop guard body fuel st)).
Proof.
  revert st. induction fuel as [| fuel IH]; intros st; simpl.
  - intros Hg. apply while_stop. exact Hg.
  - destruct (guard st) eqn:Eg.
    + specialize (IH (body st)).
      destruct (while_loop guard body fuel (body st)) as [n st']. simpl in *.
      intros Hg. apply while_pass; [exact Eg | exact (IH Hg)].
    + simpl. intros _. apply while_stop. exact Eg.
Qed.

(** The loop is deterministic: its runs are unique. *)
Lemma while_runs_unique st n1 st1 n2 st2 :
  while_runs guard body st n1 st1 ->
  while_runs guard body st n2 st2 ->
  n1 = n2 /\ st1 = st2.
Proof.
  intros R1. revert n2 st2.
  induction R1 as [st Hg | st n st' Hg R1 IH]; intros n2 st2 R2.
  - inversion R2; subst; [auto | congruence].
  - inversion R2 as [? Hg2 | ? m ? Hg2 R2']; subst; [congruence |].
    destruct (IH _ _ R2') as [-> ->]. auto.
Qed.

End WhileFacts.

Section LoopFacts.
Context {T : Type} `{Scalar T}.
Variable pdf : GaussianDistribution T -> vec T -> T.
Variable flog : T -> T.
Variable cfg : EMFit T.
Variable pass : Mixture T -> Mixture T.
Variable observations : mat T.

#[local] Abbreviation guard := (loop_guard cfg).
#[local] Abbreviation body := (loop_body pdf flog pass observations).

Lemma SIZE_MODULUS_pos : (0 < SIZE_MODULUS)%Z.
Proof. reflexivity. Qed.

Lemma to_size_t_range z : (0 <= to_size_t z < SIZE_MODULUS)%Z.
Proof. apply Z.mod_pos_bound. exact SIZE_MODULUS_pos. Qed.

Lemma to_size_t_small z : (0 <= z < SIZE_MODULUS)%Z -> to_size_t z = z.
Proof. intros Hz. apply Z.mod_small. exact Hz. Qed.

(** When the fuel is the distance of the counter to [maxIterations]
    (modulo [2^64]), the guard is false where the loop stops. *)
Lemma while_loop_guard_false fuel st :
  (0 <= ls_iteration st < SIZE_MODULUS)%Z ->
  to_size_t (ls_iteration st + Z.of_nat fuel) = to_size_t (maxIterations cfg) ->
  guard (snd (while_loop guard body fuel st)) = false.
Proof.
  revert st. induction fuel as [| fuel IH]; intros st Hr Hd; simpl.
  - unfold loop_guard.
    rewrite Z.add_0_r, (to_size_t_small _ Hr) in Hd.
    rewrite Hd, Z.eqb_refl. apply andb_false_r.
  - destruct (guard st) eqn:Eg; [| exact Eg].
    assert (Hb : guard (snd (while_loop guard body fuel (body st))) = false).
    { apply IH.
      - simpl. apply to_size_t_range.
      - simpl. rewrite <- Hd. unfold to_size_t.
        rewrite Zplus_mod_idemp_l. f_equal. lia. }
    destruct (while_loop guard body fuel (body st)) as [n st']. exact Hb.
Qed.

Lemma EMLoop_exits m :
  loop_guard cfg (snd (EMLoop pdf flog cfg pass observations m)) = false.
Proof.
  unfold EMLoop. apply while_loop_guard_false.
  - simpl. split; [lia | reflexivity].
  - unfold loop_fuel. simpl ls_iteration.
    rewrite Z2Nat.id by (apply Z.mod_pos_bound; exact SIZE_MODULUS_pos).
    unfold to_size_t. rewrite Zplus_mod_idemp_r. f_equal. lia.
Qed.

(** With a counter in [1, 2^64) and [maxIterations = 0], the test
    [iteration != maxIterations] holds: only the convergence test is left. *)
Lemma loop_guard_maxIterations_0 st :
  maxIterations cfg = 0%Z ->
  (1 <= ls_iteration st < SIZE_MODULUS)%Z ->
  loop_guard cfg st = not_converged cfg st.
Proof.
  intros H0 Hr. unfold loop_guard. rewrite H0.
  replace (to_size_t 0) with 0%Z by reflexivity.
  destruct (Z.eqb_spec (ls_iteration st) 0) as [E | _]; [lia |].
  apply andb_true_r.
Qed.

(** If the convergence test never fails, the loop runs until the counter
    meets [maxIterations]. *)
Lemma while_loop_not_converged fuel st :
  (forall st', not_converged cfg st' = true) ->
  (0 <= ls_iteration st < SIZE_MODULUS)%Z ->
  (forall k, (0 <= k < Z.of_nat fuel)%Z ->
             to_size_t (ls_iteration st + k) <> to_size_t (maxIterations cfg)) ->
  fst (while_loop guard body fuel st) = fuel.
Proof.
  intros Hnc. revert st. induction fuel as [| fuel IH]; intros st Hr Hk; simpl.
  - reflexivity.
  - assert (Eg : guard st = true).
    { unfold loop_guard. rewrite Hnc. simpl.
      apply negb_true_iff, Z.eqb_neq.
      specialize (Hk 0%Z ltac:(lia)).
      rewrite Z.add_0_r, (to_size_t_small _ Hr) in Hk. exact Hk. }
    rewrite Eg.
    assert (Hb : fst (while_loop guard body fuel (body st)) = fuel).
    { apply IH.
      - simpl. apply to_size_t_range.
      - intros k Hk'. simpl.
        specialize (Hk (1 + k)%Z ltac:(lia)).
        unfold to_size_t in *. rewrite Zplus_mod_idemp_l.
        replace (ls_iteration st + 1 + k)%Z with (ls_iteration st + (1 + k))%Z by lia.
        exact Hk. }
    destruct (while_loop guard body fuel (body st)) as [n st']. simpl in *.
    congruence.
Qed.

End LoopFacts.

(** ** C1: components without effective mass *)

Section Frozen.
Context {T : Type} `{Scalar T}.
Variable pdf : GaussianDistribution T -> vec T -> T.

Lemma nth_map_accu (A : mat T) (i : nat) :
  nth i (map accu A) zero = accu (nth i A []).
Proof.
  revert i. induction A as [| c A IH]; intros [| i]; simpl; auto.
Qed.

Lemma update_dist_frozen policy observations c s d :
  fneb s zero = false -> update_dist policy observations c s d = d.
Proof.
  intros Hs. unfold update_dist. rewrite Hs. destruct d; reflexivity.
Qed.

(** The part of C1 that holds: in a pass of the unweighted overload a
    component whose effective mass compares equal to 0 keeps its mean and
    its covariance. *)
Lemma EMPass_frozen policy observations m k d :
  dists m !! k = Some d ->
  fneb (EffectiveMass pdf observations m k) zero = false ->
  dists (EMPass pdf policy observations m) !! k = Some d.
Proof.
  intros Hk Hmass. unfold EMPass. cbn [dists].
  rewrite list_lookup_imap, Hk. cbn [fmap option_fmap option_map].
  rewrite nth_map_accu. f_equal.
  apply update_dist_frozen. exact Hmass.
Qed.

(** The weighted overload has no such test: the new mean is a quotient by
    the effective mass, whatever the mass is. *)
Lemma EMPass_weighted_mean policy observations probabilities m k d :
  dists m !! k = Some d ->
  Mean <$> dists (EMPass_weighted pdf policy observations probabilities m) !! k
  = Some (vdivs (mat_vec observations
                   (schur (nth k (NormalizeRows (length observations)
                                    (EStep pdf observations m)) [])
                          probabilities))
                (EffectiveMass_weighted pdf observations probabilities m k)).
Proof.
  intros Hk. unfold EMPass_weighted. cbn [dists].
  rewrite list_lookup_imap, Hk. reflexivity.
Qed.

End Frozen.

Lemma zero_weight_column (pdf : GaussianDistribution Qc -> vec Qc -> Qc) :
  nth 0 (NormalizeRows 1 (EStep pdf one_point (zero_weight_model (Qc_of_Z 5)))) []
  = [0%Qc].
Proof.
  unfold NormalizeRows, EStep, normalize_row.
  cbn -[Qcplus Qcmult Qcdiv Qc_eq_bool Qc_of_Z].
  rewrite Qcmult_0_r, Qcmult_1_r, !Qcplus_0_l.
  destruct (fneb _ _); cbn -[Qcplus Qcmult Qcdiv Qc_eq_bool Qc_of_Z];
    [| reflexivity].
  unfold Qcdiv. rewrite Qcmult_0_l. reflexivity.
Qed.

(** C1, at the failing input: one point, two components, the first with
    mixing weight 0.  Whatever the densities, the first component has
    effective mass 0 in both overloads; the unweighted pass keeps it; the
    weighted pass stores as its mean the quotient 0/0, which is not the mean
    it had. *)
Theorem EMPass_weighted_overwrites_zero_mass
    (pdf : GaussianDistribution Qc -> vec Qc -> Qc) :
  let m := zero_weight_model (Qc_of_Z 5) in
  let d0 := gaussian1 (Qc_of_Z 5) 1%Qc in
  dists m !! 0 = Some d0
  /\ EffectiveMass pdf one_point m 0 = 0%Qc
  /\ EffectiveMass_weighted pdf one_point [1%Qc] m 0 = 0%Qc
  /\ dists (EMPass pdf identity_policy one_point m) !! 0 = Some d0
  /\ Mean <$> dists (EMPass_weighted pdf identity_policy one_point [1%Qc] m) !! 0
     = Some [(0 / 0)%Qc]
  /\ dists (EMPass_weighted pdf identity_policy one_point [1%Qc] m) !! 0
     <> Some d0.
Proof.
  intros m d0.
  assert (Hm : EffectiveMass pdf one_point m 0 = 0%Qc).
  { unfold EffectiveMass. subst m. rewrite zero_weight_column. reflexivity. }
  assert (Hw : EffectiveMass_weighted pdf one_point [1%Qc] m 0 = 0%Qc).
  { unfold EffectiveMass_weighted. subst m. rewrite zero_weight_column.
    apply Qc_is_canon. reflexivity. }
  assert (Hmean :
    Mean <$> dists (EMPass_weighted pdf identity_policy one_point [1%Qc] m) !! 0
    = Some [(0 / 0)%Qc]).
  { rewrite (EMPass_weighted_mean pdf identity_policy one_point [1%Qc] m 0 d0)
      by reflexivity.
    rewrite Hw. subst m. cbn [length one_point]. rewrite zero_weight_column.
    reflexivity. }
  split; [reflexivity |]. split; [exact Hm |]. split; [exact Hw |].
  split; [| split; [exact Hmean |]].
  - apply EMPass_frozen; [reflexivity |].
    rewrite Hm. reflexivity.
  - intros E. rewrite E in Hmean. discriminate Hmean.
Qed.

(** In binary64 that quotient is a NaN, and so is the covariance computed
    from it; the body of the unweighted loop leaves the component alone. *)
Example zero_mass_binary64 :
  let d := gaussian1 5%float 1%float in
  update_dist_weighted identity_policy [[1%float]] [1%float] [0%float] d
  = gaussian1 PrimFloat.nan PrimFloat.nan
  /\ update_dist identity_policy [[1%float]] [0%float] 0%float d = d.
Proof. split; vm_compute; reflexivity. Qed.

(** ** C2: the mixing weights after an M-step *)

Section MixingWeights.
Context {T : Type} `{ScalarLaws T}.
Variable pdf : GaussianDistribution T -> vec T -> T.

Add Ring scalar_ring_weights : sl_ring.

Lemma nonneg_zero : nonneg (zero : T).
Proof. left. reflexivity. Qed.

Lemma nonneg_nth (v : vec T) (i : nat) : Forall nonneg v -> nonneg (nth i v zero).
Proof.
  intros Hv. rewrite nth_lookup. destruct (v !! i) as [x |] eqn:E; simpl.
  - rewrite Forall_forall in Hv. apply Hv.
    apply list_elem_of_In, list_elem_of_lookup. exists i. exact E.
  - apply nonneg_zero.
Qed.

Lemma nonneg_ne_positive (x : T) : nonneg x -> x <> zero -> positive x.
Proof. intros [-> | Hx] Hne; [contradiction | exact Hx]. Qed.

Lemma nonneg_vdivs (v : vec T) (s : T) :
  Forall nonneg v -> positive s -> Forall nonneg (vdivs v s).
Proof.
  intros Hv Hs. unfold vdivs. rewrite Forall_forall in *.
  intros y Hy. apply in_map_iff in Hy. destruct Hy as (x & <- & Hx).
  apply nonneg_div; [apply Hv; exact Hx | exact Hs].
Qed.

Lemma nonneg_schur (u v : vec T) :
  Forall nonneg u -> Forall nonneg v -> Forall nonneg (schur u v).
Proof.
  intros Hu. revert v. induction Hu as [| x u Hx Hu IH]; intros v Hv.
  - constructor.
  - destruct Hv as [| y v Hy Hv]; [constructor |].
    unfold schur in *. simpl. constructor; [apply nonneg_mul; assumption |].
    apply IH. exact Hv.
Qed.

Lemma nonneg_normalized_row (v : vec T) :
  Forall nonneg v -> Forall nonneg (normalized_row v).
Proof.
  intros Hv. unfold normalized_row.
  destruct (fneb (accu v) zero) eqn:E; [| exact Hv].
  apply nonneg_vdivs; [exact Hv |].
  apply nonneg_ne_positive; [apply nonneg_accu; exact Hv |].
  apply fneb_true. exact E.
Qed.

Lemma nonneg_row (C : mat T) (r : nat) :
  Forall (Forall nonneg) C -> Forall nonneg (row r C).
Proof.
  intros HC. unfold row. rewrite Forall_forall in *.
  intros y Hy. apply in_map_iff in Hy. destruct Hy as (c & <- & Hc).
  apply nonneg_nth. apply HC. exact Hc.
Qed.

(** Entries seen by rows, entries seen by columns. *)
Lemma nonneg_columns (n : nat) (C : mat T) :
  well_formed n C ->
  (forall r, r < n -> Forall nonneg (row r C)) ->
  Forall (Forall nonneg) C.
Proof.
  intros Hwf Hrows. apply Forall_forall. intros c Hc.
  apply list_elem_of_In, list_elem_of_lookup in Hc. destruct Hc as [k Hk].
  apply (Forall_lookup_2 nonneg). intros r x Hx.
  assert (Hr : r < n).
  { unfold well_formed in Hwf.
    rewrite <- (Forall_lookup_1 _ _ _ _ Hwf Hk).
    apply lookup_lt_is_Some. eauto. }
  pose proof (nonneg_nth _ k (Hrows r Hr)) as Hn.
  rewrite nth_row in Hn.
  rewrite (nth_lookup_Some C k [] c Hk), (nth_lookup_Some c r zero x Hx) in Hn.
  exact Hn.
Qed.

Lemma nonneg_EStep (observations : mat T) (m : Mixture T) :
  (forall d x, nonneg (pdf d x)) -> Forall nonneg (weights m) ->
  Forall (Forall nonneg) (EStep pdf observations m).
Proof.
  intros Hpdf Hw. unfold EStep. apply Forall_forall. intros c Hc.
  apply list_elem_of_In, elem_of_lookup_imap in Hc.
  destruct Hc as (i & d & -> & _).
  unfold vscale, Probability. rewrite map_map. apply Forall_forall.
  intros y Hy. apply in_map_iff in Hy. destruct Hy as (x & <- & _).
  apply nonneg_mul; [apply Hpdf | apply nonneg_nth; exact Hw].
Qed.

Lemma nonneg_condProb (observations : mat T) (m : Mixture T) :
  (forall d x, nonneg (pdf d x)) -> Forall nonneg (weights m) ->
  Forall (Forall nonneg)
    (NormalizeRows (length observations) (EStep pdf observations m)).
Proof.
  intros Hpdf Hw.
  apply (nonneg_columns (length observations)).
  - apply well_formed_NormalizeRows, well_formed_EStep.
  - intros r Hr. rewrite NormalizeRows_row by (auto using well_formed_EStep).
    apply nonneg_normalized_row, nonneg_row, nonneg_EStep; assumption.
Qed.

(** Where the rows of the E-step have nonzero sums, the rows of the
    normalised matrix sum to 1. *)
Lemma unit_rows_condProb (observations : mat T) (m : Mixture T) :
  (forall r, r < length observations ->
             accu (row r (EStep pdf observations m)) <> zero) ->
  forall r, r < length observations ->
    accu (row r (NormalizeRows (length observations) (EStep pdf observations m)))
    = one.
Proof.
  intros Hrows r Hr.
  rewrite NormalizeRows_row by (auto using well_formed_EStep).
  unfold normalized_row.
  rewrite (proj2 (fneb_true _ zero) (Hrows r Hr)).
  rewrite accu_vdivs by auto. apply div_self. auto.
Qed.

Lemma imap_nth_columns {A : Type} (f : vec T -> T) (C : mat T) (l : list A) :
  length l = length C ->
  imap (fun i (_ : A) => f (nth i C [])) l = map f C.
Proof.
  revert C. induction l as [| a l IH]; intros [| c C] Hl; simpl in Hl;
    try reflexivity; try lia.
  rewrite imap_cons. simpl. f_equal. apply IH. lia.
Qed.

End MixingWeights.

(** C2 (as amended).  After the M-step of a pass of either overload over
    at least one point, from nonnegative mixing weights and nonnegative
    densities (and, in the weighted overload, one nonnegative point weight
    per point, not all zero), every mixing weight is nonnegative; and the
    mixing weights sum to 1 if every row of [condProb] had a nonzero sum
    when it was normalised. *)
Theorem EMPass_mixing_weights {T : Type} `{ScalarLaws T}
    (pdf : GaussianDistribution T -> vec T -> T)
    (policy : CovarianceConstraintPolicy T)
    (observations : mat T) (probabilities : vec T) (m : Mixture T) :
  observations <> [] ->
  (forall d x, nonneg (pdf d x)) ->
  Forall nonneg (weights m) ->
  length probabilities = length observations ->
  Forall nonneg probabilities ->
  accu probabilities <> zero ->
  let w := weights (EMPass pdf policy observations m) in
  let ww :=
    weights (EMPass_weighted pdf policy observations probabilities m) in
  Forall nonneg w
  /\ Forall nonneg ww
  /\ ((forall r, r < length observations ->
                 accu (row r (EStep pdf observations m)) <> zero) ->
      accu w = one /\ accu ww = one).
Proof.
  intros Hobs Hpdf Hw Hlen Hp Hsum w ww.
  set (n := length observations) in *.
  set (C := NormalizeRows n (EStep pdf observations m)).
  assert (Hwf : well_formed n C)
    by apply well_formed_NormalizeRows, well_formed_EStep.
  assert (HlenC : length (dists m) = length C).
  { unfold C. rewrite length_NormalizeRows by apply well_formed_EStep.
    symmetry. apply length_EStep. }
  assert (Hnn : Forall (Forall nonneg) C) by (apply nonneg_condProb; assumption).
  assert (Hn : positive (of_nat n)).
  { subst n. destruct observations as [| x xs]; [contradiction |].
    apply of_nat_positive. }
  assert (HP : positive (accu probabilities)).
  { apply nonneg_ne_positive; [apply nonneg_accu; exact Hp | exact Hsum]. }
  assert (Ew : w = vdivs (map accu C) (of_nat n)) by reflexivity.
  assert (Eww : ww = vdivs (map (fun c => accu (schur c probabilities)) C)
                           (accu probabilities)).
  { subst ww. unfold EMPass_weighted. cbn [weights]. fold n. fold C.
    rewrite (imap_nth_columns (fun c => accu (schur c probabilities)) C)
      by exact HlenC.
    reflexivity. }
  split; [| split].
  - rewrite Ew. apply nonneg_vdivs; [| exact Hn].
    apply Forall_forall. intros y Hy. apply in_map_iff in Hy.
    destruct Hy as (c & <- & Hc). apply nonneg_accu.
    rewrite Forall_forall in Hnn. apply Hnn. exact Hc.
  - rewrite Eww. apply nonneg_vdivs; [| exact HP].
    apply Forall_forall. intros y Hy. apply in_map_iff in Hy.
    destruct Hy as (c & <- & Hc). apply nonneg_accu, nonneg_schur; [| exact Hp].
    rewrite Forall_forall in Hnn. apply Hnn. exact Hc.
  - intros Hrows.
    pose proof (unit_rows_condProb pdf observations m Hrows) as Hunit.
    fold n in Hunit. fold C in Hunit.
    split.
    + rewrite Ew, accu_vdivs by (apply positive_ne; exact Hn).
      rewrite (accu_columns_of_unit_rows n C Hwf Hunit).
      apply div_self, positive_ne. exact Hn.
    + rewrite Eww, accu_vdivs by exact Hsum.
      rewrite (accu_weighted_columns_of_unit_rows n C probabilities Hwf Hlen Hunit).
      apply div_self. exact Hsum.
Qed.

Lemma box_density_nonneg (d : GaussianDistribution Qc) (x : vec Qc) :
  nonneg (box_density d x).
Proof.
  unfold box_density.
  destruct (Mean d) as [| mu [| ? ?]]; try (left; reflexivity).
  destruct x as [| x0 [| ? ?]]; try (left; reflexivity).
  destruct (Qc_gtb _ _); [left | right]; reflexivity.
Qed.

(** Witness of C2: three points, two components of weight 1/2. *)
Lemma EMPass_mixing_weights_witness :
  Forall nonneg
    (weights (EMPass box_density identity_policy three_points two_gaussians)).
Proof.
  refine (proj1 (EMPass_mixing_weights box_density identity_policy
                   three_points (ones 3) two_gaussians _ _ _ _ _ _)).
  - discriminate.
  - exact box_density_nonneg.
  - repeat constructor; right; reflexivity.
  - reflexivity.
  - repeat constructor; right; reflexivity.
  - intros E. apply (f_equal this) in E. vm_compute in E. discriminate.
Defined.

(** C2, counterexample.  From a model whose only mixing weight is 0 the
    M-step of either overload gives, whatever the densities, mixing
    weights that sum to 0.  And from two components of weight 1/2, with a
    second point at which both densities are 0, the row of that point is
    left all zero and the new mixing weights sum to 1/2. *)
Lemma mixing_weights_need_not_sum_to_one :
  (forall pdf policy,
      accu (weights (EMPass pdf policy one_point weightless_model)) = 0%Qc
      /\ accu (weights (EMPass_weighted pdf policy one_point [1%Qc]
                          weightless_model)) = 0%Qc)
  /\ accu (weights (EMPass box_density identity_policy outlier_points
                      two_gaussians)) = (1 / Qc_of_Z 2)%Qc
  /\ accu (weights (EMPass box_density identity_policy outlier_points
                      two_gaussians)) <> 1%Qc.
Proof.
  split.
  - intros pdf policy.
    unfold EMPass, EMPass_weighted, NormalizeRows, EStep, normalize_row.
    cbn -[Qcplus Qcmult Qcdiv Qc_eq_bool Qc_of_Z].
    rewrite Qcmult_0_r, !Qcplus_0_l.
    change (fneb (Q2Qc 0) (Q2Qc 0)) with false.
    cbn -[Qcplus Qcmult Qcdiv Qc_eq_bool Qc_of_Z].
    split; apply Qc_is_canon; reflexivity.
  - assert (E : accu (weights (EMPass box_density identity_policy
                                 outlier_points two_gaussians))
                = (1 / Qc_of_Z 2)%Qc)
      by (apply Qc_is_canon; vm_compute; reflexivity).
    split; [exact E |]. rewrite E. intros E1.
    apply (f_equal this) in E1. vm_compute in E1. discriminate.
Qed.

(** ** C3: the normalisation never divides by zero *)




(** ** C4: the number of passes *)

(** C4 (as amended).  In both overloads the loop is [EMLoop], with the pass
    of the overload.  The counter is 1 on entry; the loop stops, after the
    passes counted; for [1 <= maxIterations < 2^64] these are at most
    [maxIterations - 1], none for [maxIterations = 1]; for
    [maxIterations = 0] they are at most [2^64 - 1], and as long as the
    counter has not wrapped around the guard is the convergence test
    alone. *)
Theorem Estimate_loop_passes {T : Type} `{Scalar T}
    (pdf : GaussianDistribution T -> vec T -> T) (flog : T -> T)
    (cfg : EMFit T) (pass : Mixture T -> Mixture T)
    (observations : mat T) (m : Mixture T) :
  let r := EMLoop pdf flog cfg pass observations m in
  ls_iteration (loop_entry pdf flog observations m) = 1%Z
  /\ while_runs (loop_guard cfg) (loop_body pdf flog pass observations)
       (loop_entry pdf flog observations m) (fst r) (snd r)
  /\ ((1 <= maxIterations cfg < SIZE_MODULUS)%Z ->
      (Z.of_nat (fst r) <= maxIterations cfg - 1)%Z)
  /\ (maxIterations cfg = 1%Z -> fst r = 0)
  /\ (maxIterations cfg = 0%Z ->
      (Z.of_nat (fst r) <= SIZE_MODULUS - 1)%Z
      /\ forall st, (1 <= ls_iteration st < SIZE_MODULUS)%Z ->
                    loop_guard cfg st = not_converged cfg st).
Proof.
  intros r.
  assert (Hle : fst r <= loop_fuel cfg) by apply while_loop_le.
  unfold loop_fuel in Hle.
  split; [reflexivity |]. split.
  { apply while_loop_runs. apply EMLoop_exits. }
  split; [| split].
  - intros Hr. rewrite Z.mod_small in Hle by lia. lia.
  - intros H1. rewrite H1 in Hle. change ((1 - 1) mod SIZE_MODULUS)%Z with 0%Z in Hle.
    simpl in Hle. lia.
  - intros H0. split.
    + rewrite H0 in Hle.
      change ((0 - 1) mod SIZE_MODULUS)%Z with (SIZE_MODULUS - 1)%Z in Hle.
      pose proof SIZE_MODULUS_pos. lia.
    + intros st Hst. apply loop_guard_maxIterations_0; assumption.
Qed.

Lemma Qc_abs_nonneg (x : Qc) : (0 <= Qc_abs x)%Qc.
Proof.
  unfold Qc_abs. destruct (Qclt_le_dec x 0) as [Hlt | Hle]; [| exact Hle].
  apply Qclt_le_weak in Hlt. apply Qcopp_le_compat in Hlt. exact Hlt.
Qed.

Lemma cfg_unbounded_not_converged (st : @LoopState Qc) :
  not_converged cfg_unbounded st = true.
Proof.
  unfold not_converged. cbn [fgtb fabs Qc_Scalar tolerance cfg_unbounded].
  apply Qc_gtb_lt. eapply Qclt_le_trans; [| apply Qc_abs_nonneg]. reflexivity.
Qed.

Lemma loop_fuel_unbounded :
  loop_fuel cfg_unbounded = Z.to_nat (SIZE_MODULUS - 1).
Proof. unfold loop_fuel. f_equal. Qed.

Lemma EMLoop_unbounded_passes pdf flog pass observations m :
  fst (EMLoop pdf flog cfg_unbounded pass observations m)
  = Z.to_nat (SIZE_MODULUS - 1).
Proof.
  unfold EMLoop. rewrite loop_fuel_unbounded.
  apply while_loop_not_converged.
  - apply cfg_unbounded_not_converged.
  - simpl. split; [lia | reflexivity].
  - intros k Hk. simpl ls_iteration.
    rewrite Z2Nat.id in Hk by (pose proof SIZE_MODULUS_pos; lia).
    rewrite to_size_t_small by lia.
    change (to_size_t (maxIterations cfg_unbounded)) with 0%Z. lia.
Qed.

(** C4, counterexample.  With [maxIterations = 0] and a tolerance of -1
    the convergence test never fails, and still the loop stops: after
    [2^64 - 1] passes the counter has wrapped around to 0, which is
    [maxIterations].  This holds for the pass of either overload. *)
Lemma EMLoop_stops_at_wraparound :
  exists (cfg : EMFit Qc) (observations : mat Qc) (m : Mixture Qc),
    maxIterations cfg = 0%Z
    /\ forall pdf flog pass,
        let r := EMLoop pdf flog cfg pass observations m in
        fst r = Z.to_nat (SIZE_MODULUS - 1)
        /\ ls_iteration (snd r) = 0%Z
        /\ not_converged cfg (snd r) = true
        /\ loop_guard cfg (snd r) = false.
Proof.
  exists cfg_unbounded, [[1%Qc]],
    {| dists := [gaussian1 0%Qc 1%Qc]; weights := [1%Qc] |}.
  split; [reflexivity |]. intros pdf flog pass.
  pose proof (EMLoop_unbounded_passes pdf flog pass [[1%Qc]]
                {| dists := [gaussian1 0%Qc 1%Qc]; weights := [1%Qc] |}) as Hn.
  pose proof (EMLoop_exits pdf flog cfg_unbounded pass [[1%Qc]]
                {| dists := [gaussian1 0%Qc 1%Qc]; weights := [1%Qc] |}) as Hg.
  generalize dependent
    (EMLoop pdf flog cfg_unbounded pass [[1%Qc]]
       {| dists := [gaussian1 0%Qc 1%Qc]; weights := [1%Qc] |}).
  intros r Hn Hg. cbv zeta.
  assert (Hc : not_converged cfg_unbounded (snd r) = true)
    by apply cfg_unbounded_not_converged.
  split; [exact Hn |]. split; [| split; assumption].
  unfold loop_guard in Hg. rewrite Hc, andb_true_l in Hg.
  change (to_size_t (maxIterations cfg_unbounded)) with 0%Z in Hg.
  apply negb_false_iff, Z.eqb_eq in Hg. exact Hg.
Qed.

(** ** C5: the covariance after [InitialClustering] *)

(** C5, at the failing input: the points 1 and 3 in one cluster, in
    binary64.  The mean is 2 and the centred outer products average to 1,
    but the covariance stored is 6: the second loop adds the centred
    products (1 + 1) to the sum of the uncentred ones (1 + 9) that the first
    loop left in [covs]. *)
Theorem InitialClustering_keeps_uncentred_sum :
  let cfg := cfg_generic 3 in
  let assignments := Cluster (clusterer cfg) two_points_binary64 1 in
  assignments = [0; 0]
  /\ dists (InitialClustering cfg two_points_binary64 unseeded_binary64)
     = [gaussian1 2%float 6%float]
  /\ centred_covariance (constraint cfg) 1
       (assigned_points two_points_binary64 assignments 0)
     = [[1%float]].
Proof.
  intros cfg assignments.
  split; [reflexivity |].
  split; vm_compute; reflexivity.
Qed.

(** ** C6: all point weights equal to 1 *)

(** What [arma::diagmat] leaves off the diagonal. *)
Section DiagonalResult.
Context {T : Type} `{Scalar T}.

Lemma nth_replicate_zero (n r : nat) : nth r (replicate n (zero : T)) zero = zero.
Proof.
  revert r. induction n as [| n IH]; intros [| r]; simpl; auto.
Qed.

(** Off the diagonal, [diagmat] is 0. *)
Lemma diagmat_off_diagonal (v : vec T) (r j : nat) :
  r <> j -> nth r (nth j (diagmat v) []) zero = zero.
Proof.
  intros Hrj. unfold diagmat. rewrite (nth_lookup _ j), list_lookup_imap.
  destruct (v !! j) as [x |]; simpl.
  - rewrite nth_insert_other by exact Hrj. apply nth_replicate_zero.
  - destruct r; reflexivity.
Qed.

End DiagonalResult.

Section UnitWeights.
Context {T : Type} `{Scalar T}.
Variable pdf : GaussianDistribution T -> vec T -> T.
Variable flog : T -> T.

(** The one law that the comparison of the two overloads needs.  It holds
    in exact arithmetic and in binary64 ([binary64_mul_one]). *)
Hypothesis mul_one : forall x : T, mul x one = x.

Lemma schur_ones (c : vec T) : schur c (ones (length c)) = c.
Proof.
  unfold schur, ones. induction c as [| x c IH]; simpl; [reflexivity |].
  f_equal; [apply mul_one | exact IH].
Qed.

(** [accu] of [n] ones is what the conversion of [n] computes: both add 1
    to 0, [n] times. *)
Lemma accu_ones_count (n : nat) : accu (ones n : vec T) = of_nat n.
Proof.
  unfold accu, ones. induction n as [| n IH]; [reflexivity |].
  rewrite replicate_S_end, fold_left_app, IH. reflexivity.
Qed.

Lemma masses_nonzero_lookup (observations : mat T) (m : Mixture T) (k : nat) :
  masses_nonzero pdf observations m = true ->
  k < length (dists m) ->
  fneb (EffectiveMass pdf observations m k) zero = true.
Proof.
  unfold masses_nonzero. rewrite forallb_forall. intros Hall Hk.
  apply Hall. apply in_seq. lia.
Qed.

(** A pass of the weighted overload with point weights 1 is the pass of
    the unweighted overload, if no component is without effective mass. *)
Lemma EMPass_weighted_ones policy (observations : mat T) (m : Mixture T) :
  masses_nonzero pdf observations m = true ->
  EMPass_weighted pdf policy observations (ones (length observations)) m
  = EMPass pdf policy observations m.
Proof.
  intros Hmass. unfold EMPass_weighted, EMPass.
  set (n := length observations).
  set (C := NormalizeRows n (EStep pdf observations m)).
  assert (Hwf : well_formed n C)
    by apply well_formed_NormalizeRows, well_formed_EStep.
  assert (HlenC : length (dists m) = length C).
  { unfold C. rewrite length_NormalizeRows by apply well_formed_EStep.
    symmetry. apply length_EStep. }
  assert (Hcol : forall k, k < length (dists m) ->
                           schur (nth k C []) (ones n) = nth k C []).
  { intros k Hk. rewrite HlenC in Hk.
    destruct (lookup_lt_is_Some_2 _ _ Hk) as [c Hc].
    rewrite (nth_lookup_Some _ _ [] c Hc).
    rewrite <- (Forall_lookup_1 _ _ _ _ Hwf Hc). apply schur_ones. }
  f_equal.
  - apply imap_ext. intros k d Hd.
    assert (Hk : k < length (dists m)) by (apply lookup_lt_is_Some; eauto).
    pose proof (masses_nonzero_lookup observations m k Hmass Hk) as Hne.
    unfold EffectiveMass in Hne. fold n in Hne. fold C in Hne.
    unfold update_dist_weighted, update_dist.
    rewrite (Hcol k Hk), nth_map_accu, Hne. reflexivity.
  - rewrite accu_ones_count. f_equal.
    rewrite <- (imap_nth_columns accu C (dists m) HlenC).
    apply imap_ext. intros k d Hd.
    rewrite Hcol by (apply lookup_lt_is_Some; eauto). reflexivity.
Qed.

Lemma while_loop_weighted_ones cfg policy (observations : mat T)
    (fuel : nat) (st : LoopState) :
  masses_nonzero_along pdf (loop_guard cfg)
    (loop_body pdf flog (EMPass pdf policy observations) observations)
    observations fuel st = true ->
  while_loop (loop_guard cfg)
    (loop_body pdf flog
       (EMPass_weighted pdf policy observations (ones (length observations)))
       observations) fuel st
  = while_loop (loop_guard cfg)
      (loop_body pdf flog (EMPass pdf policy observations) observations)
      fuel st.
Proof.
  revert st. induction fuel as [| fuel IH]; intros st Hrun; [reflexivity |].
  cbn [while_loop masses_nonzero_along] in *.
  destruct (loop_guard cfg st); [| reflexivity].
  apply andb_true_iff in Hrun. destruct Hrun as [Hmass Hrun].
  assert (E : loop_body pdf flog
                (EMPass_weighted pdf policy observations
                   (ones (length observations))) observations st
              = loop_body pdf flog (EMPass pdf policy observations)
                  observations st).
  { unfold loop_body. rewrite (EMPass_weighted_ones policy _ _ Hmass).
    reflexivity. }
  rewrite E, (IH _ Hrun). reflexivity.
Qed.

End UnitWeights.

(** In binary64 a product by 1 is the other factor, exactly: the product
    of the mantissa by [2^52] at the exponent less 52 is rounded to the
    mantissa at the exponent. *)
Section Binary64MulOne.
#[local] Open Scope Z_scope.

Lemma mul_pow52 (m : BinNums.positive) :
  (m * 4503599627370496)%positive = Pos.iter xO m 52.
Proof. rewrite Pos.mul_comm. reflexivity. Qed.

Lemma digits2_pos_pow52 (m : BinNums.positive) :
  Z.pos (digits2_pos (Pos.iter xO m 52)) = Z.pos (digits2_pos m) + 52.
Proof.
  cbn [Pos.iter digits2_pos]. rewrite !Pos2Z.inj_succ. lia.
Qed.

Lemma shr_pow52 (m : BinNums.positive) (e : Z) :
  shr {| shr_m := Z.pos (Pos.iter xO m 52); shr_r := false; shr_s := false |}
      e 52
  = ({| shr_m := Z.pos m; shr_r := false; shr_s := false |}, e + 52).
Proof. reflexivity. Qed.

Lemma shr_fexp_canonical (m : BinNums.positive) (e : Z) :
  canonical_mantissa prec emax m e = true ->
  shr_fexp prec emax (Z.pos m) e loc_Exact
  = ({| shr_m := Z.pos m; shr_r := false; shr_s := false |}, e).
Proof.
  unfold canonical_mantissa, shr_fexp. intros Hc. apply Z.eqb_eq in Hc.
  cbn [Zdigits2]. rewrite Hc, Z.sub_diag. reflexivity.
Qed.

Lemma shr_fexp_pow52 (m : BinNums.positive) (e : Z) :
  canonical_mantissa prec emax m e = true ->
  shr_fexp prec emax (Z.pos (Pos.iter xO m 52)) (e + -52) loc_Exact
  = ({| shr_m := Z.pos m; shr_r := false; shr_s := false |}, e).
Proof.
  unfold canonical_mantissa, shr_fexp. intros Hc. apply Z.eqb_eq in Hc.
  unfold Zdigits2. rewrite digits2_pos_pow52.
  replace (Z.pos (digits2_pos m) + 52 + (e + -52))
    with (Z.pos (digits2_pos m) + e) by lia.
  rewrite Hc.
  replace (e - (e + -52)) with 52 by lia.
  cbn [shr_record_of_loc]. rewrite shr_pow52. f_equal. lia.
Qed.

Lemma SF64mul_one (s : spec_float) :
  FloatAxioms.valid_binary s = true ->
  SF64mul s (S754_finite false 4503599627370496 (-52)) = s.
Proof.
  intros Hv.
  destruct s as [sg | sg | | sg mx ex]; cbn [SF64mul SFmul].
  - rewrite xorb_false_r. reflexivity.
  - rewrite xorb_false_r. reflexivity.
  - reflexivity.
  - rewrite xorb_false_r.
    cbn [SpecFloat.valid_binary] in Hv. unfold bounded in Hv.
    apply andb_true_iff in Hv. destruct Hv as [Hc He].
    unfold binary_round_aux. rewrite mul_pow52.
    rewrite (shr_fexp_pow52 mx ex Hc).
    cbn [shr_m loc_of_shr_record round_nearest_even].
    rewrite (shr_fexp_canonical mx ex Hc). cbn [shr_m].
    rewrite He. reflexivity.
Qed.

Lemma binary64_mul_one (x : float) : mul x one = x.
Proof.
  cbn [mul one float_Scalar].
  apply FloatAxioms.Prim2SF_inj. rewrite FloatAxioms.mul_spec.
  replace (Prim2SF 1%float) with (S754_finite false 4503599627370496 (-52))
    by (vm_compute; reflexivity).
  apply SF64mul_one. apply FloatAxioms.Prim2SF_valid.
Qed.

End Binary64MulOne.

(** C6 (as amended).  On the generic path ([_WIN32] defined, or a policy
    that is not [DiagonalConstraint]), if in every pass that the unweighted
    loop executes every component has a nonzero effective mass, the weighted
    overload with every point weight equal to 1 returns the very model that
    the unweighted overload returns, in every arithmetic in which a product
    by 1 is the other factor: in exact arithmetic and in binary64. *)
Theorem Estimate_weighted_ones {T : Type} `{Scalar T}
    (pdf : GaussianDistribution T -> vec T -> T) (flog : T -> T)
    (gmm_learn : learn_args T -> gmm_diag T -> gmm_diag T)
    (WIN32 : bool) (default_tolerance : T) (cfg : EMFit T)
    (observations : mat T) (m : Mixture T) (useInitialModel : bool) :
  (forall x : T, mul x one = x) ->
  WIN32 = true \/ is_DiagonalConstraint (constraint cfg) = false ->
  masses_nonzero_along pdf (loop_guard cfg)
    (loop_body pdf flog (EMPass pdf (constraint cfg) observations) observations)
    observations (loop_fuel cfg)
    (loop_entry pdf flog observations
       (if negb useInitialModel
        then InitialClustering cfg observations m else m)) = true ->
  Estimate_weighted pdf flog cfg observations (ones (length observations)) m
    useInitialModel
  = Estimate pdf flog gmm_learn WIN32 default_tolerance cfg observations m
      useInitialModel.
Proof.
  intros Hone Hpath Hrun. unfold Estimate, Estimate_weighted.
  assert (Hgen : negb WIN32 && is_DiagonalConstraint (constraint cfg) = false).
  { destruct Hpath as [-> | ->]; [reflexivity | apply andb_false_r]. }
  rewrite Hgen. unfold EMLoop.
  rewrite (while_loop_weighted_ones pdf flog Hone cfg (constraint cfg)
             observations _ _ Hrun).
  reflexivity.
Qed.

(** Witness of C6, in binary64: two passes at most over two points and two
    components. *)
Lemma Estimate_weighted_ones_witness :
  Estimate_weighted constant_density shifted_log (cfg_generic 3)
    two_points_binary64 (ones 2) two_gaussians_binary64 true
  = Estimate constant_density shifted_log learn_nothing false lit_1e_10
      (cfg_generic 3) two_points_binary64 two_gaussians_binary64 true.
Proof.
  apply (Estimate_weighted_ones constant_density shifted_log learn_nothing
           false lit_1e_10 (cfg_generic 3) two_points_binary64
           two_gaussians_binary64 true).
  - exact binary64_mul_one.
  - right. reflexivity.
  - vm_compute. reflexivity.
Defined.

(** C6, counterexample.  Where [_WIN32] is not defined and the policy is
    [DiagonalConstraint], the unweighted overload hands the fit to the
    learner and reads every covariance back as a diagonal matrix, and the
    weighted overload runs the loop.  In binary64, with
    [maxIterations = 1], two points in the plane and a model whose
    covariance has the entry 1 off the diagonal: the weighted overload,
    every point weight 1, executes no pass and returns the model as it is,
    the entry 1 with it; the unweighted overload returns the entry 0
    there.  This holds whatever the policy, the density, the logarithm and
    the learner compute. *)
Lemma Estimate_weighted_ones_through_learner :
  exists (observations : mat float) (m : Mixture float),
    forall (apply : mat float -> mat float) pdf flog gmm_learn
           default_tolerance,
      let cfg :=
        {| maxIterations := 1; tolerance := lit_1e_10;
           clusterer := one_cluster;
           constraint := {| ApplyConstraint := apply;
                            is_DiagonalConstraint := true |} |} in
      let weighted :=
        Estimate_weighted pdf flog cfg observations
          (ones (length observations)) m true in
      let unweighted :=
        Estimate pdf flog gmm_learn false default_tolerance cfg observations
          m true in
      (exists d, dists weighted !! 0 = Some d
                 /\ nth 1 (nth 0 (Covariance d) []) zero = 1%float)
      /\ (exists d, dists unweighted !! 0 = Some d
                    /\ nth 1 (nth 0 (Covariance d) []) zero = 0%float)
      /\ weighted <> unweighted.
Proof.
  exists plane_points_binary64, correlated_binary64.
  intros apply pdf flog gmm_learn default_tolerance cfg weighted unweighted.
  assert (Hw : weighted = correlated_binary64) by reflexivity.
  assert (Hu : exists d, dists unweighted !! 0 = Some d
                         /\ nth 1 (nth 0 (Covariance d) []) zero = 0%float).
  { eexists. split; [reflexivity |]. cbn [Covariance].
    refine (diagmat_off_diagonal _ 1 0 _). discriminate. }
  split; [| split; [exact Hu |]].
  - rewrite Hw. eexists. split; reflexivity.
  - intros E. destruct Hu as (d & Hd & H0).
    rewrite <- E, Hw in Hd. injection Hd as <-.
    apply (f_equal (fun x => PrimFloat.eqb x 1%float)) in H0.
    vm_compute in H0. discriminate H0.
Qed.

(** The proviso on the effective masses.  Without it the two overloads
    differ by the defect of C1, the test [probRowSums[i] != 0] that the
    weighted loop lacks.  One point, two components of which the first has
    mixing weight 0, every point weight 1, one pass ([maxIterations = 2]):
    the unweighted overload returns the first component as it was, the
    weighted overload returns it with the mean 0/0. *)
Lemma Estimate_weighted_ones_differs :
  let m := zero_weight_model (Qc_of_Z 5) in
  let unweighted :=
    Estimate box_density linear_log learn_nothing false lit_1e_10
      (cfg_generic 2) one_point m true in
  let weighted :=
    Estimate_weighted box_density linear_log (cfg_generic 2) one_point
      (ones 1) m true in
  dists unweighted !! 0 = Some (gaussian1 (Qc_of_Z 5) 1%Qc)
  /\ Mean <$> dists weighted !! 0 = Some [(0 / 0)%Qc]
  /\ weighted <> unweighted.
Proof.
  intros m unweighted weighted.
  assert (Hu : dists unweighted !! 0 = Some (gaussian1 (Qc_of_Z 5) 1%Qc))
    by (vm_compute; reflexivity).
  assert (Hw : Mean <$> dists weighted !! 0 = Some [(0 / 0)%Qc])
    by (vm_compute; reflexivity).
  split; [exact Hu |]. split; [exact Hw |].
  intros E. rewrite E, Hu in Hw. discriminate Hw.
Qed.

(** ** C7: the unweighted overload and the diagonal learner *)

(** C7 (as amended).  Where [_WIN32] is not defined and the policy is
    [DiagonalConstraint], the unweighted [Estimate] is
    [ArmadilloGMMWrapper]: its result is read from the object that one call
    of the learner leaves, a call that is given [maxIterations] and the
    constant [1e-10]; the result is the same for every [tolerance]. *)
Theorem Estimate_diagonal_delegates {T : Type} `{Scalar T}
    (pdf : GaussianDistribution T -> vec T -> T) (flog : T -> T)
    (gmm_learn : learn_args T -> gmm_diag T -> gmm_diag T)
    (default_tolerance : T) (cfg : EMFit T)
    (observations : mat T) (m : Mixture T) (useInitialModel : bool) :
  is_DiagonalConstraint (constraint cfg) = true ->
  let est := Estimate pdf flog gmm_learn false default_tolerance in
  est cfg observations m useInitialModel
  = snd (ArmadilloGMMWrapper gmm_learn default_tolerance cfg observations m
           useInitialModel)
  /\ (exists args g0,
        la_em_iter args = to_size_t (maxIterations cfg)
        /\ la_var_floor args = lit_1e_10
        /\ est cfg observations m useInitialModel
           = read_gmm (gmm_learn args g0) m)
  /\ (forall tol,
        est (with_tolerance tol cfg) observations m useInitialModel
        = est cfg observations m useInitialModel).
Proof.
  intros Hdiag est. subst est. unfold Estimate.
  cbn [with_tolerance constraint]. rewrite Hdiag. cbn [negb andb].
  split; [reflexivity |]. split; [| reflexivity].
  unfold ArmadilloGMMWrapper. cbn [snd].
  destruct (negb (is_KMeans (clusterer cfg)) || useInitialModel);
    eexists _, _; (split; [| split; [| reflexivity]]); reflexivity.
Qed.

(** Witness of C7, on rationals with a learner that returns at once. *)
Lemma Estimate_diagonal_delegates_witness :
  Estimate box_density linear_log learn_nothing false lit_1e_10
    (cfg_diagonal 5) one_point (zero_weight_model (Qc_of_Z 5)) true
  = snd (ArmadilloGMMWrapper learn_nothing lit_1e_10 (cfg_diagonal 5)
           one_point (zero_weight_model (Qc_of_Z 5)) true).
Proof.
  exact (proj1 (Estimate_diagonal_delegates box_density linear_log
                  learn_nothing lit_1e_10 (cfg_diagonal 5) one_point
                  (zero_weight_model (Qc_of_Z 5)) true eq_refl)).
Defined.

(** C7, counterexample.  Where [_WIN32] is defined, the policy
    [DiagonalConstraint] does not take [Estimate] to the learner: with
    [maxIterations = 1] the caller's model comes back as it was, whatever
    the learner would have done. *)
Lemma Estimate_diagonal_on_WIN32 :
  exists (cfg : EMFit Qc) (observations : mat Qc) (m : Mixture Qc),
    is_DiagonalConstraint (constraint cfg) = true
    /\ forall pdf flog gmm_learn default_tolerance,
        Estimate pdf flog gmm_learn true default_tolerance cfg observations m
          true = m.
Proof.
  exists (cfg_diagonal 1), one_point, (zero_weight_model (Qc_of_Z 5)).
  split; [reflexivity |]. intros pdf flog gmm_learn default_tolerance.
  reflexivity.
Qed.

(** ** The two loops of [LogLikelihood] *)

Section LogLikelihoodFacts.
Context {T : Type} `{Scalar T}.
Variable pdf : GaussianDistribution T -> vec T -> T.
Variable flog : T -> T.

Lemma likelihoods_columns (observations : list (list T)) (m : Mixture T) :
  likelihoods pdf observations m
  = map (fun x => imap (fun i d => mul (nth i (weights m) zero) (pdf d x)) (dists m))
        observations.
Proof.
  unfold likelihoods.
  rewrite (fold_left_set_row fst
             (fun id => map (fun p => mul (nth (fst id) (weights m) zero) p)
                            (Probability pdf (snd id) observations))).
  2:{ apply Forall_forall. intros a _. unfold mzeros, Probability.
      rewrite length_replicate, !length_map. reflexivity. }
  unfold mzeros. rewrite imap_replicate.
  rewrite <- (map_seq_nth observations _ []).
  apply map_ext_in. intros j Hj. apply in_seq in Hj.
  change (imap pair (dists m)) with (imap (fun i d => (0 + i, d)) (dists m)).
  rewrite (fold_left_insert_imap
             (fun a => nth j (map (fun p => mul (nth (fst a) (weights m) zero) p)
                                  (Probability pdf (snd a) observations)) zero)).
  2:{ unfold zeros. rewrite length_replicate. simpl. reflexivity. }
  rewrite take_0, Nat.add_0_l. unfold zeros.
  rewrite drop_ge by (rewrite length_replicate; reflexivity).
  rewrite app_nil_r, app_nil_l.
  apply imap_ext. intros i d _. cbn [fst snd]. unfold Probability.
  rewrite map_map.
  rewrite (nth_indep _ zero (mul (nth i (weights m) zero) (pdf d [])))
    by (rewrite List.length_map; lia).
  apply (map_nth (fun x => mul (nth i (weights m) zero) (pdf d x))).
Qed.


(** The second loop, from any running total, report list and index. *)
Lemma LogLikelihood_sum_from (colf : vec T -> vec T) (observations : mat T)
    (n : nat) (total : T) (reported : list nat) :
  fold_left
    (fun acc jc =>
       let s := accu (snd jc) in
       (add (fst acc) (flog s),
        if feqb s zero then snd acc ++ [fst jc] else snd acc))
    (imap (fun j x => (n + j, colf x)) observations)
    (total, reported)
  = (fold_left (fun t x => add t (flog (accu (colf x)))) observations total,
     reported
     ++ concat (imap (fun j x => if feqb (accu (colf x)) zero then [n + j] else [])
                     observations)).
Proof.
  revert n total reported.
  induction observations as [| x xs IH]; intros n total reported.
  - simpl. rewrite app_nil_r. reflexivity.
  - rewrite !imap_cons. cbn [fold_left fst snd concat].
    rewrite (imap_ext _ (fun j x => (S n + j, colf x)))
      by (intros; simpl; f_equal; lia).
    rewrite IH. f_equal. rewrite Nat.add_0_r.
    rewrite (imap_ext
               ((fun j x0 => if feqb (accu (colf x0)) zero then [n + j] else []) ∘ S)
               (fun j x0 => if feqb (accu (colf x0)) zero then [S n + j] else []))
      by (intros; simpl; replace (n + S i) with (S (n + i)) by lia; reflexivity).
    destruct (feqb (accu (colf x)) zero); simpl;
      rewrite <- ?app_assoc; reflexivity.
Qed.

End LogLikelihoodFacts.

(** ** C8: the log-likelihood *)

(** C8.  [LogLikelihood] returns, for every input, the sum over the points
    of the logarithm of the mixture density of the point, and reports the
    points whose mixture density is 0.  The logarithm of such a point is
    taken like any other ([flog] of the density, the value the C library
    gives at 0), there is no error result, and the accumulation goes on
    with the points that follow. *)
Theorem LogLikelihood_sums_logs {T : Type} `{Scalar T}
    (pdf : GaussianDistribution T -> vec T -> T) (flog : T -> T)
    (m : Mixture T) :
  (forall observations,
      LogLikelihood pdf flog observations m
      = (LogLikelihood_spec pdf flog observations m,
         zero_density_points pdf observations m))
  /\ (forall before x after,
        fst (LogLikelihood pdf flog (before ++ x :: after) m)
        = fold_left (fun total y => add total (flog (mixture_density pdf m y)))
            after
            (add (fst (LogLikelihood pdf flog before m))
                 (flog (mixture_density pdf m x)))).
Proof.
  assert (Hall : forall observations,
      LogLikelihood pdf flog observations m
      = (LogLikelihood_spec pdf flog observations m,
         zero_density_points pdf observations m)).
  { intros observations. unfold LogLikelihood, LogLikelihood_sum.
    rewrite likelihoods_columns, imap_fmap.
    exact (LogLikelihood_sum_from flog
             (fun x => imap (fun i d => mul (nth i (weights m) zero) (pdf d x))
                            (dists m))
             observations 0 zero []). }
  split; [exact Hall |].
  intros before x after. rewrite !Hall. cbn [fst].
  unfold LogLikelihood_spec. rewrite fold_left_app. reflexivity.
Qed.

(** ** C9: the weighted overload never calls the learner *)


(** ** C10: a component that has lost its weight *)

Section ZeroWeight.
Context {T : Type} `{ScalarLaws T}.
Variable pdf : GaussianDistribution T -> vec T -> T.

Add Ring scalar_ring_zero : sl_ring.

Lemma all_zero_zeros (c : vec T) :
  (forall r, r < length c -> nth r c zero = zero) -> c = zeros (length c).
Proof.
  induction c as [| x c IH]; intros Hc; [reflexivity |].
  unfold zeros in *. simpl. f_equal.
  - exact (Hc 0 ltac:(simpl; lia)).
  - apply IH. intros r Hr. exact (Hc (S r) ltac:(simpl; lia)).
Qed.

Lemma vscale_zero (v : vec T) : vscale v zero = zeros (length v).
Proof.
  unfold vscale, zeros. induction v as [| x v IH]; simpl; [reflexivity |].
  f_equal; [ring | exact IH].
Qed.

Lemma nth_zeros (n r : nat) : nth r (zeros n) (zero : T) = zero.
Proof.
  unfold zeros. revert r. induction n as [| n IH]; intros [| r]; simpl; auto.
Qed.

Lemma nth_vdivs (v : vec T) (s : T) (k : nat) :
  s <> zero -> nth k (vdivs v s) zero = div (nth k v zero) s.
Proof.
  intros Hs. unfold vdivs.
  rewrite <- (zero_div s Hs) at 1.
  apply (map_nth (fun x => div x s)).
Qed.

Lemma nth_normalized_row_zero (v : vec T) (k : nat) :
  nth k v zero = zero -> nth k (normalized_row v) zero = zero.
Proof.
  intros Hk. unfold normalized_row.
  destruct (fneb (accu v) zero) eqn:E; [| exact Hk].
  apply fneb_true in E. rewrite nth_vdivs, Hk by exact E.
  apply zero_div. exact E.
Qed.

(** The column of a component of mixing weight 0 is zero before and after
    the normalisation. *)
Lemma zero_weight_column_EStep (observations : mat T) (m : Mixture T)
    (k : nat) (d : GaussianDistribution T) :
  dists m !! k = Some d -> weights m !! k = Some zero ->
  nth k (EStep pdf observations m) [] = zeros (length observations).
Proof.
  intros Hd Hw. unfold EStep.
  rewrite nth_lookup, list_lookup_imap, Hd. simpl.
  rewrite (nth_lookup_Some _ _ zero zero Hw), vscale_zero.
  unfold Probability. rewrite List.length_map. reflexivity.
Qed.

Lemma zero_weight_column_condProb (observations : mat T) (m : Mixture T)
    (k : nat) (d : GaussianDistribution T) :
  dists m !! k = Some d -> weights m !! k = Some zero ->
  nth k (NormalizeRows (length observations) (EStep pdf observations m)) []
  = zeros (length observations).
Proof.
  intros Hd Hw.
  set (n := length observations).
  set (C := EStep pdf observations m).
  assert (HwfC : well_formed n C) by apply well_formed_EStep.
  assert (Hwf : well_formed n (NormalizeRows n C))
    by (apply well_formed_NormalizeRows; exact HwfC).
  assert (Hk : k < length (NormalizeRows n C)).
  { rewrite length_NormalizeRows by exact HwfC. unfold C.
    rewrite length_EStep. apply lookup_lt_is_Some. eauto. }
  destruct (lookup_lt_is_Some_2 _ _ Hk) as [c Hc].
  rewrite (nth_lookup_Some _ _ [] c Hc).
  assert (Hlen : length c = n)
    by exact (Forall_lookup_1 _ _ _ _ Hwf Hc).
  rewrite <- Hlen. apply all_zero_zeros. intros r Hr.
  rewrite <- (nth_lookup_Some _ _ [] c Hc), <- nth_row.
  rewrite NormalizeRows_row by (auto; lia).
  apply nth_normalized_row_zero.
  rewrite nth_row. unfold C.
  rewrite (zero_weight_column_EStep observations m k d Hd Hw).
  apply nth_zeros.
Qed.

(** One pass of the unweighted loop keeps such a component and its
    weight. *)
Lemma EMPass_zero_weight policy (observations : mat T) (m : Mixture T)
    (k : nat) (d : GaussianDistribution T) :
  observations <> [] ->
  dists m !! k = Some d -> weights m !! k = Some zero ->
  EffectiveMass pdf observations m k = zero
  /\ dists (EMPass pdf policy observations m) !! k = Some d
  /\ weights (EMPass pdf policy observations m) !! k = Some zero.
Proof.
  intros Hobs Hd Hw.
  assert (Hmass : EffectiveMass pdf observations m k = zero).
  { unfold EffectiveMass.
    rewrite (zero_weight_column_condProb observations m k d Hd Hw).
    apply accu_zeros. }
  split; [exact Hmass |]. split.
  - apply EMPass_frozen; [exact Hd |].
    rewrite Hmass. apply fneb_false. reflexivity.
  - unfold EMPass. cbn [weights]. unfold vdivs.
    rewrite list_lookup_fmap, list_lookup_fmap.
    assert (Hk : k < length (NormalizeRows (length observations)
                               (EStep pdf observations m))).
    { rewrite length_NormalizeRows by apply well_formed_EStep.
      rewrite length_EStep. apply lookup_lt_is_Some. eauto. }
    destruct (lookup_lt_is_Some_2 _ _ Hk) as [c Hc].
    rewrite Hc. simpl. f_equal.
    unfold EffectiveMass in Hmass.
    rewrite (nth_lookup_Some _ _ [] c Hc) in Hmass. rewrite Hmass.
    apply zero_div. apply positive_ne.
    destruct observations as [| x xs]; [contradiction |].
    apply of_nat_positive.
Qed.

(** ... and so does any number of passes. *)
Lemma EMPass_iter_zero_weight policy (observations : mat T) (m : Mixture T)
    (k : nat) (d : GaussianDistribution T) (n : nat) :
  observations <> [] ->
  dists m !! k = Some d -> weights m !! k = Some zero ->
  dists (Nat.iter n (EMPass pdf policy observations) m) !! k = Some d
  /\ weights (Nat.iter n (EMPass pdf policy observations) m) !! k = Some zero.
Proof.
  intros Hobs Hd Hw. induction n as [| n [IHd IHw]]; [auto |].
  simpl. destruct (EMPass_zero_weight policy observations _ k d Hobs IHd IHw)
    as (_ & Hd' & Hw').
  auto.
Qed.

End ZeroWeight.

Lemma while_loop_model_invariant {T : Type} `{Scalar T}
    (pdf : GaussianDistribution T -> vec T -> T) (flog : T -> T)
    (P : Mixture T -> Prop) (guard : LoopState -> bool)
    (pass : Mixture T -> Mixture T) (observations : mat T) :
  (forall m, P m -> P (pass m)) ->
  forall fuel st,
    P (ls_model st) ->
    P (ls_model (snd (while_loop guard (loop_body pdf flog pass observations)
                        fuel st))).
Proof.
  intros Hpass. induction fuel as [| fuel IH]; intros st Hst; [exact Hst |].
  simpl. destruct (guard st); [| exact Hst].
  specialize (IH (loop_body pdf flog pass observations st) (Hpass _ Hst)).
  destruct (while_loop guard (loop_body pdf flog pass observations) fuel
              (loop_body pdf flog pass observations st)) as [n st'].
  exact IH.
Qed.




(** * Further properties of the code *)

(** ** Folds that update one entry of a list per step *)

Section AlterFold.
Context {A X : Type}.

Lemma fold_left_alter_lookup (G : X * nat -> A -> A) (pts : list (X * nat))
    (l0 : list A) (k : nat) :
  fold_left (fun l xc => alter (G xc) (snd xc) l) pts l0 !! k
  = (fun a => fold_left (fun a xc => G xc a)
                        (filter (fun xc => snd xc = k) pts) a) <$> l0 !! k.
Proof.
  revert l0. induction pts as [| xc pts IH]; intros l0.
  - simpl. destruct (l0 !! k); reflexivity.
  - simpl fold_left. rewrite IH.
    destruct (decide (snd xc = k)) as [E | NE].
    + rewrite filter_cons_True by exact E.
      rewrite <- E, list_lookup_alter_eq.
      destruct (l0 !! snd xc); reflexivity.
    + rewrite filter_cons_False by exact NE.
      rewrite list_lookup_alter_ne by exact NE. reflexivity.
Qed.

Lemma length_fold_left_alter (G : X * nat -> A -> A) (pts : list (X * nat))
    (l0 : list A) :
  length (fold_left (fun l xc => alter (G xc) (snd xc) l) pts l0) = length l0.
Proof.
  revert l0. induction pts as [| xc pts IH]; intros l0; [reflexivity |].
  simpl. rewrite IH. apply length_alter.
Qed.

Lemma fold_left_ext_in {B : Type} (f g : A -> B -> A) (l : list B) (a : A) :
  (forall a' b, In b l -> f a' b = g a' b) ->
  fold_left f l a = fold_left g l a.
Proof.
  revert a. induction l as [| b l IH]; intros a Hfg; [reflexivity |].
  simpl. rewrite (Hfg a b) by (left; reflexivity).
  apply IH. intros a' b' Hb'. apply Hfg. right. exact Hb'.
Qed.

Lemma fold_left_map_arg {B C : Type} (f : A -> C -> A) (g : B -> C)
    (l : list B) (a : A) :
  fold_left f (map g l) a = fold_left (fun a' b => f a' (g b)) l a.
Proof.
  revert a. induction l as [| b l IH]; intros a; [reflexivity |].
  simpl. apply IH.
Qed.

End AlterFold.

Section InitialClusteringFacts.
Context {T : Type} `{Scalar T}.

Lemma fold_left_accumulate_point (pts : list (vec T * nat))
    (means : list (vec T)) (covs : list (mat T)) (ws : vec T) :
  fold_left accumulate_point pts (means, covs, ws)
  = (fold_left (fun l xc => alter (fun mu => vadd mu (fst xc)) (snd xc) l)
               pts means,
     fold_left (fun l xc => alter (fun c => madd c (outer (fst xc) (fst xc)))
                                  (snd xc) l)
               pts covs,
     fold_left (fun l xc => alter (fun w => add w one) (snd xc) l) pts ws).
Proof.
  revert means covs ws. induction pts as [| [x c] pts IH]; intros means covs ws.
  - reflexivity.
  - simpl fold_left. apply IH.
Qed.

Lemma fold_left_accumulate_centred (means : list (vec T))
    (pts : list (vec T * nat)) (covs : list (mat T)) :
  fold_left (accumulate_centred means) pts covs
  = fold_left
      (fun l xc =>
         alter (fun c => madd c (outer (vsub (fst xc) (nth (snd xc) means []))
                                       (vsub (fst xc) (nth (snd xc) means []))))
               (snd xc) l)
      pts covs.
Proof.
  apply fold_left_ext_in. intros covs' [x c] _. reflexivity.
Qed.

Lemma fold_left_count {B : Type} (l : list B) (n : nat) :
  fold_left (fun (w : T) (_ : B) => add w one) l (of_nat n)
  = of_nat (n + length l).
Proof.
  revert n. induction l as [| b l IH]; intros n; simpl.
  - rewrite Nat.add_0_r. reflexivity.
  - change (add (of_nat n) one) with (of_nat (S n)). rewrite IH.
    f_equal. lia.
Qed.

End InitialClusteringFacts.

Section InitialClusteringResult.
Context {T : Type} `{Scalar T}.
Variable cfg : EMFit T.
Variable observations : mat T.
Variable m : Mixture T.

#[local] Abbreviation assignments :=
  (Cluster (clusterer cfg) observations (length (dists m))).

(** The counts that the first loop leaves in [weights]. *)
Lemma InitialClustering_counts (k : nat) :
  k < length (weights m) ->
  fold_left (fun l xc => alter (fun w => add w one) (snd xc) l)
            (zip observations assignments) (zeros (length (weights m))) !! k
  = Some (of_nat (length (assigned_points observations assignments k))).
Proof.
  intros Hk. rewrite fold_left_alter_lookup.
  unfold zeros. rewrite lookup_replicate_2 by exact Hk. simpl. f_equal.
  unfold assigned_points. rewrite List.length_map.
  exact (fold_left_count _ 0).
Qed.

(** Component [k] as [InitialClustering] leaves it. *)
Lemma InitialClustering_lookup (k : nat) (d : GaussianDistribution T) :
  dists m !! k = Some d ->
  k < length (weights m) ->
  let points := assigned_points observations assignments k in
  let mean := cluster_mean (length (Mean d)) points in
  dists (InitialClustering cfg observations m) !! k
  = Some {| Mean := mean;
            Covariance :=
              ApplyConstraint (constraint cfg)
                (mdivs
                   (fold_left
                      (fun c x => madd c (outer (vsub x mean) (vsub x mean)))
                      points
                      (fold_left (fun c x => madd c (outer x x)) points
                         (mzeros (n_rows (Covariance d))
                                 (length (Covariance d)))))
                   (clamped_count points)) |}.
Proof.
  intros Hd Hk points mean. unfold InitialClustering.
  rewrite fold_left_accumulate_point. cbn [dists].
  rewrite list_lookup_imap, Hd. cbn [fmap option_fmap option_map]. f_equal.
  set (pts := zip observations assignments).
  set (means1 := fold_left _ pts (map _ (dists m))).
  set (weights1 := fold_left _ pts (zeros _)).
  set (covs1 := fold_left _ pts (map _ (dists m))).
  set (means2 := imap _ means1).
  assert (Hw : nth k weights1 zero = of_nat (length points)).
  { apply nth_lookup_Some. apply InitialClustering_counts. exact Hk. }
  assert (Hm1 : means1 !! k
                = Some (fold_left vadd points (zeros (length (Mean d))))).
  { unfold means1. rewrite fold_left_alter_lookup.
    rewrite list_lookup_fmap, Hd. simpl. f_equal.
    unfold points, assigned_points. rewrite fold_left_map_arg. reflexivity. }
  assert (Hm2 : nth k means2 [] = mean).
  { apply nth_lookup_Some. unfold means2.
    rewrite list_lookup_imap, Hm1. simpl. rewrite Hw. reflexivity. }
  rewrite Hm2, Hw. f_equal. f_equal. f_equal.
  apply nth_lookup_Some.
  rewrite fold_left_accumulate_centred, fold_left_alter_lookup.
  unfold covs1. rewrite fold_left_alter_lookup.
  rewrite list_lookup_fmap, Hd. simpl. f_equal.
  unfold points, assigned_points. rewrite !fold_left_map_arg.
  apply fold_left_ext_in. intros c [x cl] Hin.
  apply list_elem_of_In, list_elem_of_filter in Hin. destruct Hin as [E _].
  simpl in E. subst cl. cbn [fst snd]. rewrite Hm2. reflexivity.
Qed.

End InitialClusteringResult.

(** X1.  [InitialClustering] sets the mean of a component to the sum of the
    points assigned to it, added up in the order of the points from the
    zero vector, divided by their number clamped to at least 1.  This holds
    in every arithmetic. *)
Theorem InitialClustering_mean {T : Type} `{Scalar T}
    (cfg : EMFit T) (observations : mat T) (m : Mixture T)
    (k : nat) (d : GaussianDistribution T) :
  dists m !! k = Some d ->
  k < length (weights m) ->
  let assignments := Cluster (clusterer cfg) observations (length (dists m)) in
  Mean <$> dists (InitialClustering cfg observations m) !! k
  = Some (cluster_mean (length (Mean d))
            (assigned_points observations assignments k)).
Proof.
  intros Hd Hk assignments.
  rewrite (InitialClustering_lookup cfg observations m k d Hd Hk).
  reflexivity.
Qed.

(** Witness of X1: two points of one cluster, in binary64. *)
Lemma InitialClustering_mean_witness :
  Mean <$> dists (InitialClustering (cfg_generic 3) two_points_binary64
                    unseeded_binary64) !! 0
  = Some (cluster_mean 1
            (assigned_points two_points_binary64
               (Cluster (clusterer (cfg_generic 3)) two_points_binary64 1) 0)).
Proof.
  apply (InitialClustering_mean (cfg_generic 3) two_points_binary64
           unseeded_binary64 0 (gaussian1 0%float 1%float)).
  - reflexivity.
  - simpl. lia.
Defined.

(** X2.  The covariance that [InitialClustering] stores for a component is
    the policy applied to a quotient by the clamped count, of the sum of the
    outer products of the points assigned to it (first loop) with the outer
    products of the same points minus their mean added on top (second
    loop).  This holds in every arithmetic. *)
Theorem InitialClustering_covariance {T : Type} `{Scalar T}
    (cfg : EMFit T) (observations : mat T) (m : Mixture T)
    (k : nat) (d : GaussianDistribution T) :
  dists m !! k = Some d ->
  k < length (weights m) ->
  let assignments := Cluster (clusterer cfg) observations (length (dists m)) in
  let points := assigned_points observations assignments k in
  let mean := cluster_mean (length (Mean d)) points in
  let uncentred :=
    fold_left (fun c x => madd c (outer x x)) points
              (mzeros (n_rows (Covariance d)) (length (Covariance d))) in
  Covariance <$> dists (InitialClustering cfg observations m) !! k
  = Some (ApplyConstraint (constraint cfg)
            (mdivs (fold_left
                      (fun c x => madd c (outer (vsub x mean) (vsub x mean)))
                      points uncentred)
                   (clamped_count points))).
Proof.
  intros Hd Hk assignments points mean uncentred.
  rewrite (InitialClustering_lookup cfg observations m k d Hd Hk).
  reflexivity.
Qed.

(** Witness of X2: two points of one cluster, in binary64. *)
Lemma InitialClustering_covariance_witness :
  Covariance <$> dists (InitialClustering (cfg_generic 3) two_points_binary64
                          unseeded_binary64) !! 0
  = Some [[6%float]].
Proof.
  rewrite (InitialClustering_covariance (cfg_generic 3) two_points_binary64
             unseeded_binary64 0 (gaussian1 0%float 1%float)).
  - reflexivity.
  - reflexivity.
  - simpl. lia.
Defined.

(** X3.  A component to which no point is assigned: its count 0 is clamped
    to 1, so nothing is divided by zero; it gets the zero vector over 1 as
    mean and the policy applied to the zero matrix over 1 as covariance. *)
Theorem InitialClustering_empty_cluster {T : Type} `{Scalar T}
    (cfg : EMFit T) (observations : mat T) (m : Mixture T)
    (k : nat) (d : GaussianDistribution T) :
  fgtb (zero : T) one = false ->
  dists m !! k = Some d ->
  k < length (weights m) ->
  assigned_points observations
    (Cluster (clusterer cfg) observations (length (dists m))) k = [] ->
  dists (InitialClustering cfg observations m) !! k
  = Some {| Mean := vdivs (zeros (length (Mean d))) one;
            Covariance :=
              ApplyConstraint (constraint cfg)
                (mdivs (mzeros (n_rows (Covariance d)) (length (Covariance d)))
                       one) |}.
Proof.
  intros H01 Hd Hk Hempty.
  rewrite (InitialClustering_lookup cfg observations m k d Hd Hk).
  rewrite Hempty. unfold cluster_mean, clamped_count, clamp_count.
  cbn [length of_nat fold_left]. rewrite H01. reflexivity.
Qed.

(** Witness of X3: the second of two components, in binary64, when every
    point goes to the first. *)
Lemma InitialClustering_empty_cluster_witness :
  dists (InitialClustering (cfg_generic 3) two_points_binary64
           {| dists := [gaussian1 0%float 1%float; gaussian1 0%float 1%float];
              weights := [0%float; 0%float] |}) !! 1
  = Some (gaussian1 0%float 0%float).
Proof.
  rewrite (InitialClustering_empty_cluster (cfg_generic 3) two_points_binary64
             _ 1 (gaussian1 0%float 1%float)).
  - reflexivity.
  - reflexivity.
  - reflexivity.
  - simpl. lia.
  - reflexivity.
Defined.

Section InitialWeights.
Context {T : Type} `{ScalarLaws T}.

Add Ring scalar_ring_initial : sl_ring.

Lemma accu_alter_add_one (ws : vec T) (c : nat) :
  c < length ws ->
  accu (alter (fun w => add w one) c ws) = add (accu ws) one.
Proof.
  revert c. induction ws as [| w ws IH]; intros c Hc; simpl in Hc; [lia |].
  destruct c as [| c]; simpl.
  - rewrite !accu_cons. ring.
  - rewrite !accu_cons.
    change (list_alter (fun w0 => add w0 one) c ws)
      with (alter (fun w0 => add w0 one) c ws).
    rewrite IH by lia. ring.
Qed.

Lemma accu_counts (pts : list (vec T * nat)) (ws : vec T) :
  Forall (fun xc => snd xc < length ws) pts ->
  accu (fold_left (fun l xc => alter (fun w => add w one) (snd xc) l) pts ws)
  = add (accu ws) (of_nat (length pts)).
Proof.
  revert ws. induction pts as [| xc pts IH]; intros ws Hall.
  - simpl. ring.
  - inversion Hall as [| ? ? Hxc Hpts]; subst. simpl fold_left.
    rewrite IH by (rewrite length_alter; exact Hpts).
    rewrite accu_alter_add_one by exact Hxc.
    simpl length. change (of_nat (S (length pts)))
      with (add (of_nat (length pts)) one). ring.
Qed.

Lemma nonneg_of_nat (n : nat) : nonneg (of_nat n : T).
Proof.
  destruct n as [| n]; [left; reflexivity | right; apply of_nat_positive].
Qed.

End InitialWeights.

(** X4.  In exact arithmetic, when the clusterer gives one label per point,
    each below the length of [weights], and there is at least one point:
    the mixing weight that [InitialClustering] gives a component is the
    number of points assigned to it over the number of points; the mixing
    weights are nonnegative and sum to 1. *)
Theorem InitialClustering_weights {T : Type} `{ScalarLaws T}
    (cfg : EMFit T) (observations : mat T) (m : Mixture T) :
  let assignments := Cluster (clusterer cfg) observations (length (dists m)) in
  observations <> [] ->
  length assignments = length observations ->
  Forall (fun c => c < length (weights m)) assignments ->
  let w := weights (InitialClustering cfg observations m) in
  accu w = one
  /\ Forall nonneg w
  /\ forall k, k < length (weights m) ->
       w !! k
       = Some (div (of_nat (length (assigned_points observations assignments k)))
                   (of_nat (length observations))).
Proof.
  intros assignments Hobs Hlen Hall w.
  set (pts := zip observations assignments).
  set (weights1 :=
         fold_left (fun l xc => alter (fun w => add w one) (snd xc) l)
                   pts (zeros (length (weights m)))).
  assert (Ew : w = vdivs weights1 (accu weights1)).
  { subst w. unfold InitialClustering.
    rewrite fold_left_accumulate_point. reflexivity. }
  assert (Hn : length pts = length observations).
  { unfold pts. rewrite length_zip. lia. }
  assert (Hacc : accu weights1 = of_nat (length observations)).
  { unfold weights1. rewrite accu_counts.
    - rewrite accu_zeros, Hn.
      destruct (sl_ring (T := T)) as [Radd0 _ _ _ _ _ _ _ _]. apply Radd0.
    - unfold zeros. rewrite length_replicate.
      apply Forall_forall. intros [x c] Hin.
      apply list_elem_of_In, elem_of_zip_r in Hin.
      rewrite Forall_forall in Hall. apply Hall.
      apply list_elem_of_In. exact Hin. }
  assert (Hpos : positive (of_nat (length observations) : T)).
  { destruct observations as [| x xs]; [contradiction |].
    apply of_nat_positive. }
  assert (Hk : forall k, k < length (weights m) ->
             weights1 !! k
             = Some (of_nat (length (assigned_points observations assignments k)))).
  { intros k Hk. apply InitialClustering_counts. exact Hk. }
  rewrite Ew, Hacc. split; [| split].
  - rewrite accu_vdivs by (apply positive_ne; exact Hpos).
    rewrite Hacc. apply div_self, positive_ne. exact Hpos.
  - apply Forall_forall. intros y Hy. unfold vdivs in Hy.
    apply in_map_iff in Hy. destruct Hy as (x & <- & Hx).
    apply nonneg_div; [| exact Hpos].
    apply list_elem_of_In, list_elem_of_lookup in Hx. destruct Hx as [k Hx].
    assert (Hkl : k < length (weights m)).
    { apply lookup_lt_Some in Hx. unfold weights1 in Hx.
      rewrite length_fold_left_alter in Hx. unfold zeros in Hx.
      rewrite length_replicate in Hx. exact Hx. }
    rewrite (Hk k Hkl) in Hx. injection Hx as <-. apply nonneg_of_nat.
  - intros k Hkl. unfold vdivs. rewrite list_lookup_fmap, (Hk k Hkl).
    reflexivity.
Qed.

(** Witness of X4: three points in one cluster, on rationals. *)
Lemma InitialClustering_weights_witness :
  accu (weights (InitialClustering (cfg_generic 3) three_points
                   weightless_model)) = 1%Qc.
Proof.
  refine (proj1 (InitialClustering_weights (cfg_generic 3) three_points
                   weightless_model _ _ _)).
  - discriminate.
  - reflexivity.
  - repeat constructor.
Defined.

(** ** The number of components *)

Section Components.
Context {T : Type} `{Scalar T}.
Variable pdf : GaussianDistribution T -> vec T -> T.
Variable flog : T -> T.

Lemma length_dists_InitialClustering (cfg : EMFit T) (observations : mat T)
    (m : Mixture T) :
  length (dists (InitialClustering cfg observations m)) = length (dists m).
Proof.
  unfold InitialClustering.
  destruct (fold_left accumulate_point _ _) as [[means1 covs1] weights1].
  cbn [dists]. apply length_imap.
Qed.

Lemma length_dists_EMPass policy (observations : mat T) (m : Mixture T) :
  length (dists (EMPass pdf policy observations m)) = length (dists m).
Proof. unfold EMPass. cbn [dists]. apply length_imap. Qed.

Lemma length_dists_EMPass_weighted policy (observations : mat T)
    (probabilities : vec T) (m : Mixture T) :
  length (dists (EMPass_weighted pdf policy observations probabilities m))
  = length (dists m).
Proof. unfold EMPass_weighted. cbn [dists]. apply length_imap. Qed.

Lemma length_dists_EMLoop cfg (pass : Mixture T -> Mixture T)
    (observations : mat T) (m : Mixture T) :
  (forall m', length (dists (pass m')) = length (dists m')) ->
  length (dists (ls_model (snd (EMLoop pdf flog cfg pass observations m))))
  = length (dists m).
Proof.
  intros Hpass. unfold EMLoop.
  apply (while_loop_model_invariant pdf flog
           (fun m' => length (dists m') = length (dists m))).
  - intros m' Hm'. rewrite Hpass. exact Hm'.
  - reflexivity.
Qed.

End Components.

(** X5.  Both overloads of [Estimate] return as many components as they
    were given, on every path: through the learner, through the initial
    clustering, and after any number of passes of the loop. *)
Theorem Estimate_keeps_components {T : Type} `{Scalar T}
    (pdf : GaussianDistribution T -> vec T -> T) (flog : T -> T)
    (gmm_learn : learn_args T -> gmm_diag T -> gmm_diag T)
    (WIN32 : bool) (default_tolerance : T) (cfg : EMFit T)
    (observations : mat T) (probabilities : vec T) (m : Mixture T)
    (useInitialModel : bool) :
  length (dists (Estimate pdf flog gmm_learn WIN32 default_tolerance cfg
                   observations m useInitialModel))
  = length (dists m)
  /\ length (dists (Estimate_weighted pdf flog cfg observations probabilities
                      m useInitialModel))
     = length (dists m).
Proof.
  assert (Hseed :
    length (dists (if negb useInitialModel
                   then InitialClustering cfg observations m else m))
    = length (dists m)).
  { destruct useInitialModel; simpl;
      [reflexivity | apply length_dists_InitialClustering]. }
  split.
  - unfold Estimate.
    destruct (negb WIN32 && is_DiagonalConstraint (constraint cfg)).
    + unfold ArmadilloGMMWrapper, read_gmm. cbn [snd dists]. apply length_imap.
    + rewrite length_dists_EMLoop by apply length_dists_EMPass. exact Hseed.
  - unfold Estimate_weighted.
    rewrite length_dists_EMLoop by apply length_dists_EMPass_weighted.
    exact Hseed.
Qed.

(** ** What [InitialClustering] reads of the model *)

Lemma imap_index_only {A B C : Type} (g : nat -> C) (l : list A) (l' : list B) :
  length l = length l' ->
  imap (fun i (_ : A) => g i) l = imap (fun i (_ : B) => g i) l'.
Proof.
  intros Hl. rewrite !imap_seq_0, Hl. reflexivity.
Qed.

(** X6.  [InitialClustering] reads of the model it is given only the sizes:
    the number of components, the length of each mean, the numbers of rows
    and columns of each covariance and the length of [weights].  So with
    [useInitialModel = false] both overloads of [Estimate] return the same
    model for two models of the same sizes. *)
Theorem Estimate_ignores_model_values {T : Type} `{Scalar T}
    (pdf : GaussianDistribution T -> vec T -> T) (flog : T -> T)
    (gmm_learn : learn_args T -> gmm_diag T -> gmm_diag T)
    (WIN32 : bool) (default_tolerance : T) (cfg : EMFit T)
    (observations : mat T) (probabilities : vec T) (m m' : Mixture T) :
  map dist_sizes (dists m) = map dist_sizes (dists m') ->
  length (weights m) = length (weights m') ->
  InitialClustering cfg observations m = InitialClustering cfg observations m'
  /\ Estimate pdf flog gmm_learn WIN32 default_tolerance cfg observations m
       false
     = Estimate pdf flog gmm_learn WIN32 default_tolerance cfg observations m'
         false
  /\ Estimate_weighted pdf flog cfg observations probabilities m false
     = Estimate_weighted pdf flog cfg observations probabilities m' false.
Proof.
  intros Hsizes Hw.
  assert (Hlen : length (dists m) = length (dists m')).
  { rewrite <- (List.length_map dist_sizes (dists m)), Hsizes.
    apply List.length_map. }
  assert (Hinit : InitialClustering cfg observations m
                  = InitialClustering cfg observations m').
  { unfold InitialClustering. rewrite Hlen, Hw.
    replace (map (fun d => zeros (length (Mean d))) (dists m))
      with (map (fun d => zeros (length (Mean d))) (dists m')).
    2:{ rewrite <- (map_map dist_sizes (fun s => zeros (fst (fst s))) (dists m')),
                <- Hsizes, map_map. reflexivity. }
    replace (map (fun d => mzeros (n_rows (Covariance d)) (length (Covariance d)))
                 (dists m))
      with (map (fun d => mzeros (n_rows (Covariance d)) (length (Covariance d)))
                (dists m')).
    2:{ rewrite <- (map_map dist_sizes
                      (fun s => mzeros (snd (fst s)) (snd s)) (dists m')),
                <- Hsizes, map_map. reflexivity. }
    destruct (fold_left accumulate_point _ _) as [[means1 covs1] weights1].
    f_equal. apply imap_index_only. exact Hlen. }
  split; [exact Hinit |]. split.
  - unfold Estimate, ArmadilloGMMWrapper, read_gmm. cbn [negb snd].
    rewrite Hinit, Hlen.
    rewrite (imap_index_only _ (dists m) (dists m') Hlen). reflexivity.
  - unfold Estimate_weighted. cbn [negb]. rewrite Hinit. reflexivity.
Qed.

Lemma Estimate_ignores_model_values_witness :
  let m' := {| dists := [gaussian1 5%float 7%float]; weights := [9%float] |} in
  InitialClustering (cfg_generic 3) two_points_binary64 unseeded_binary64
  = InitialClustering (cfg_generic 3) two_points_binary64 m'
  /\ Estimate constant_density shifted_log learn_nothing true lit_1e_10
       (cfg_generic 3) two_points_binary64 unseeded_binary64 false
     = Estimate constant_density shifted_log learn_nothing true lit_1e_10
         (cfg_generic 3) two_points_binary64 m' false
  /\ Estimate_weighted constant_density shifted_log (cfg_generic 3)
       two_points_binary64 [1%float; 1%float] unseeded_binary64 false
     = Estimate_weighted constant_density shifted_log (cfg_generic 3)
         two_points_binary64 [1%float; 1%float] m' false.
Proof.
  intros m'.
  apply (Estimate_ignores_model_values constant_density shifted_log
           learn_nothing true lit_1e_10 (cfg_generic 3) two_points_binary64
           [1%float; 1%float] unseeded_binary64 m').
  - reflexivity.
  - reflexivity.
Defined.

(** ** The state in which the loop stops *)

Section LoopExit.
Context {T : Type} `{Scalar T}.
Variable pdf : GaussianDistribution T -> vec T -> T.
Variable flog : T -> T.
Variable cfg : EMFit T.
Variable pass : Mixture T -> Mixture T.
Variable observations : mat T.

#[local] Abbreviation guard := (loop_guard cfg).
#[local] Abbreviation body := (loop_body pdf flog pass observations).

(** [l] is the log-likelihood of the model in force. *)
Lemma while_loop_likelihood fuel st :
  ls_l st = fst (LogLikelihood pdf flog observations (ls_model st)) ->
  ls_l (snd (while_loop guard body fuel st))
  = fst (LogLikelihood pdf flog observations
           (ls_model (snd (while_loop guard body fuel st)))).
Proof.
  revert st. induction fuel as [| fuel IH]; intros st Hst; simpl.
  - exact Hst.
  - destruct (guard st); [| exact Hst].
    specialize (IH (body st) eq_refl).
    destruct (while_loop guard body fuel (body st)) as [n st']. exact IH.
Qed.

(** The counter counts the passes, modulo [2^64]. *)
Lemma while_loop_counter fuel st :
  (0 <= ls_iteration st < SIZE_MODULUS)%Z ->
  ls_iteration (snd (while_loop guard body fuel st))
  = to_size_t (ls_iteration st + Z.of_nat (fst (while_loop guard body fuel st))).
Proof.
  revert st. induction fuel as [| fuel IH]; intros st Hr; simpl.
  - rewrite Z.add_0_r. symmetry. apply to_size_t_small. exact Hr.
  - destruct (guard st).
    + specialize (IH (body st) (to_size_t_range _)).
      destruct (while_loop guard body fuel (body st)) as [n st'].
      cbn [fst snd] in *. rewrite IH. cbn [loop_body ls_iteration].
      unfold to_size_t. rewrite Zplus_mod_idemp_l. f_equal. lia.
    + cbn [fst snd]. rewrite Z.add_0_r. symmetry. apply to_size_t_small.
      exact Hr.
Qed.

(** A loop that stops with fuel left stops on its guard. *)
Lemma while_loop_stops_early fuel st :
  fst (while_loop guard body fuel st) < fuel ->
  guard (snd (while_loop guard body fuel st)) = false.
Proof.
  revert st. induction fuel as [| fuel IH]; intros st; simpl; [lia |].
  destruct (guard st) eqn:Eg; [| intros _; exact Eg].
  specialize (IH (body st)).
  destruct (while_loop guard body fuel (body st)) as [n st'].
  cbn [fst snd] in *. intros Hn. apply IH. lia.
Qed.

(** Before the last of the passes that the counter allows, the counter
    differs from [maxIterations]. *)
Lemma counter_before_maxIterations (n : nat) :
  n < loop_fuel cfg ->
  to_size_t (1 + Z.of_nat n) <> to_size_t (maxIterations cfg).
Proof.
  unfold loop_fuel, to_size_t. intros Hn.
  pose proof SIZE_MODULUS_pos as HM.
  pose proof (Z.mod_pos_bound (maxIterations cfg - 1) SIZE_MODULUS HM) as Hf.
  set (f := ((maxIterations cfg - 1) mod SIZE_MODULUS)%Z) in *.
  assert (Hn' : (Z.of_nat n < f)%Z) by lia.
  rewrite (Z.mod_small (1 + Z.of_nat n)) by lia.
  replace (maxIterations cfg) with (maxIterations cfg - 1 + 1)%Z by lia.
  rewrite <- Zplus_mod_idemp_l. fold f.
  destruct (Z.eq_dec (f + 1)%Z SIZE_MODULUS) as [E | NE].
  - rewrite E, Z_mod_same_full. lia.
  - rewrite Z.mod_small by lia. lia.
Qed.

End LoopExit.

(** X7.  Where the loop of [Estimate] stops, [l] is the log-likelihood of
    the model returned and the counter is 1 plus the number of passes
    executed, modulo [2^64]; and if the loop stops before the counter has
    met [maxIterations], the last change of the log-likelihood was within
    the tolerance. *)
Theorem EMLoop_exit_state {T : Type} `{Scalar T}
    (pdf : GaussianDistribution T -> vec T -> T) (flog : T -> T)
    (cfg : EMFit T) (pass : Mixture T -> Mixture T)
    (observations : mat T) (m : Mixture T) :
  let r := EMLoop pdf flog cfg pass observations m in
  ls_l (snd r) = fst (LogLikelihood pdf flog observations (ls_model (snd r)))
  /\ ls_iteration (snd r) = to_size_t (1 + Z.of_nat (fst r))
  /\ (fst r < loop_fuel cfg -> not_converged cfg (snd r) = false).
Proof.
  intros r. split; [| split].
  - apply while_loop_likelihood. reflexivity.
  - unfold r, EMLoop.
    rewrite while_loop_counter by (simpl; split; [lia | reflexivity]).
    reflexivity.
  - intros Hn.
    pose proof (EMLoop_exits pdf flog cfg pass observations m) as Hg.
    fold r in Hg. unfold loop_guard in Hg.
    apply andb_false_iff in Hg. destruct Hg as [Hg | Hg]; [exact Hg |].
    apply negb_false_iff, Z.eqb_eq in Hg. exfalso.
    apply (counter_before_maxIterations cfg (fst r) Hn).
    rewrite <- Hg. unfold r, EMLoop.
    rewrite while_loop_counter by (simpl; split; [lia | reflexivity]).
    reflexivity.
Qed.

(** X8.  A model that a pass leaves as it is, is returned at the latest
    after one pass, whatever [maxIterations]: the difference of its
    log-likelihood with itself is not above the tolerance. *)
Theorem EMLoop_fixed_point {T : Type} `{Scalar T}
    (pdf : GaussianDistribution T -> vec T -> T) (flog : T -> T)
    (cfg : EMFit T) (pass : Mixture T -> Mixture T)
    (observations : mat T) (m : Mixture T) :
  pass m = m ->
  (let l := fst (LogLikelihood pdf flog observations m) in
   fgtb (fabs (sub l l)) (tolerance cfg) = false) ->
  let r := EMLoop pdf flog cfg pass observations m in
  ls_model (snd r) = m /\ fst r <= 1.
Proof.
  intros Hpass Hl r. unfold r, EMLoop.
  generalize (loop_fuel cfg) as fuel. intros fuel.
  destruct fuel as [| fuel]; [simpl; split; [reflexivity | lia] |].
  cbn [while_loop].
  destruct (loop_guard cfg (loop_entry pdf flog observations m));
    [| simpl; split; [reflexivity | lia]].
  assert (Hstop : while_loop (loop_guard cfg)
                    (loop_body pdf flog pass observations) fuel
                    (loop_body pdf flog pass observations
                       (loop_entry pdf flog observations m))
                  = (0, loop_body pdf flog pass observations
                          (loop_entry pdf flog observations m))).
  { destruct fuel as [| fuel]; [reflexivity |]. cbn [while_loop].
    replace (loop_guard cfg _) with false; [reflexivity |].
    symmetry. unfold loop_guard, not_converged.
    cbn [loop_body loop_entry ls_l ls_lOld ls_model].
    rewrite Hpass. cbv zeta in Hl. rewrite Hl. reflexivity. }
  rewrite Hstop. cbn [fst snd loop_body loop_entry ls_model].
  split; [exact Hpass | lia].
Qed.

Lemma EMLoop_fixed_point_witness :
  let r := EMLoop constant_density shifted_log (cfg_generic 100)
             (EMPass constant_density identity_policy two_points_binary64)
             two_points_binary64 fitted_binary64 in
  ls_model (snd r) = fitted_binary64 /\ fst r <= 1.
Proof.
  apply (EMLoop_fixed_point constant_density shifted_log (cfg_generic 100)
           (EMPass constant_density identity_policy two_points_binary64)
           two_points_binary64 fitted_binary64).
  - vm_compute. reflexivity.
  - vm_compute. reflexivity.
Defined.

(** ** The sum of the mixing weights after a pass *)

Section WeightSum.
Context {T : Type} `{ScalarLaws T}.
Variable pdf : GaussianDistribution T -> vec T -> T.
Variable flog : T -> T.

Add Ring scalar_ring_weight_sum : sl_ring.

(** The sum of a row that "Normalize row-wise" has been through. *)
Lemma accu_normalized_row (v : vec T) :
  accu (normalized_row v) = if feqb (accu v) zero then zero else one.
Proof.
  unfold normalized_row, fneb.
  destruct (feqb (accu v) zero) eqn:E; simpl.
  - apply sl_feqb. exact E.
  - assert (Hne : accu v <> zero).
    { intros E'. apply sl_feqb in E'. congruence. }
    rewrite accu_vdivs by exact Hne. apply div_self. exact Hne.
Qed.

Lemma accu_ext_imap {A : Type} (f g : nat -> A -> T) (l : list A) :
  (forall i a, f i a = g i a) -> accu (imap f l) = accu (imap g l).
Proof. intros E. f_equal. apply imap_ext. intros i a _. apply E. Qed.

(** Row [r] of the E-step sums to the mixture density of point [r]. *)
Lemma accu_row_EStep (observations : mat T) (m : Mixture T) (r : nat)
    (x : vec T) :
  observations !! r = Some x ->
  accu (row r (EStep pdf observations m)) = mixture_density pdf m x.
Proof.
  intros Hx. unfold row, EStep, mixture_density.
  rewrite <- imap_map, imap_imap. apply accu_ext_imap. intros i d.
  unfold vscale, Probability. rewrite map_map.
  rewrite (nth_lookup_Some _ r zero (mul (pdf d x) (nth i (weights m) zero))).
  - ring.
  - rewrite list_lookup_fmap, Hx. reflexivity.
Qed.

(** Counting with [accu]. *)
Lemma length_concat_if {A B : Type} (b : A -> bool) (g : nat -> B)
    (l : list A) :
  length (concat (imap (fun j a => if b a then [g j] else []) l))
  = length (filter (fun a => b a = true) l).
Proof.
  revert g. induction l as [| a l IH]; intros g; [reflexivity |].
  rewrite imap_cons. cbn [concat]. rewrite length_app.
  change (imap _ l) with (imap (fun j a => if b a then [g (S j)] else []) l).
  rewrite (IH (fun j => g (S j))).
  destruct (b a) eqn:E.
  - rewrite filter_cons_True by exact E. reflexivity.
  - rewrite filter_cons_False by congruence. reflexivity.
Qed.

Lemma accu_indicator {A : Type} (b : A -> bool) (l : list A) :
  accu (map (fun a => if b a then zero else one) l)
  = of_nat (length l - length (filter (fun a => b a = true) l)).
Proof.
  induction l as [| a l IH]; [reflexivity |].
  cbn [map]. rewrite accu_cons, IH.
  pose proof (length_filter (fun a => b a = true) l) as Hle.
  destruct (b a) eqn:E.
  - rewrite filter_cons_True by exact E. cbn [length].
    replace (S (length l) - S (length (filter (fun a => b a = true) l)))
      with (length l - length (filter (fun a => b a = true) l)) by lia.
    ring.
  - rewrite filter_cons_False by congruence. cbn [length].
    rewrite Nat.sub_succ_l by exact Hle. cbn [of_nat]. ring.
Qed.

Lemma accu_rows_condProb (observations : mat T) (m : Mixture T) :
  accu (map accu (NormalizeRows (length observations)
                    (EStep pdf observations m)))
  = accu (map (fun x => if feqb (mixture_density pdf m x) zero
                        then zero else one) observations).
Proof.
  rewrite (accu_columns_rows (length observations))
    by apply well_formed_NormalizeRows, well_formed_EStep.
  rewrite <- (map_seq_nth observations
                (fun x => if feqb (mixture_density pdf m x) zero
                          then zero else one) []).
  f_equal. apply map_ext_in. intros r Hr. apply in_seq in Hr.
  rewrite NormalizeRows_row by (auto using well_formed_EStep; lia).
  rewrite accu_normalized_row.
  rewrite (accu_row_EStep observations m r (nth r observations [])).
  - reflexivity.
  - rewrite nth_lookup. destruct (observations !! r) as [x |] eqn:E;
      [reflexivity |].
    apply lookup_ge_None in E. lia.
Qed.

(** The points that [LogLikelihood] reports. *)
Lemma LogLikelihood_reported (observations : mat T) (m : Mixture T) :
  snd (LogLikelihood pdf flog observations m)
  = zero_density_points pdf observations m.
Proof.
  unfold LogLikelihood, LogLikelihood_sum.
  rewrite likelihoods_columns, imap_fmap.
  exact (f_equal snd
           (LogLikelihood_sum_from flog
              (fun x => imap (fun i d => mul (nth i (weights m) zero) (pdf d x))
                             (dists m))
              observations 0 zero [])).
Qed.

End WeightSum.

(** X9.  In exact arithmetic the mixing weights that a pass of the
    unweighted overload leaves sum to the fraction of the points that
    [LogLikelihood] of the model before the pass does not report: the
    points whose mixture density is not 0. *)
Theorem EMPass_weights_sum {T : Type} `{ScalarLaws T}
    (pdf : GaussianDistribution T -> vec T -> T) (flog : T -> T)
    (policy : CovarianceConstraintPolicy T)
    (observations : mat T) (m : Mixture T) :
  observations <> [] ->
  accu (weights (EMPass pdf policy observations m))
  = div (of_nat (length observations
                 - length (snd (LogLikelihood pdf flog observations m))))
        (of_nat (length observations)).
Proof.
  intros Hobs.
  assert (Hn : of_nat (length observations) <> (zero : T)).
  { destruct observations as [| x xs]; [contradiction |].
    apply positive_ne, of_nat_positive. }
  unfold EMPass. cbn [weights].
  rewrite accu_vdivs by exact Hn. f_equal.
  rewrite accu_rows_condProb, accu_indicator.
  rewrite LogLikelihood_reported. unfold zero_density_points.
  rewrite length_concat_if. reflexivity.
Qed.


(** Of the two points of [outlier_points] the second is far from both
    means: it is reported, and the mixing weights sum to 1/2. *)
Lemma EMPass_weights_sum_witness :
  accu (weights (EMPass box_density identity_policy outlier_points
                   two_gaussians))
  = div (of_nat (length outlier_points
                 - length (snd (LogLikelihood box_density linear_log
                                  outlier_points two_gaussians))))
        (of_nat (length outlier_points)).
Proof.
  apply (EMPass_weights_sum box_density linear_log identity_policy
           outlier_points two_gaussians).
  discriminate.
Defined.

(** ** Normalising twice *)

Section Idempotent.
Context {T : Type} `{ScalarLaws T}.

Add Ring scalar_ring_idempotent : sl_ring.

(** Two matrices of the same shape with the same rows are equal. *)
Lemma mat_ext_rows (n : nat) (A B : mat T) :
  well_formed n A -> well_formed n B -> length A = length B ->
  (forall r, r < n -> row r A = row r B) -> A = B.
Proof.
  intros HA HB Hlen Hrows. apply list_eq. intros k.
  destruct (A !! k) as [cA |] eqn:EA.
  - destruct (B !! k) as [cB |] eqn:EB.
    2:{ apply lookup_ge_None in EB. apply lookup_lt_Some in EA. lia. }
    f_equal.
    pose proof (Forall_lookup_1 _ _ _ _ HA EA) as HcA.
    pose proof (Forall_lookup_1 _ _ _ _ HB EB) as HcB.
    simpl in HcA, HcB.
    apply list_eq. intros r.
    destruct (decide (r < n)) as [Hr | Hr].
    + pose proof (f_equal (fun v => nth k v zero) (Hrows r Hr)) as E.
      simpl in E. rewrite !nth_row in E.
      rewrite (nth_lookup_Some A k [] cA EA) in E.
      rewrite (nth_lookup_Some B k [] cB EB) in E.
      rewrite !nth_lookup in E.
      destruct (cA !! r) as [a |] eqn:Ea;
        [| apply lookup_ge_None in Ea; lia].
      destruct (cB !! r) as [b |] eqn:Eb;
        [| apply lookup_ge_None in Eb; lia].
      simpl in E. congruence.
    + rewrite (proj2 (lookup_ge_None cA r)) by lia.
      rewrite (proj2 (lookup_ge_None cB r)) by lia. reflexivity.
  - destruct (B !! k) as [cB |] eqn:EB; [| reflexivity].
    apply lookup_ge_None in EA. apply lookup_lt_Some in EB. lia.
Qed.

Lemma div_one (x : T) : div x one = x.
Proof.
  assert (H1 : (one : T) <> zero) by (apply positive_ne; exact sl_one_pos).
  rewrite sl_div by exact H1. rewrite (div_self one H1). ring.
Qed.

Lemma vdivs_one (v : vec T) : vdivs v one = v.
Proof.
  unfold vdivs. rewrite <- (map_id v) at 2. apply map_ext. intros x.
  apply div_one.
Qed.

Lemma normalized_row_idempotent (v : vec T) :
  normalized_row (normalized_row v) = normalized_row v.
Proof.
  unfold normalized_row at 2 3.
  destruct (fneb (accu v) zero) eqn:E.
  - assert (Hs : accu v <> zero) by (apply fneb_true; exact E).
    unfold normalized_row.
    rewrite accu_vdivs by exact Hs. rewrite div_self by exact Hs.
    assert (H1 : fneb (one : T) zero = true).
    { apply fneb_true, positive_ne. exact sl_one_pos. }
    rewrite H1. apply vdivs_one.
  - unfold normalized_row. rewrite E. reflexivity.
Qed.

End Idempotent.

(** X10.  In exact arithmetic "Normalize row-wise" changes nothing when it
    is run a second time: a row that was divided by its sum sums to 1, and
    a row that was left alone sums to 0 still. *)
Theorem NormalizeRows_idempotent {T : Type} `{ScalarLaws T}
    (n : nat) (condProb : mat T) :
  well_formed n condProb ->
  NormalizeRows n (NormalizeRows n condProb) = NormalizeRows n condProb.
Proof.
  intros Hwf.
  pose proof (well_formed_NormalizeRows n condProb Hwf) as Hwf1.
  apply (mat_ext_rows n).
  - apply well_formed_NormalizeRows. exact Hwf1.
  - exact Hwf1.
  - apply length_NormalizeRows. exact Hwf1.
  - intros r Hr.
    rewrite (NormalizeRows_row n r _ Hwf1 Hr).
    rewrite (NormalizeRows_row n r _ Hwf Hr).
    apply normalized_row_idempotent.
Qed.

(** Two rows, of which the second sums to 0. *)
Lemma NormalizeRows_idempotent_witness :
  let condProb := [[Qc_of_Z 1; 0%Qc]; [Qc_of_Z 3; 0%Qc]] in
  NormalizeRows 2 (NormalizeRows 2 condProb) = NormalizeRows 2 condProb.
Proof.
  apply (NormalizeRows_idempotent 2 [[Qc_of_Z 1; 0%Qc]; [Qc_of_Z 3; 0%Qc]]).
  repeat constructor.
Defined.

(** ** Seeding the learner and reading it back *)

Section DiagFacts.
Context {T : Type} `{Scalar T}.

Lemma diag_diagmat (v : vec T) : diag (diagmat v) = v.
Proof.
  unfold diag, diagmat. rewrite imap_imap.
  transitivity (imap (fun _ x => x) v); [| apply imap_id].
  apply imap_ext. intros j x Hx.
  apply nth_insert_same. unfold zeros. rewrite length_replicate.
  apply lookup_lt_Some in Hx. exact Hx.
Qed.

End DiagFacts.

(** X11.  What the wrapper hands to the learner and what it reads back
    fit together: seeded with a model, around a learner that leaves its
    object as it is, the wrapper returns the means and the mixing weights
    of the model as they are, and of each covariance the diagonal, the
    other entries 0.  A second run from the result returns the result. *)
Theorem ArmadilloGMMWrapper_seed_round_trip {T : Type} `{Scalar T}
    (gmm_learn : learn_args T -> gmm_diag T -> gmm_diag T)
    (default_tolerance : T) (cfg : EMFit T) (observations : mat T)
    (m : Mixture T) :
  (forall args g, gmm_learn args g = g) ->
  let run m := snd (ArmadilloGMMWrapper gmm_learn default_tolerance cfg
                      observations m true) in
  run m
  = {| dists :=
         map (fun d => {| Mean := Mean d;
                          Covariance := diagmat (diag (Covariance d)) |})
             (dists m);
       weights := weights m |}
  /\ run (run m) = run m.
Proof.
  intros Hlearn.
  assert (Hrun : forall m',
    snd (ArmadilloGMMWrapper gmm_learn default_tolerance cfg
           observations m' true)
    = {| dists :=
           map (fun d => {| Mean := Mean d;
                            Covariance := diagmat (diag (Covariance d)) |})
               (dists m');
         weights := weights m' |}).
  { intros m'. unfold ArmadilloGMMWrapper, read_gmm.
    rewrite orb_true_r, Hlearn. cbn [negb snd g_means g_dcovs g_hefts].
    f_equal. etransitivity; [| apply imap_map].
    apply imap_ext. intros i d Hd. f_equal.
    - apply nth_lookup_Some. rewrite list_lookup_fmap, Hd. reflexivity.
    - f_equal. apply nth_lookup_Some. rewrite list_lookup_fmap, Hd.
      reflexivity. }
  intros run. unfold run. split; [apply Hrun |].
  rewrite !Hrun. cbn [dists weights]. f_equal.
  rewrite map_map. apply map_ext. intros d. cbn [Mean Covariance].
  rewrite diag_diagmat. reflexivity.
Qed.

Lemma ArmadilloGMMWrapper_seed_round_trip_witness :
  let run m := snd (ArmadilloGMMWrapper learn_nothing lit_1e_10
                      (cfg_generic 3) plane_points_binary64 m true) in
  run correlated_binary64
  = {| dists :=
         map (fun d => {| Mean := Mean d;
                          Covariance := diagmat (diag (Covariance d)) |})
             (dists correlated_binary64);
       weights := weights correlated_binary64 |}
  /\ run (run correlated_binary64) = run correlated_binary64.
Proof.
  apply (ArmadilloGMMWrapper_seed_round_trip learn_nothing lit_1e_10
           (cfg_generic 3) plane_points_binary64 correlated_binary64).
  reflexivity.
Defined.

(** ** The dimension of the model *)

Section Dimension.
Context {T : Type} `{Scalar T}.
Variable D : nat.

Lemma length_vadd (u v : vec T) :
  length u = D -> length v = D -> length (vadd u v) = D.
Proof. intros Hu Hv. unfold vadd. rewrite length_zip_with. lia. Qed.

Lemma length_vsub (u v : vec T) :
  length u = D -> length v = D -> length (vsub u v) = D.
Proof. intros Hu Hv. unfold vsub. rewrite length_zip_with. lia. Qed.

Lemma length_vscale (v : vec T) (s : T) : length (vscale v s) = length v.
Proof. apply List.length_map. Qed.

Lemma square_mzeros : square D (mzeros D D : mat T).
Proof.
  unfold square, mzeros, zeros. rewrite length_replicate. split; [reflexivity |].
  apply Forall_replicate. apply length_replicate.
Qed.

Lemma square_outer (u v : vec T) :
  length u = D -> length v = D -> square D (outer u v).
Proof.
  intros Hu Hv. unfold square, outer. rewrite List.length_map.
  split; [exact Hv |]. apply Forall_forall. intros c Hc.
  apply in_map_iff in Hc. destruct Hc as (y & <- & _).
  rewrite length_vscale. exact Hu.
Qed.

Lemma square_madd (A B : mat T) :
  square D A -> square D B -> square D (madd A B).
Proof.
  intros [HA HwA] [HB HwB]. unfold square, madd.
  rewrite length_zip_with. split; [lia |].
  apply Forall_forall. intros c Hc.
  apply list_elem_of_In, elem_of_lookup_zip_with in Hc.
  destruct Hc as (i & a & b & -> & Ha & Hb).
  apply length_vadd.
  - exact (Forall_lookup_1 _ _ _ _ HwA Ha).
  - exact (Forall_lookup_1 _ _ _ _ HwB Hb).
Qed.

Lemma square_mdivs (A : mat T) (s : T) : square D A -> square D (mdivs A s).
Proof.
  intros [HA HwA]. unfold square, mdivs. rewrite List.length_map.
  split; [exact HA |]. apply Forall_forall. intros c Hc.
  apply in_map_iff in Hc. destruct Hc as (a & <- & Ha).
  rewrite length_vdivs. rewrite Forall_forall in HwA. apply HwA. exact Ha.
Qed.

Lemma n_rows_well_formed (A : mat T) :
  A <> [] -> well_formed D A -> n_rows A = D.
Proof.
  intros HA Hwf. destruct A as [| c A]; [contradiction |].
  simpl. inversion Hwf; subst. reflexivity.
Qed.

Lemma length_mat_vec (A : mat T) (v : vec T) :
  A <> [] -> well_formed D A -> length (mat_vec A v) = D.
Proof.
  intros HA Hwf. unfold mat_vec. rewrite (n_rows_well_formed A HA Hwf).
  assert (Hz : length (zeros D : vec T) = D) by apply length_replicate.
  revert Hz. generalize (zeros D : vec T) as acc.
  assert (Hzip : Forall (fun cx : vec T * T => length (fst cx) = D) (zip A v)).
  { apply Forall_forall. intros [c x] Hcx.
    apply list_elem_of_In, elem_of_zip_l in Hcx.
    unfold well_formed in Hwf. rewrite Forall_forall in Hwf.
    apply Hwf, list_elem_of_In. exact Hcx. }
  induction Hzip as [| cx l Hcx Hl IH]; intros acc Hacc; simpl.
  - exact Hacc.
  - apply IH. apply length_vadd; [exact Hacc |].
    rewrite length_vscale. exact Hcx.
Qed.

Lemma square_mat_mul_trans (A B : mat T) :
  A <> [] -> B <> [] -> well_formed D A -> well_formed D B ->
  square D (mat_mul_trans A B).
Proof.
  intros HA HB HwA HwB. unfold mat_mul_trans.
  rewrite (n_rows_well_formed A HA HwA), (n_rows_well_formed B HB HwB).
  generalize (square_mzeros). generalize (mzeros D D : mat T) as acc.
  assert (Hzip : Forall (fun ab : vec T * vec T =>
                           length (fst ab) = D /\ length (snd ab) = D)
                        (zip A B)).
  { apply Forall_forall. intros [a b] Hab. apply list_elem_of_In in Hab.
    split; simpl.
    - apply elem_of_zip_l in Hab. unfold well_formed in HwA.
      rewrite Forall_forall in HwA. apply HwA, list_elem_of_In. exact Hab.
    - apply elem_of_zip_r in Hab. unfold well_formed in HwB.
      rewrite Forall_forall in HwB. apply HwB, list_elem_of_In. exact Hab. }
  induction Hzip as [| ab l [Ha Hb] Hl IH]; intros acc Hacc; simpl.
  - exact Hacc.
  - apply IH. apply square_madd; [exact Hacc |].
    apply square_outer; assumption.
Qed.

Lemma well_formed_centred (observations : mat T) (mean : vec T) :
  well_formed D observations -> length mean = D ->
  well_formed D (centred observations mean).
Proof.
  intros Hwf Hm. unfold centred, well_formed. apply Forall_forall.
  intros c Hc. apply in_map_iff in Hc. destruct Hc as (x & <- & Hx).
  apply length_vsub; [| exact Hm].
  unfold well_formed in Hwf. rewrite Forall_forall in Hwf. apply Hwf. exact Hx.
Qed.

Lemma well_formed_centred_weighted (tmp : mat T) (c : vec T) :
  well_formed D tmp -> well_formed D (centred_weighted tmp c).
Proof.
  intros Hwf. unfold centred_weighted, well_formed. apply Forall_forall.
  intros t Ht. apply list_elem_of_In, elem_of_lookup_zip_with in Ht.
  destruct Ht as (i & a & b & -> & Ha & Hb).
  rewrite length_vscale. exact (Forall_lookup_1 _ _ _ _ Hwf Ha).
Qed.

Lemma centred_weighted_nonempty (tmp : mat T) (c : vec T) :
  tmp <> [] -> c <> [] -> centred_weighted tmp c <> [].
Proof.
  intros Ht Hc. destruct tmp; [contradiction |]. destruct c; [contradiction |].
  discriminate.
Qed.

Lemma centred_nonempty (observations : mat T) (mean : vec T) :
  observations <> [] -> centred observations mean <> [].
Proof. intros Ho. destruct observations; [contradiction | discriminate]. Qed.

(** The M-step of a component keeps the dimension. *)
Lemma update_dist_dimension policy (observations : mat T) (c : vec T) (s : T)
    (d : GaussianDistribution T) :
  observations <> [] -> well_formed D observations -> c <> [] ->
  keeps_dimension D policy ->
  length (Mean d) = D /\ square D (Covariance d) ->
  length (Mean (update_dist policy observations c s d)) = D
  /\ square D (Covariance (update_dist policy observations c s d)).
Proof.
  intros Ho Hwf Hc Hpol [Hm Hcov]. unfold update_dist.
  destruct (fneb s zero); cbn [Mean Covariance].
  - assert (Hmean : length (vdivs (mat_vec observations c) s) = D).
    { rewrite length_vdivs. apply length_mat_vec; assumption. }
    split; [exact Hmean |].
    apply Hpol, square_mdivs, square_mat_mul_trans.
    + apply centred_nonempty. exact Ho.
    + apply centred_weighted_nonempty; [apply centred_nonempty |]; assumption.
    + apply well_formed_centred; assumption.
    + apply well_formed_centred_weighted, well_formed_centred; assumption.
  - split; assumption.
Qed.

Lemma update_dist_weighted_dimension policy (observations : mat T)
    (probabilities c : vec T) (d : GaussianDistribution T) :
  observations <> [] -> well_formed D observations ->
  c <> [] -> probabilities <> [] ->
  keeps_dimension D policy ->
  length (Mean (update_dist_weighted policy observations probabilities c d)) = D
  /\ square D
       (Covariance (update_dist_weighted policy observations probabilities c d)).
Proof.
  intros Ho Hwf Hc Hp Hpol. unfold update_dist_weighted.
  cbn [Mean Covariance].
  assert (Hmean : length (vdivs (mat_vec observations (schur c probabilities))
                                (accu (schur c probabilities))) = D).
  { rewrite length_vdivs. apply length_mat_vec; assumption. }
  split; [exact Hmean |].
  apply Hpol, square_mdivs, square_mat_mul_trans.
  - apply centred_nonempty. exact Ho.
  - apply centred_weighted_nonempty; [apply centred_nonempty; exact Ho |].
    destruct c; [contradiction |]. destruct probabilities; [contradiction |].
    discriminate.
  - apply well_formed_centred; assumption.
  - apply well_formed_centred_weighted, well_formed_centred; assumption.
Qed.

Variable pdf : GaussianDistribution T -> vec T -> T.

(** The columns of [condProb] that the M-step reads are not empty. *)
Lemma condProb_column_nonempty (observations : mat T) (m : Mixture T)
    (i : nat) :
  observations <> [] -> i < length (dists m) ->
  nth i (NormalizeRows (length observations) (EStep pdf observations m)) []
  <> [].
Proof.
  intros Ho Hi.
  pose proof (well_formed_NormalizeRows (length observations) _
                (well_formed_EStep pdf observations m)) as Hwf.
  pose proof (length_NormalizeRows (length observations) _
                (well_formed_EStep pdf observations m)) as Hlen.
  rewrite length_EStep in Hlen.
  set (C := NormalizeRows (length observations) (EStep pdf observations m)) in *.
  destruct (C !! i) as [c |] eqn:E.
  - rewrite (nth_lookup_Some _ i [] c E).
    pose proof (Forall_lookup_1 _ _ _ _ Hwf E) as Hc. simpl in Hc.
    destruct c; [| discriminate].
    destruct observations; [contradiction | discriminate].
  - apply lookup_ge_None in E. lia.
Qed.

Lemma EMPass_dimension policy (observations : mat T) (m : Mixture T) :
  observations <> [] -> well_formed D observations ->
  keeps_dimension D policy ->
  has_dimension D m -> has_dimension D (EMPass pdf policy observations m).
Proof.
  intros Ho Hwf Hpol Hm. unfold has_dimension, EMPass. cbn [dists].
  apply Forall_lookup_2. intros i d' Hd'.
  rewrite list_lookup_imap in Hd'.
  destruct (dists m !! i) as [d |] eqn:Ed; [| discriminate].
  injection Hd' as <-.
  apply update_dist_dimension; try assumption.
  - apply condProb_column_nonempty; [exact Ho |].
    apply lookup_lt_Some in Ed. exact Ed.
  - exact (Forall_lookup_1 _ _ _ _ Hm Ed).
Qed.

Lemma EMPass_weighted_dimension policy (observations : mat T)
    (probabilities : vec T) (m : Mixture T) :
  observations <> [] -> well_formed D observations ->
  probabilities <> [] ->
  keeps_dimension D policy ->
  has_dimension D (EMPass_weighted pdf policy observations probabilities m).
Proof.
  intros Ho Hwf Hp Hpol. unfold has_dimension, EMPass_weighted. cbn [dists].
  apply Forall_lookup_2. intros i d' Hd'.
  rewrite list_lookup_imap in Hd'.
  destruct (dists m !! i) as [d |] eqn:Ed; [| discriminate].
  injection Hd' as <-.
  apply update_dist_weighted_dimension; try assumption.
  apply condProb_column_nonempty; [exact Ho |].
  apply lookup_lt_Some in Ed. exact Ed.
Qed.

End Dimension.

Section DimensionInitial.
Context {T : Type} `{Scalar T}.
Variable D : nat.

(** What holds of every entry of a list holds after a fold that alters
    one entry per step. *)
Lemma Forall_fold_left_alter {A X : Type} (P : A -> Prop)
    (G : X * nat -> A -> A) (pts : list (X * nat)) (l0 : list A) :
  (forall xc a, In xc pts -> snd xc < length l0 -> P a -> P (G xc a)) ->
  Forall P l0 ->
  Forall P (fold_left (fun l xc => alter (G xc) (snd xc) l) pts l0).
Proof.
  revert l0. induction pts as [| xc pts IH]; intros l0 HG Hl0; simpl.
  - exact Hl0.
  - apply IH.
    + intros xc' a Hin. rewrite length_alter. apply HG. right. exact Hin.
    + apply Forall_alter; [exact Hl0 |]. intros a Ha. apply HG.
      * left. reflexivity.
      * apply lookup_lt_Some in Ha. exact Ha.
Qed.

Lemma square_mzeros_like (A : mat T) :
  square D A -> square D (mzeros (n_rows A) (length A) : mat T).
Proof.
  intros [HA Hwf]. destruct A as [| c A].
  - split; [exact HA | constructor].
  - simpl n_rows. inversion Hwf as [| ? ? Hc _]; subst.
    rewrite Hc. apply square_mzeros.
Qed.

Lemma InitialClustering_dimension (cfg : EMFit T) (observations : mat T)
    (m : Mixture T) :
  well_formed D observations ->
  keeps_dimension D (constraint cfg) ->
  has_dimension D m -> has_dimension D (InitialClustering cfg observations m).
Proof.
  intros Hwf Hpol Hm. unfold InitialClustering.
  rewrite fold_left_accumulate_point.
  set (pts := zip observations _).
  assert (Hpts : forall xc, In xc pts -> length (fst xc) = D).
  { intros [x c] Hxc. apply list_elem_of_In, elem_of_zip_l in Hxc.
    unfold well_formed in Hwf. rewrite Forall_forall in Hwf.
    apply Hwf, list_elem_of_In. exact Hxc. }
  set (means1 := fold_left _ pts (map _ (dists m))).
  set (weights1 := fold_left _ pts (zeros _)).
  set (covs1 := fold_left _ pts (map _ (dists m))).
  set (means2 := imap _ means1).
  rewrite fold_left_accumulate_centred.
  set (covs2 := fold_left _ pts covs1).
  unfold has_dimension in Hm. rewrite Forall_forall in Hm.
  assert (Hmeans1 : Forall (fun mu => length mu = D) means1).
  { apply Forall_fold_left_alter.
    - intros xc mu Hin _ Hmu. apply length_vadd; [exact Hmu | auto].
    - apply Forall_forall. intros mu Hmu. apply in_map_iff in Hmu.
      destruct Hmu as (d & <- & Hd). unfold zeros. rewrite length_replicate.
      apply (Hm d Hd). }
  assert (Hlm1 : length means1 = length (dists m)).
  { unfold means1. rewrite length_fold_left_alter. apply List.length_map. }
  assert (Hmeans2 : Forall (fun mu => length mu = D) means2).
  { apply Forall_lookup_2. intros i mu Hmu. unfold means2 in Hmu.
    rewrite list_lookup_imap in Hmu.
    destruct (means1 !! i) as [mu1 |] eqn:E; [| discriminate].
    injection Hmu as <-. rewrite length_vdivs.
    exact (Forall_lookup_1 _ _ _ _ Hmeans1 E). }
  assert (Hlm2 : length means2 = length (dists m)).
  { unfold means2. rewrite length_imap. exact Hlm1. }
  assert (Hcovs1 : Forall (square D) covs1).
  { apply Forall_fold_left_alter.
    - intros xc c Hin _ Hc. apply square_madd; [exact Hc |].
      apply square_outer; auto.
    - apply Forall_forall. intros c Hc. apply in_map_iff in Hc.
      destruct Hc as (d & <- & Hd). apply square_mzeros_like.
      apply (Hm d Hd). }
  assert (Hlc1 : length covs1 = length (dists m)).
  { unfold covs1. rewrite length_fold_left_alter. apply List.length_map. }
  assert (Hcovs2 : Forall (square D) covs2).
  { apply Forall_fold_left_alter; [| exact Hcovs1].
    intros xc c Hin Hlt Hc. apply square_madd; [exact Hc |].
    assert (Hlen : length (vsub (fst xc) (nth (snd xc) means2 [])) = D).
    { apply length_vsub; [apply Hpts; exact Hin |].
      destruct (means2 !! snd xc) as [mu |] eqn:E.
      - rewrite (nth_lookup_Some _ _ [] mu E).
        exact (Forall_lookup_1 _ _ _ _ Hmeans2 E).
      - apply lookup_ge_None in E. lia. }
    apply square_outer; exact Hlen. }
  assert (Hlc2 : length covs2 = length (dists m)).
  { unfold covs2. rewrite length_fold_left_alter. exact Hlc1. }
  unfold has_dimension. cbn [dists].
  apply Forall_lookup_2. intros i d' Hd'.
  rewrite list_lookup_imap in Hd'.
  destruct (dists m !! i) as [d |] eqn:Ed; [| discriminate].
  injection Hd' as <-. cbn [Mean Covariance].
  apply lookup_lt_Some in Ed.
  split.
  - destruct (means2 !! i) as [mu |] eqn:E.
    + rewrite (nth_lookup_Some _ _ [] mu E).
      exact (Forall_lookup_1 _ _ _ _ Hmeans2 E).
    + apply lookup_ge_None in E. lia.
  - apply Hpol, square_mdivs.
    destruct (covs2 !! i) as [c |] eqn:E.
    + rewrite (nth_lookup_Some _ _ [] c E).
      exact (Forall_lookup_1 _ _ _ _ Hcovs2 E).
    + apply lookup_ge_None in E. lia.
Qed.

End DimensionInitial.

(** X12.  The dimension of the model is kept.  For at least one point,
    every point with [D] coordinates, a policy that returns a [D] by [D]
    matrix for each [D] by [D] matrix, and a model of dimension [D], the
    model that [Estimate] returns on the generic path has dimension [D];
    so has the model that the weighted overload returns, given one point
    weight per point. *)
Theorem Estimate_keeps_dimension {T : Type} `{Scalar T}
    (pdf : GaussianDistribution T -> vec T -> T) (flog : T -> T)
    (gmm_learn : learn_args T -> gmm_diag T -> gmm_diag T)
    (WIN32 : bool) (default_tolerance : T) (cfg : EMFit T)
    (observations : mat T) (probabilities : vec T) (m : Mixture T)
    (useInitialModel : bool) (D : nat) :
  observations <> [] ->
  well_formed D observations ->
  length probabilities = length observations ->
  keeps_dimension D (constraint cfg) ->
  has_dimension D m ->
  WIN32 = true \/ is_DiagonalConstraint (constraint cfg) = false ->
  has_dimension D
    (Estimate pdf flog gmm_learn WIN32 default_tolerance cfg observations m
       useInitialModel)
  /\ has_dimension D
       (Estimate_weighted pdf flog cfg observations probabilities m
          useInitialModel).
Proof.
  intros Ho Hwf Hlen Hpol Hm Hpath.
  assert (Hp : probabilities <> []).
  { intros ->. destruct observations; [contradiction | discriminate]. }
  assert (Hseed :
    has_dimension D (if negb useInitialModel
                     then InitialClustering cfg observations m else m)).
  { destruct useInitialModel; simpl;
      [exact Hm | apply InitialClustering_dimension; assumption]. }
  split.
  - unfold Estimate.
    replace (negb WIN32 && is_DiagonalConstraint (constraint cfg)) with false.
    2:{ destruct Hpath as [-> | ->]; [reflexivity |].
        symmetry. apply andb_false_r. }
    unfold EMLoop.
    apply (while_loop_model_invariant pdf flog (has_dimension D));
      [| exact Hseed].
    intros m' Hm'. apply EMPass_dimension; assumption.
  - unfold Estimate_weighted, EMLoop.
    apply (while_loop_model_invariant pdf flog (has_dimension D));
      [| exact Hseed].
    intros m' _. apply EMPass_weighted_dimension; assumption.
Qed.

Lemma Estimate_keeps_dimension_witness :
  has_dimension 1
    (Estimate constant_density shifted_log learn_nothing true lit_1e_10
       (cfg_generic 3) two_points_binary64 unseeded_binary64 false)
  /\ has_dimension 1
       (Estimate_weighted constant_density shifted_log (cfg_generic 3)
          two_points_binary64 [1%float; 1%float] unseeded_binary64 false).
Proof.
  apply (Estimate_keeps_dimension constant_density shifted_log learn_nothing
           true lit_1e_10 (cfg_generic 3) two_points_binary64
           [1%float; 1%float] unseeded_binary64 false 1).
  - discriminate.
  - repeat constructor.
  - reflexivity.
  - intros A HA. exact HA.
  - repeat constructor.
  - left. reflexivity.
Defined.

(** ** The convergence test on a log-likelihood that is not a number *)

Section NotANumber.

Lemma Prim2SF_nan (x : float) :
  PrimFloat.is_nan x = true -> Prim2SF x = S754_nan.
Proof.
  intros Hx. unfold PrimFloat.is_nan in Hx.
  rewrite FloatAxioms.eqb_spec in Hx.
  destruct (Prim2SF x) as [s | s | | s mx ex]; try reflexivity.
  - destruct s; discriminate.
  - destruct s; discriminate.
  - exfalso. revert Hx. unfold SFeqb, SFcompare.
    destruct s; rewrite Z.compare_refl, Pos.compare_cont_refl; discriminate.
Qed.

Lemma ltb_nan_r (x y : float) :
  Prim2SF y = S754_nan -> PrimFloat.ltb x y = false.
Proof.
  intros Hy. rewrite FloatAxioms.ltb_spec, Hy. unfold SFltb, SFcompare.
  destruct (Prim2SF x) as [s | s | | s mx ex]; try reflexivity;
    destruct s; reflexivity.
Qed.

Lemma ltb_nan_l (x y : float) :
  Prim2SF x = S754_nan -> PrimFloat.ltb x y = false.
Proof.
  intros Hx. rewrite FloatAxioms.ltb_spec, Hx. reflexivity.
Qed.

Lemma abs_nan (x : float) :
  Prim2SF x = S754_nan -> Prim2SF (PrimFloat.abs x) = S754_nan.
Proof. intros Hx. rewrite FloatAxioms.abs_spec, Hx. reflexivity. Qed.

Lemma sub_nan_l (x y : float) :
  Prim2SF x = S754_nan -> Prim2SF (PrimFloat.sub x y) = S754_nan.
Proof.
  intros Hx. rewrite FloatAxioms.sub_spec, Hx. unfold SF64sub, SFsub.
  reflexivity.
Qed.

Lemma sub_nan_r (x y : float) :
  Prim2SF y = S754_nan -> Prim2SF (PrimFloat.sub x y) = S754_nan.
Proof.
  intros Hy. rewrite FloatAxioms.sub_spec, Hy. unfold SF64sub, SFsub.
  destruct (Prim2SF x) as [s | s | | s mx ex]; reflexivity.
Qed.

End NotANumber.

(** X13.  In binary64 the convergence test [std::abs(l - lOld) > tolerance]
    is false when the log-likelihood or the tolerance is not a number.  So
    when the log-likelihood of the model on entry of the loop, or the
    tolerance, is not a number, [Estimate] on the generic path and the
    weighted overload return that model, without a pass. *)
Theorem Estimate_stops_on_nan
    (pdf : GaussianDistribution float -> vec float -> float)
    (flog : float -> float)
    (gmm_learn : learn_args float -> gmm_diag float -> gmm_diag float)
    (WIN32 : bool) (default_tolerance : float) (cfg : EMFit float)
    (observations : mat float) (probabilities : vec float)
    (m : Mixture float) (useInitialModel : bool) :
  let m0 :=
    if negb useInitialModel then InitialClustering cfg observations m else m in
  WIN32 = true \/ is_DiagonalConstraint (constraint cfg) = false ->
  PrimFloat.is_nan (fst (LogLikelihood pdf flog observations m0)) = true
  \/ PrimFloat.is_nan (tolerance cfg) = true ->
  Estimate pdf flog gmm_learn WIN32 default_tolerance cfg observations m
    useInitialModel = m0
  /\ Estimate_weighted pdf flog cfg observations probabilities m
       useInitialModel = m0.
Proof.
  intros m0 Hpath Hnan.
  assert (Hstop : forall pass,
            EMLoop pdf flog cfg pass observations m0
            = (0, loop_entry pdf flog observations m0)).
  { intros pass. unfold EMLoop.
    generalize (loop_fuel cfg) as fuel. intros [| fuel]; [reflexivity |].
    cbn [while_loop].
    replace (loop_guard cfg (loop_entry pdf flog observations m0)) with false;
      [reflexivity |].
    symmetry. unfold loop_guard, not_converged.
    cbn [loop_entry ls_l ls_lOld fgtb fabs sub float_Scalar].
    destruct Hnan as [Hnan | Hnan].
    - rewrite ltb_nan_r; [reflexivity |].
      apply abs_nan, sub_nan_l, Prim2SF_nan. exact Hnan.
    - rewrite ltb_nan_l; [reflexivity |].
      apply Prim2SF_nan. exact Hnan. }
  split.
  - unfold Estimate.
    replace (negb WIN32 && is_DiagonalConstraint (constraint cfg)) with false.
    2:{ destruct Hpath as [-> | ->]; [reflexivity |].
        symmetry. apply andb_false_r. }
    fold m0. rewrite Hstop. reflexivity.
  - unfold Estimate_weighted. fold m0. rewrite Hstop. reflexivity.
Qed.

(** One point, and one component that has mixing weight 0 and an infinite
    density at the point, as a Gaussian with covariance 0 has at its mean:
    the log-likelihood is that of [0 * infinity]. *)
Lemma Estimate_stops_on_nan_witness :
  let m := {| dists := [gaussian1 1%float 0%float]; weights := [0%float] |} in
  let pdf := fun (_ : GaussianDistribution float) (_ : vec float) => infinity in
  let flog := fun x : float => (x - 1)%float in
  Estimate pdf flog learn_nothing true lit_1e_10 (cfg_generic 100) one_point m
    true = m
  /\ Estimate_weighted pdf flog (cfg_generic 100) one_point [1%float] m true = m.
Proof.
  intros m pdf flog.
  apply (Estimate_stops_on_nan pdf flog learn_nothing true lit_1e_10
           (cfg_generic 100) one_point [1%float] m true).
  - left. reflexivity.
  - left. vm_compute. reflexivity.
Defined.

(** ** Point weights up to a common factor *)

Section PointWeightScale.
Context {T : Type} `{ScalarLaws T}.
Variable a : T.

Add Ring scalar_ring_scale : sl_ring.

#[local] Abbreviation mscale M := (map (fun c : vec T => vscale c a) M).

Lemma vscale_vscale (x : vec T) (y : T) :
  vscale (vscale x y) a = vscale x (mul y a).
Proof.
  unfold vscale. rewrite map_map. apply map_ext. intros u. ring.
Qed.

Lemma vscale_vadd (u w : vec T) :
  vscale (vadd u w) a = vadd (vscale u a) (vscale w a).
Proof.
  unfold vscale, vadd. revert w.
  induction u as [| x u IH]; intros [| y w]; simpl; try reflexivity.
  f_equal; [ring | apply IH].
Qed.

Lemma vscale_zeros (n : nat) : vscale (zeros n : vec T) a = zeros n.
Proof.
  unfold vscale, zeros. induction n as [| n IH]; simpl; [reflexivity |].
  f_equal; [ring | exact IH].
Qed.

Lemma schur_vscale (c p : vec T) :
  schur c (vscale p a) = vscale (schur c p) a.
Proof.
  unfold schur, vscale. revert p.
  induction c as [| x c IH]; intros [| y p]; simpl; try reflexivity.
  f_equal; [ring | apply IH].
Qed.

Lemma mat_vec_vscale (A : mat T) (v : vec T) :
  mat_vec A (vscale v a) = vscale (mat_vec A v) a.
Proof.
  unfold mat_vec. rewrite <- (vscale_zeros (n_rows A)) at 1.
  generalize (zeros (n_rows A) : vec T) as acc. revert v.
  induction A as [| x A IH]; intros [| y v] acc; simpl; try reflexivity.
  rewrite <- vscale_vscale, <- vscale_vadd. apply IH.
Qed.

Lemma mscale_madd (A B : mat T) :
  mscale (madd A B) = madd (mscale A) (mscale B).
Proof.
  unfold madd. revert B.
  induction A as [| x A IH]; intros [| y B]; simpl; try reflexivity.
  f_equal; [apply vscale_vadd | apply IH].
Qed.

Lemma mscale_mzeros (r c : nat) : mscale (mzeros r c : mat T) = mzeros r c.
Proof.
  unfold mzeros. induction c as [| c IH]; simpl; [reflexivity |].
  f_equal; [apply vscale_zeros | exact IH].
Qed.

Lemma outer_vscale (u w : vec T) : outer u (vscale w a) = mscale (outer u w).
Proof.
  unfold outer. change (vscale w a) with (map (fun x => mul x a) w).
  rewrite !map_map. apply map_ext. intros y.
  symmetry. apply vscale_vscale.
Qed.

Lemma n_rows_mscale (B : mat T) : n_rows (mscale B) = n_rows B.
Proof. destruct B as [| c B]; [reflexivity |]. simpl. apply List.length_map. Qed.

Lemma mat_mul_trans_mscale (A B : mat T) :
  mat_mul_trans A (mscale B) = mscale (mat_mul_trans A B).
Proof.
  unfold mat_mul_trans. rewrite n_rows_mscale.
  rewrite <- (mscale_mzeros (n_rows A) (n_rows B)) at 1.
  generalize (mzeros (n_rows A) (n_rows B) : mat T) as acc. revert B.
  induction A as [| x A IH]; intros [| y B] acc; simpl; try reflexivity.
  rewrite outer_vscale, <- mscale_madd. apply IH.
Qed.

Lemma centred_weighted_vscale (tmp : mat T) (c : vec T) :
  centred_weighted tmp (vscale c a) = mscale (centred_weighted tmp c).
Proof.
  unfold centred_weighted. revert c.
  induction tmp as [| t tmp IH]; intros [| y c]; simpl; try reflexivity.
  f_equal; [symmetry; apply vscale_vscale | apply IH].
Qed.

Hypothesis a_nonzero : a <> zero.

Lemma mul_nonzero (s : T) : s <> zero -> mul s a <> zero.
Proof.
  intros Hs E.
  assert (E' : mul (mul s a) (div one a) = zero) by (rewrite E; ring).
  replace (mul (mul s a) (div one a)) with (mul s (mul (div one a) a)) in E'
    by ring.
  rewrite sl_inv in E' by exact a_nonzero. apply Hs. rewrite <- E'. ring.
Qed.

Lemma div_mul_cancel (x s : T) :
  s <> zero -> div (mul x a) (mul s a) = div x s.
Proof.
  intros Hs. pose proof (mul_nonzero s Hs) as Hsa.
  rewrite (sl_div _ _ Hsa), (sl_div _ _ Hs).
  assert (E : div one (mul s a) = mul (div one s) (div one a)).
  { transitivity (mul (mul (div one (mul s a)) (mul s a))
                      (mul (div one s) (div one a))).
    - replace (mul (mul (div one (mul s a)) (mul s a))
                  (mul (div one s) (div one a)))
        with (mul (div one (mul s a))
                  (mul (mul (div one s) s) (mul (div one a) a))) by ring.
      rewrite (sl_inv _ Hs), (sl_inv _ a_nonzero). ring.
    - rewrite (sl_inv _ Hsa). ring. }
  rewrite E.
  replace (mul (mul x a) (mul (div one s) (div one a)))
    with (mul (mul x (div one s)) (mul (div one a) a)) by ring.
  rewrite (sl_inv _ a_nonzero). ring.
Qed.

Lemma vdivs_vscale (v : vec T) (s : T) :
  s <> zero -> vdivs (vscale v a) (mul s a) = vdivs v s.
Proof.
  intros Hs. unfold vdivs, vscale. rewrite map_map. apply map_ext.
  intros x. apply div_mul_cancel. exact Hs.
Qed.

Lemma mdivs_mscale (M : mat T) (s : T) :
  s <> zero -> mdivs (mscale M) (mul s a) = mdivs M s.
Proof.
  intros Hs. unfold mdivs. rewrite map_map. apply map_ext.
  intros c. apply vdivs_vscale. exact Hs.
Qed.

Lemma update_dist_weighted_vscale policy (observations : mat T)
    (probabilities c : vec T) (d : GaussianDistribution T) :
  accu (schur c probabilities) <> zero ->
  update_dist_weighted policy observations (vscale probabilities a) c d
  = update_dist_weighted policy observations probabilities c d.
Proof.
  intros Hs. unfold update_dist_weighted.
  rewrite schur_vscale, accu_vscale, mat_vec_vscale.
  rewrite (vdivs_vscale _ _ Hs).
  rewrite centred_weighted_vscale, mat_mul_trans_mscale.
  rewrite (mdivs_mscale _ _ Hs). reflexivity.
Qed.

End PointWeightScale.

(** X14.  In exact arithmetic a pass of the weighted overload depends on
    the point weights only up to a common factor: multiplying every point
    weight by the same nonzero number gives the same model, provided the
    point weights do not sum to 0 and every component has a nonzero
    effective mass. *)
Theorem EMPass_weighted_scale_invariant {T : Type} `{ScalarLaws T}
    (pdf : GaussianDistribution T -> vec T -> T)
    (policy : CovarianceConstraintPolicy T)
    (observations : mat T) (probabilities : vec T) (m : Mixture T) (a : T) :
  a <> zero ->
  accu probabilities <> zero ->
  (forall k, k < length (dists m) ->
     EffectiveMass_weighted pdf observations probabilities m k <> zero) ->
  EMPass_weighted pdf policy observations (vscale probabilities a) m
  = EMPass_weighted pdf policy observations probabilities m.
Proof.
  intros Ha Hp Hmass. unfold EMPass_weighted.
  set (C := NormalizeRows (length observations) (EStep pdf observations m)).
  f_equal.
  - apply imap_ext. intros i d Hd.
    apply update_dist_weighted_vscale; [exact Ha |].
    apply Hmass. apply lookup_lt_Some in Hd. exact Hd.
  - rewrite accu_vscale. unfold vdivs. apply list_eq. intros i.
    rewrite !list_lookup_fmap, !list_lookup_imap.
    destruct (dists m !! i) as [d |]; [| reflexivity].
    cbn [fmap option_fmap option_map]. f_equal.
    rewrite schur_vscale, accu_vscale.
    apply div_mul_cancel; assumption.
Qed.

Lemma EMPass_weighted_scale_invariant_witness :
  EMPass_weighted box_density identity_policy three_points
    (vscale [1%Qc; 1%Qc; 1%Qc] (Qc_of_Z 7)) two_gaussians
  = EMPass_weighted box_density identity_policy three_points
      [1%Qc; 1%Qc; 1%Qc] two_gaussians.
Proof.
  apply EMPass_weighted_scale_invariant.
  - intros E. apply (f_equal this) in E. vm_compute in E. discriminate.
  - intros E. apply (f_equal this) in E. vm_compute in E. discriminate.
  - intros k Hk E. apply (f_equal this) in E.
    destruct k as [| [| k]]; [| | simpl in Hk; lia];
      vm_compute in E; discriminate.
Defined.

(** ** A mixture of one component *)

Section SingleComponent.
Context {T : Type} `{ScalarLaws T}.
Variable pdf : GaussianDistribution T -> vec T -> T.

Add Ring scalar_ring_single : sl_ring.

Lemma accu_singleton (x : T) : accu [x] = x.
Proof. unfold accu. simpl. ring. Qed.

(** With one component, every row that has a nonzero entry is
    normalised to 1. *)
Lemma NormalizeRows_single_column (c : vec T) :
  Forall (fun x => x <> zero) c ->
  NormalizeRows (length c) [c] = [ones (length c)].
Proof.
  intros Hc.
  assert (Hwf : well_formed (length c) [c]) by (repeat constructor).
  apply (mat_ext_rows (length c)).
  - apply well_formed_NormalizeRows. exact Hwf.
  - repeat constructor. apply length_replicate.
  - rewrite length_NormalizeRows by exact Hwf. reflexivity.
  - intros r Hr. rewrite NormalizeRows_row by assumption.
    unfold row. cbn [map]. unfold normalized_row.
    rewrite accu_singleton.
    destruct (c !! r) as [x |] eqn:E; [| apply lookup_ge_None in E; lia].
    rewrite (nth_lookup_Some c r zero x E).
    assert (Hx : x <> zero) by exact (Forall_lookup_1 _ _ _ _ Hc E).
    rewrite (proj2 (fneb_true x zero) Hx). cbn [vdivs map].
    rewrite div_self by exact Hx. f_equal.
    symmetry. apply nth_lookup_Some. unfold ones.
    apply lookup_replicate_2. exact Hr.
Qed.

Lemma vscale_one (x : vec T) : vscale x one = x.
Proof.
  unfold vscale. rewrite <- (map_id x) at 2. apply map_ext. intros u. ring.
Qed.

(** [observations * ones] adds up the points. *)
Lemma mat_vec_ones (A : mat T) :
  mat_vec A (ones (length A)) = fold_left vadd A (zeros (n_rows A)).
Proof.
  unfold mat_vec, ones. generalize (zeros (n_rows A) : vec T) as acc.
  induction A as [| x A IH]; intros acc; simpl; [reflexivity |].
  rewrite vscale_one. apply IH.
Qed.

Lemma centred_weighted_ones (tmp : mat T) :
  centred_weighted tmp (ones (length tmp)) = tmp.
Proof.
  unfold centred_weighted, ones.
  induction tmp as [| t tmp IH]; simpl; [reflexivity |].
  rewrite vscale_one. f_equal. exact IH.
Qed.

Lemma mat_mul_trans_self {X : Type} (f : X -> vec T) (l : list X)
    (acc : mat T) :
  fold_left (fun acc ab => madd acc (outer (fst ab) (snd ab)))
            (zip (map f l) (map f l)) acc
  = fold_left (fun acc x => madd acc (outer (f x) (f x))) l acc.
Proof.
  revert acc. induction l as [| x l IH]; intros acc; simpl; [reflexivity |].
  apply IH.
Qed.

(** A count of at least one point is its own clamped value. *)
Lemma clamp_count_of_nat (n : nat) : clamp_count (of_nat (S n) : T) = of_nat (S n).
Proof.
  unfold clamp_count. destruct n as [| n].
  - cbn [of_nat]. replace (add zero one : T) with (one : T) by ring.
    rewrite sl_gt_irrefl. reflexivity.
  - assert (Hgt : fgtb (of_nat (S (S n)) : T) one = true).
    { cbn [of_nat]. replace (one : T) with (add zero one : T) at 3 by ring.
      apply sl_gt_add. apply (of_nat_positive n). }
    rewrite Hgt. reflexivity.
Qed.

End SingleComponent.

(** X16.  In exact arithmetic a pass over a mixture of one component,
    whose mixing weight is not 0 and whose density is 0 at none of the
    points, returns the mixing weight 1, the mean of the points and (with
    the policy applied) the average of their centred outer products,
    whatever the component was. *)
Theorem EMPass_single_component {T : Type} `{ScalarLaws T}
    (pdf : GaussianDistribution T -> vec T -> T)
    (policy : CovarianceConstraintPolicy T)
    (observations : mat T) (d : GaussianDistribution T) (w : T) (D : nat) :
  observations <> [] ->
  well_formed D observations ->
  w <> zero ->
  Forall (fun x => pdf d x <> zero) observations ->
  EMPass pdf policy observations {| dists := [d]; weights := [w] |}
  = {| dists := [{| Mean := cluster_mean D observations;
                    Covariance := centred_covariance policy D observations |}];
       weights := [one] |}.
Proof.
  intros Ho Hwf Hw Hpdf.
  set (N := length observations).
  assert (HN : exists n, N = S n).
  { unfold N. destruct observations as [| x xs]; [contradiction |].
    exists (length xs). reflexivity. }
  destruct HN as [n HN].
  assert (Hcount : clamped_count observations = (of_nat N : T)).
  { unfold clamped_count. fold N. rewrite HN. apply clamp_count_of_nat. }
  assert (HNz : (of_nat N : T) <> zero).
  { rewrite HN. apply positive_ne, of_nat_positive. }
  assert (Hrows : n_rows observations = D)
    by (apply n_rows_well_formed; assumption).
  (* the E-step and its normalisation *)
  assert (HC : NormalizeRows N
                 (EStep pdf observations {| dists := [d]; weights := [w] |})
               = [ones N]).
  { unfold EStep. cbn [dists weights imap nth].
    set (c := vscale (Probability pdf d observations) w).
    assert (Hlen : length c = N).
    { unfold c, vscale, Probability. rewrite !List.length_map. reflexivity. }
    rewrite <- Hlen. apply NormalizeRows_single_column.
    unfold c, vscale, Probability. rewrite map_map.
    apply Forall_forall. intros y Hy. apply in_map_iff in Hy.
    destruct Hy as (x & <- & Hx). apply mul_nonzero; [exact Hw |].
    rewrite Forall_forall in Hpdf. apply Hpdf. exact Hx. }
  unfold EMPass. fold N. rewrite HC. cbn [dists weights map imap nth].
  rewrite accu_ones.
  f_equal.
  2:{ cbn [vdivs map]. rewrite div_self by exact HNz. reflexivity. }
  f_equal. unfold update_dist.
  rewrite (proj2 (fneb_true _ zero) HNz).
  assert (Hmean : vdivs (mat_vec observations (ones N)) (of_nat N)
                  = cluster_mean D observations).
  { unfold cluster_mean. rewrite Hcount. unfold N.
    rewrite mat_vec_ones, Hrows. reflexivity. }
  rewrite Hmean.
  set (mean := cluster_mean D observations).
  f_equal. unfold centred_covariance. fold mean. cbv zeta. rewrite Hcount.
  f_equal. f_equal.
  assert (Hlm : length mean = D).
  { unfold mean. rewrite <- Hmean, length_vdivs.
    apply length_mat_vec; assumption. }
  replace (ones N) with (ones (length (centred observations mean)) : vec T).
  2:{ unfold centred. rewrite List.length_map. reflexivity. }
  rewrite centred_weighted_ones. unfold mat_mul_trans.
  rewrite (n_rows_well_formed D (centred observations mean)).
  - unfold centred. apply mat_mul_trans_self.
  - apply centred_nonempty. exact Ho.
  - apply well_formed_centred; assumption.
Qed.

Lemma EMPass_single_component_witness :
  let observations := [[Qc_of_Z 1]; [Qc_of_Z 3]] in
  EMPass box_density identity_policy observations
    {| dists := [gaussian1 (Qc_of_Z 2) 1%Qc]; weights := [Qc_of_Z 5] |}
  = {| dists := [{| Mean := cluster_mean 1 observations;
                    Covariance :=
                      centred_covariance identity_policy 1 observations |}];
       weights := [1%Qc] |}.
Proof.
  refine (EMPass_single_component box_density identity_policy
            [[Qc_of_Z 1]; [Qc_of_Z 3]]
            (gaussian1 (Qc_of_Z 2) 1%Qc) (Qc_of_Z 5) 1 _ _ _ _).
  - discriminate.
  - repeat constructor.
  - intros E. apply (f_equal this) in E. vm_compute in E. discriminate.
  - repeat (apply Forall_cons;
              [intros E; apply (f_equal this) in E; vm_compute in E;
               discriminate |]).
    apply Forall_nil.
Defined.

(** ** The covariances that the wrapper returns *)

(** X15.  Where [Estimate] goes through the wrapper ([_WIN32] not defined
    and a policy of type [DiagonalConstraint]), every covariance it
    returns is 0 off the diagonal, whatever the learner returns. *)
Theorem Estimate_diagonal_covariances {T : Type} `{Scalar T}
    (pdf : GaussianDistribution T -> vec T -> T) (flog : T -> T)
    (gmm_learn : learn_args T -> gmm_diag T -> gmm_diag T)
    (default_tolerance : T) (cfg : EMFit T)
    (observations : mat T) (m : Mixture T) (useInitialModel : bool)
    (k : nat) (d : GaussianDistribution T) (r j : nat) :
  is_DiagonalConstraint (constraint cfg) = true ->
  dists (Estimate pdf flog gmm_learn false default_tolerance cfg observations
           m useInitialModel) !! k = Some d ->
  r <> j ->
  nth r (nth j (Covariance d) []) zero = zero.
Proof.
  intros Hdiag Hd Hrj. unfold Estimate in Hd. rewrite Hdiag in Hd.
  cbn [negb andb] in Hd. unfold ArmadilloGMMWrapper, read_gmm in Hd.
  cbn [snd dists] in Hd. rewrite list_lookup_imap in Hd.
  destruct (dists m !! k) as [d0 |]; [| discriminate].
  injection Hd as <-. cbn [Covariance].
  apply diagmat_off_diagonal. exact Hrj.
Qed.

(** The covariance of [correlated_binary64] comes back without its entries
    off the diagonal. *)
Lemma Estimate_diagonal_covariances_witness :
  let d := {| Mean := [0%float; 0%float];
              Covariance := [[2%float; 0%float]; [0%float; 2%float]] |} in
  dists (Estimate constant_density shifted_log learn_nothing false lit_1e_10
           (with_diagonal_tag true (cfg_generic 3)) plane_points_binary64
           correlated_binary64 true) !! 0 = Some d
  /\ nth 1 (nth 0 (Covariance d) []) zero = zero.
Proof.
  intros d.
  assert (Hd : dists (Estimate constant_density shifted_log learn_nothing
                        false lit_1e_10
                        (with_diagonal_tag true (cfg_generic 3))
                        plane_points_binary64 correlated_binary64 true) !! 0
               = Some d) by reflexivity.
  split; [exact Hd |].
  apply (Estimate_diagonal_covariances constant_density shifted_log
           learn_nothing lit_1e_10 (with_diagonal_tag true (cfg_generic 3))
           plane_points_binary64 correlated_binary64 true 0 d 1 0).
  - reflexivity.
  - exact Hd.
  - discriminate.
Defined.

(** ** The sum of the mixing weights after a pass of the weighted
    overload *)

Section WeightedWeightSum.
Context {T : Type} `{ScalarLaws T}.
Variable pdf : GaussianDistribution T -> vec T -> T.
Variable flog : T -> T.

Add Ring scalar_ring_weighted_sum : sl_ring.

(** Point [j] is reported when its mixture density compares equal
    to 0. *)
Lemma reported_iff (observations : mat T) (m : Mixture T) (j : nat)
    (x : vec T) :
  observations !! j = Some x ->
  j ∈ snd (LogLikelihood pdf flog observations m)
  <-> feqb (mixture_density pdf m x) zero = true.
Proof.
  intros Hx. rewrite LogLikelihood_reported. unfold zero_density_points.
  rewrite list_elem_of_In, in_concat. split.
  - intros (l & Hl & Hj). apply list_elem_of_In, elem_of_lookup_imap in Hl.
    destruct Hl as (i & y & -> & Hy).
    destruct (feqb (mixture_density pdf m y) zero) eqn:E.
    + destruct Hj as [<- | []].
      rewrite Hx in Hy. injection Hy as <-. exact E.
    + destruct Hj.
  - intros E. exists [j]. split; [| left; reflexivity].
    apply list_elem_of_In, elem_of_lookup_imap. exists j, x. rewrite E. auto.
Qed.

(** The column sums weighted by [p], seen by rows. *)
Lemma accu_weighted_columns_rows (n : nat) (C : mat T) (p : vec T) :
  well_formed n C -> length p = n ->
  accu (map (fun c => accu (schur c p)) C)
  = accu (map (fun r => mul (accu (row r C)) (nth r p zero)) (seq 0 n)).
Proof.
  intros Hwf Hp.
  rewrite <- (map_map (fun c => schur c p) accu).
  rewrite (accu_columns_rows n).
  - f_equal. apply map_ext_in. intros r Hr. apply in_seq in Hr.
    rewrite (row_map_schur C p n) by (auto; lia).
    apply accu_vscale.
  - unfold well_formed in *. rewrite Forall_forall in *.
    intros c' Hc'. apply in_map_iff in Hc'. destruct Hc' as (c & <- & Hc).
    unfold schur. rewrite length_zip_with, (Hwf c Hc). lia.
Qed.

Lemma imap_seq_nth {A B : Type} (f : nat -> A -> B) (a : A) (l : list A) :
  imap f l = map (fun j => f j (nth j l a)) (seq 0 (length l)).
Proof.
  revert f. induction l as [| x l IH]; intros f; [reflexivity |].
  rewrite imap_cons. cbn [length seq map nth]. f_equal.
  rewrite <- seq_shift, map_map. apply (IH (f ∘ S)).
Qed.

Lemma mul_indicator (b : bool) (p : T) :
  mul (if b then zero else one) p = if b then zero else p.
Proof. destruct b; ring. Qed.

End WeightedWeightSum.

(** X17.  In exact arithmetic, after a pass of the weighted overload the
    mixing weights sum to the sum of the point weights of the points that
    [LogLikelihood] of the model before the pass does not report, over the
    sum of all point weights. *)
Theorem EMPass_weighted_weights_sum {T : Type} `{ScalarLaws T}
    (pdf : GaussianDistribution T -> vec T -> T) (flog : T -> T)
    (policy : CovarianceConstraintPolicy T)
    (observations : mat T) (probabilities : vec T) (m : Mixture T) :
  length probabilities = length observations ->
  accu probabilities <> zero ->
  let reported := snd (LogLikelihood pdf flog observations m) in
  accu (weights (EMPass_weighted pdf policy observations probabilities m))
  = div (accu (imap (fun j p => if bool_decide (j ∈ reported) then zero else p)
                    probabilities))
        (accu probabilities).
Proof.
  intros Hlen Hp reported.
  set (n := length observations).
  set (C := NormalizeRows n (EStep pdf observations m)).
  assert (Hwf : well_formed n C)
    by apply well_formed_NormalizeRows, well_formed_EStep.
  assert (HlenC : length (dists m) = length C).
  { unfold C. rewrite length_NormalizeRows by apply well_formed_EStep.
    symmetry. apply length_EStep. }
  unfold EMPass_weighted. cbn [weights]. fold n. fold C.
  rewrite (imap_nth_columns (fun c => accu (schur c probabilities)) C)
    by exact HlenC.
  rewrite accu_vdivs by exact Hp. f_equal.
  rewrite (accu_weighted_columns_rows n C probabilities Hwf Hlen).
  rewrite (imap_seq_nth _ zero probabilities), Hlen. fold n.
  f_equal. apply map_ext_in. intros r Hr. apply in_seq in Hr.
  assert (Hrn : r < n) by lia.
  destruct (observations !! r) as [x |] eqn:Ex;
    [| apply lookup_ge_None in Ex; unfold n in Hrn; lia].
  unfold C.
  rewrite (NormalizeRows_row n r _ (well_formed_EStep pdf observations m) Hrn).
  rewrite accu_normalized_row, (accu_row_EStep pdf observations m r x Ex).
  pose proof (reported_iff pdf flog observations m r x Ex) as Hrep.
  fold reported in Hrep. rewrite mul_indicator.
  destruct (feqb (mixture_density pdf m x) zero) eqn:E.
  - rewrite bool_decide_eq_true_2 by (apply Hrep; reflexivity). reflexivity.
  - rewrite bool_decide_eq_false_2; [reflexivity |].
    intros Hin. apply Hrep in Hin. discriminate.
Qed.

(** Of the two points of [outlier_points] the second is reported: the
    mixing weights sum to the share of the first point in the point
    weights. *)
Lemma EMPass_weighted_weights_sum_witness :
  let probabilities := [Qc_of_Z 1; Qc_of_Z 3] in
  let reported :=
    snd (LogLikelihood box_density linear_log outlier_points two_gaussians) in
  accu (weights (EMPass_weighted box_density identity_policy outlier_points
                   probabilities two_gaussians))
  = div (accu (imap (fun j p => if bool_decide (j ∈ reported) then zero else p)
                    probabilities))
        (accu probabilities).
Proof.
  apply (EMPass_weighted_weights_sum box_density linear_log identity_policy
           outlier_points [Qc_of_Z 1; Qc_of_Z 3] two_gaussians).
  - reflexivity.
  - intros E. apply (f_equal this) in E. vm_compute in E. discriminate.
Defined.

(** ** Symmetric covariances *)

Section Symmetry.
Context {T : Type} `{ScalarLaws T}.
Variable D : nat.

Add Ring scalar_ring_symmetry : sl_ring.

#[local] Abbreviation entry A r j := (nth r (nth j A []) (zero : T)).

Lemma nth_nil_zero (r : nat) : nth r ([] : vec T) zero = zero.
Proof. destruct r; reflexivity. Qed.

Lemma nth_vscale (u : vec T) (y : T) (r : nat) :
  nth r (vscale u y) zero = mul (nth r u zero) y.
Proof.
  unfold vscale. rewrite !nth_lookup, list_lookup_fmap.
  destruct (u !! r); simpl; [reflexivity | ring].
Qed.

Lemma entry_outer (u v : vec T) (r j : nat) :
  entry (outer u v) r j = mul (nth r u zero) (nth j v zero).
Proof.
  unfold outer. rewrite (nth_lookup _ j []), list_lookup_fmap.
  rewrite (nth_lookup v j). destruct (v !! j) as [y |]; simpl.
  - apply nth_vscale.
  - destruct r; ring.
Qed.

Lemma entry_out_of_range (A : mat T) (r j : nat) :
  square D A -> ~ (r < D /\ j < D) -> entry A r j = zero.
Proof.
  intros [HA Hwf] Hout. rewrite (nth_lookup A j).
  destruct (A !! j) as [c |] eqn:E; simpl; [| apply nth_nil_zero].
  pose proof (Forall_lookup_1 _ _ _ _ Hwf E) as Hc. simpl in Hc.
  apply lookup_lt_Some in E.
  rewrite nth_lookup. rewrite (proj2 (lookup_ge_None c r)) by lia.
  reflexivity.
Qed.

Lemma entry_madd (A B : mat T) (r j : nat) :
  square D A -> square D B ->
  entry (madd A B) r j = add (entry A r j) (entry B r j).
Proof.
  intros HA HB.
  destruct (decide (r < D /\ j < D)) as [[Hr Hj] | Hout].
  - destruct HA as [HA HwA]. destruct HB as [HB HwB].
    destruct (A !! j) as [a |] eqn:Ea; [| apply lookup_ge_None in Ea; lia].
    destruct (B !! j) as [b |] eqn:Eb; [| apply lookup_ge_None in Eb; lia].
    pose proof (Forall_lookup_1 _ _ _ _ HwA Ea) as Hla.
    pose proof (Forall_lookup_1 _ _ _ _ HwB Eb) as Hlb.
    simpl in Hla, Hlb.
    rewrite (nth_lookup_Some A j [] a Ea), (nth_lookup_Some B j [] b Eb).
    assert (Em : madd A B !! j = Some (vadd a b)).
    { unfold madd. rewrite lookup_zip_with, Ea, Eb. reflexivity. }
    rewrite (nth_lookup_Some _ j [] _ Em).
    destruct (a !! r) as [x |] eqn:Ex; [| apply lookup_ge_None in Ex; lia].
    destruct (b !! r) as [y |] eqn:Ey; [| apply lookup_ge_None in Ey; lia].
    rewrite (nth_lookup_Some a r zero x Ex), (nth_lookup_Some b r zero y Ey).
    apply nth_lookup_Some. unfold vadd.
    rewrite lookup_zip_with, Ex, Ey. reflexivity.
  - rewrite (entry_out_of_range A r j HA Hout).
    rewrite (entry_out_of_range B r j HB Hout).
    rewrite (entry_out_of_range (madd A B) r j); [ring | | exact Hout].
    apply square_madd; assumption.
Qed.

Lemma entry_mdivs (A : mat T) (s : T) (r j : nat) :
  square D A -> r < D -> j < D ->
  entry (mdivs A s) r j = div (entry A r j) s.
Proof.
  intros [HA Hwf] Hr Hj.
  destruct (A !! j) as [a |] eqn:Ea; [| apply lookup_ge_None in Ea; lia].
  pose proof (Forall_lookup_1 _ _ _ _ Hwf Ea) as Hla. simpl in Hla.
  destruct (a !! r) as [x |] eqn:Ex; [| apply lookup_ge_None in Ex; lia].
  rewrite (nth_lookup_Some A j [] a Ea), (nth_lookup_Some a r zero x Ex).
  assert (Em : mdivs A s !! j = Some (vdivs a s)).
  { unfold mdivs. rewrite list_lookup_fmap, Ea. reflexivity. }
  rewrite (nth_lookup_Some _ j [] _ Em).
  apply nth_lookup_Some. unfold vdivs. rewrite list_lookup_fmap, Ex.
  reflexivity.
Qed.

Lemma symmetric_madd (A B : mat T) :
  square D A -> square D B -> symmetric A -> symmetric B ->
  symmetric (madd A B).
Proof.
  intros HA HB SA SB r j.
  rewrite !entry_madd by assumption. rewrite (SA r j), (SB r j). reflexivity.
Qed.

Lemma symmetric_mdivs (A : mat T) (s : T) :
  square D A -> symmetric A -> symmetric (mdivs A s).
Proof.
  intros HA SA r j.
  destruct (decide (r < D /\ j < D)) as [[Hr Hj] | Hout].
  - rewrite !entry_mdivs by assumption. rewrite (SA r j). reflexivity.
  - rewrite (entry_out_of_range (mdivs A s) r j);
      [| apply square_mdivs; exact HA | exact Hout].
    rewrite (entry_out_of_range (mdivs A s) j r);
      [reflexivity | apply square_mdivs; exact HA | tauto].
Qed.

Lemma symmetric_mzeros_like (A : mat T) :
  square D A -> symmetric (mzeros (n_rows A) (length A) : mat T).
Proof.
  intros HA r j.
  assert (Hz : forall r j, entry (mzeros (n_rows A) (length A)) r j = zero).
  { intros r' j'. unfold mzeros. rewrite (nth_lookup _ j' []).
    destruct (replicate _ _ !! j') as [c |] eqn:E; simpl;
      [| apply nth_nil_zero].
    apply lookup_replicate in E. destruct E as [-> _].
    apply nth_replicate_zero. }
  rewrite !Hz. reflexivity.
Qed.

Lemma symmetric_mzeros : symmetric (mzeros D D : mat T).
Proof.
  intros r j.
  assert (Hz : forall r j, entry (mzeros D D) r j = zero).
  { intros r' j'. unfold mzeros. rewrite (nth_lookup _ j' []).
    destruct (replicate _ _ !! j') as [c |] eqn:E; simpl;
      [| apply nth_nil_zero].
    apply lookup_replicate in E. destruct E as [-> _].
    apply nth_replicate_zero. }
  rewrite !Hz. reflexivity.
Qed.

(** [t * trans(t * c)] is symmetric. *)
Lemma symmetric_outer_vscale (t : vec T) (c : T) :
  symmetric (outer t (vscale t c)).
Proof.
  intros r j. rewrite !entry_outer, !nth_vscale. ring.
Qed.

Lemma symmetric_outer_self (x : vec T) : symmetric (outer x x).
Proof. intros r j. rewrite !entry_outer. ring. Qed.

(** [tmp * trans(tmpB)] is symmetric. *)
Lemma symmetric_mat_mul_trans (tmp : mat T) (c : vec T) :
  tmp <> [] -> c <> [] -> well_formed D tmp ->
  symmetric (mat_mul_trans tmp (centred_weighted tmp c)).
Proof.
  intros Ht Hc Hwf. unfold mat_mul_trans.
  rewrite (n_rows_well_formed D tmp Ht Hwf).
  rewrite (n_rows_well_formed D (centred_weighted tmp c)
             (centred_weighted_nonempty tmp c Ht Hc)
             (well_formed_centred_weighted D tmp c Hwf)).
  generalize (square_mzeros D (T := T)) symmetric_mzeros.
  generalize (mzeros D D : mat T) as acc.
  clear Ht Hc. revert c.
  induction Hwf as [| t tmp Ht Hwf IH]; intros c acc Hsq Hsym.
  - exact Hsym.
  - destruct c as [| y c]; [exact Hsym |].
    cbn [centred_weighted zip_with zip fold_left fst snd].
    apply IH.
    + apply square_madd; [exact Hsq |].
      apply square_outer; [exact Ht | rewrite length_vscale; exact Ht].
    + apply symmetric_madd; [exact Hsq | | exact Hsym |].
      * apply square_outer; [exact Ht | rewrite length_vscale; exact Ht].
      * apply symmetric_outer_vscale.
Qed.

End Symmetry.

Section SymmetryPass.
Context {T : Type} `{ScalarLaws T}.
Variable D : nat.
Variable pdf : GaussianDistribution T -> vec T -> T.

Lemma update_dist_symmetric policy (observations : mat T) (c : vec T) (s : T)
    (d : GaussianDistribution T) :
  observations <> [] -> well_formed D observations -> c <> [] ->
  keeps_symmetry D policy ->
  length (Mean d) = D -> symmetric (Covariance d) ->
  symmetric (Covariance (update_dist policy observations c s d)).
Proof.
  intros Ho Hwf Hc Hpol Hm Hsym. unfold update_dist.
  destruct (fneb s zero); cbn [Mean Covariance]; [| exact Hsym].
  assert (Hmean : length (vdivs (mat_vec observations c) s) = D).
  { rewrite length_vdivs. apply length_mat_vec; assumption. }
  set (tmp := centred observations (vdivs (mat_vec observations c) s)).
  assert (Ht : tmp <> []) by (apply centred_nonempty; exact Ho).
  assert (Hwt : well_formed D tmp) by (apply well_formed_centred; assumption).
  assert (Hsq : square D (mat_mul_trans tmp (centred_weighted tmp c))).
  { apply square_mat_mul_trans; try assumption.
    - apply centred_weighted_nonempty; assumption.
    - apply well_formed_centred_weighted. exact Hwt. }
  apply Hpol; [apply square_mdivs; exact Hsq |].
  apply (symmetric_mdivs D); [exact Hsq |].
  apply (symmetric_mat_mul_trans D); assumption.
Qed.

Lemma update_dist_weighted_symmetric policy (observations : mat T)
    (probabilities c : vec T) (d : GaussianDistribution T) :
  observations <> [] -> well_formed D observations ->
  c <> [] -> probabilities <> [] ->
  keeps_symmetry D policy ->
  symmetric
    (Covariance (update_dist_weighted policy observations probabilities c d)).
Proof.
  intros Ho Hwf Hc Hp Hpol. unfold update_dist_weighted.
  cbn [Mean Covariance].
  set (cw := schur c probabilities).
  assert (Hcw : cw <> []).
  { unfold cw. destruct c; [contradiction |].
    destruct probabilities; [contradiction | discriminate]. }
  assert (Hmean : length (vdivs (mat_vec observations cw) (accu cw)) = D).
  { rewrite length_vdivs. apply length_mat_vec; assumption. }
  set (tmp := centred observations (vdivs (mat_vec observations cw) (accu cw))).
  assert (Ht : tmp <> []) by (apply centred_nonempty; exact Ho).
  assert (Hwt : well_formed D tmp) by (apply well_formed_centred; assumption).
  assert (Hsq : square D (mat_mul_trans tmp (centred_weighted tmp cw))).
  { apply square_mat_mul_trans; try assumption.
    - apply centred_weighted_nonempty; assumption.
    - apply well_formed_centred_weighted. exact Hwt. }
  apply Hpol; [apply square_mdivs; exact Hsq |].
  apply (symmetric_mdivs D); [exact Hsq |].
  apply (symmetric_mat_mul_trans D); assumption.
Qed.

Lemma EMPass_symmetric policy (observations : mat T) (m : Mixture T) :
  observations <> [] -> well_formed D observations ->
  keeps_symmetry D policy ->
  has_dimension D m -> has_symmetric_covariances m ->
  has_symmetric_covariances (EMPass pdf policy observations m).
Proof.
  intros Ho Hwf Hpol Hm Hsym. unfold has_symmetric_covariances, EMPass.
  cbn [dists]. apply Forall_lookup_2. intros i d' Hd'.
  rewrite list_lookup_imap in Hd'.
  destruct (dists m !! i) as [d |] eqn:Ed; [| discriminate].
  injection Hd' as <-.
  apply update_dist_symmetric; try assumption.
  - apply condProb_column_nonempty; [exact Ho |].
    apply lookup_lt_Some in Ed. exact Ed.
  - exact (proj1 (Forall_lookup_1 _ _ _ _ Hm Ed)).
  - exact (Forall_lookup_1 _ _ _ _ Hsym Ed).
Qed.

Lemma EMPass_weighted_symmetric policy (observations : mat T)
    (probabilities : vec T) (m : Mixture T) :
  observations <> [] -> well_formed D observations ->
  probabilities <> [] ->
  keeps_symmetry D policy ->
  has_symmetric_covariances
    (EMPass_weighted pdf policy observations probabilities m).
Proof.
  intros Ho Hwf Hp Hpol. unfold has_symmetric_covariances, EMPass_weighted.
  cbn [dists]. apply Forall_lookup_2. intros i d' Hd'.
  rewrite list_lookup_imap in Hd'.
  destruct (dists m !! i) as [d |] eqn:Ed; [| discriminate].
  injection Hd' as <-.
  apply update_dist_weighted_symmetric; try assumption.
  apply condProb_column_nonempty; [exact Ho |].
  apply lookup_lt_Some in Ed. exact Ed.
Qed.

Lemma InitialClustering_symmetric (cfg : EMFit T) (observations : mat T)
    (m : Mixture T) :
  well_formed D observations ->
  keeps_symmetry D (constraint cfg) ->
  has_dimension D m ->
  has_symmetric_covariances (InitialClustering cfg observations m).
Proof.
  intros Hwf Hpol Hm. unfold InitialClustering.
  rewrite fold_left_accumulate_point.
  set (pts := zip observations _).
  assert (Hpts : forall xc, In xc pts -> length (fst xc) = D).
  { intros [x c] Hxc. apply list_elem_of_In, elem_of_zip_l in Hxc.
    unfold well_formed in Hwf. rewrite Forall_forall in Hwf.
    apply Hwf, list_elem_of_In. exact Hxc. }
  set (means1 := fold_left _ pts (map _ (dists m))).
  set (weights1 := fold_left _ pts (zeros _)).
  set (covs1 := fold_left _ pts (map _ (dists m))).
  set (means2 := imap _ means1).
  rewrite fold_left_accumulate_centred.
  set (covs2 := fold_left _ pts covs1).
  unfold has_dimension in Hm. rewrite Forall_forall in Hm.
  assert (Hmeans1 : Forall (fun mu => length mu = D) means1).
  { apply Forall_fold_left_alter.
    - intros xc mu Hin _ Hmu. apply length_vadd; [exact Hmu | auto].
    - apply Forall_forall. intros mu Hmu. apply in_map_iff in Hmu.
      destruct Hmu as (d & <- & Hd). unfold zeros. rewrite length_replicate.
      apply (Hm d Hd). }
  assert (Hlm1 : length means1 = length (dists m)).
  { unfold means1. rewrite length_fold_left_alter. apply List.length_map. }
  assert (Hmeans2 : Forall (fun mu => length mu = D) means2).
  { apply Forall_lookup_2. intros i mu Hmu. unfold means2 in Hmu.
    rewrite list_lookup_imap in Hmu.
    destruct (means1 !! i) as [mu1 |] eqn:E; [| discriminate].
    injection Hmu as <-. rewrite length_vdivs.
    exact (Forall_lookup_1 _ _ _ _ Hmeans1 E). }
  assert (Hlm2 : length means2 = length (dists m)).
  { unfold means2. rewrite length_imap. exact Hlm1. }
  assert (Hcovs1 : Forall (fun c => square D c /\ symmetric c) covs1).
  { apply Forall_fold_left_alter.
    - intros xc c Hin _ [Hc Sc].
      assert (Ho : square D (outer (fst xc) (fst xc)))
        by (apply square_outer; auto).
      split; [apply square_madd; assumption |].
      apply (symmetric_madd D); try assumption. apply symmetric_outer_self.
    - apply Forall_forall. intros c Hc. apply in_map_iff in Hc.
      destruct Hc as (d & <- & Hd). split.
      + apply square_mzeros_like. apply (Hm d Hd).
      + apply (symmetric_mzeros_like D). apply (Hm d Hd). }
  assert (Hlc1 : length covs1 = length (dists m)).
  { unfold covs1. rewrite length_fold_left_alter. apply List.length_map. }
  assert (Hcovs2 : Forall (fun c => square D c /\ symmetric c) covs2).
  { apply Forall_fold_left_alter; [| exact Hcovs1].
    intros xc c Hin Hlt [Hc Sc].
    assert (Hlen : length (vsub (fst xc) (nth (snd xc) means2 [])) = D).
    { apply length_vsub; [apply Hpts; exact Hin |].
      destruct (means2 !! snd xc) as [mu |] eqn:E.
      - rewrite (nth_lookup_Some _ _ [] mu E).
        exact (Forall_lookup_1 _ _ _ _ Hmeans2 E).
      - apply lookup_ge_None in E. lia. }
    assert (Ho : square D (outer (vsub (fst xc) (nth (snd xc) means2 []))
                                 (vsub (fst xc) (nth (snd xc) means2 []))))
      by (apply square_outer; exact Hlen).
    split; [apply square_madd; assumption |].
    apply (symmetric_madd D); try assumption. apply symmetric_outer_self. }
  assert (Hlc2 : length covs2 = length (dists m)).
  { unfold covs2. rewrite length_fold_left_alter. exact Hlc1. }
  unfold has_symmetric_covariances. cbn [dists].
  apply Forall_lookup_2. intros i d' Hd'.
  rewrite list_lookup_imap in Hd'.
  destruct (dists m !! i) as [d |] eqn:Ed; [| discriminate].
  injection Hd' as <-. cbn [Mean Covariance].
  apply lookup_lt_Some in Ed.
  destruct (covs2 !! i) as [c |] eqn:E; [| apply lookup_ge_None in E; lia].
  rewrite (nth_lookup_Some _ _ [] c E).
  destruct (Forall_lookup_1 _ _ _ _ Hcovs2 E) as [Hc Sc].
  apply Hpol; [apply square_mdivs; exact Hc |].
  apply (symmetric_mdivs D); assumption.
Qed.

End SymmetryPass.

(** X18.  In exact arithmetic the covariances stay symmetric.  For at
    least one point, every point with [D] coordinates, a policy that keeps
    [D] by [D] matrices [D] by [D] and symmetric ones symmetric, and a
    model of dimension [D] with symmetric covariances: every covariance of
    the model that [Estimate] returns on the generic path is symmetric, and
    so is every covariance that the weighted overload returns, given one
    point weight per point. *)
Theorem Estimate_keeps_symmetry {T : Type} `{ScalarLaws T}
    (pdf : GaussianDistribution T -> vec T -> T) (flog : T -> T)
    (gmm_learn : learn_args T -> gmm_diag T -> gmm_diag T)
    (WIN32 : bool) (default_tolerance : T) (cfg : EMFit T)
    (observations : mat T) (probabilities : vec T) (m : Mixture T)
    (useInitialModel : bool) (D : nat) :
  observations <> [] ->
  well_formed D observations ->
  length probabilities = length observations ->
  keeps_dimension D (constraint cfg) ->
  keeps_symmetry D (constraint cfg) ->
  has_dimension D m ->
  has_symmetric_covariances m ->
  WIN32 = true \/ is_DiagonalConstraint (constraint cfg) = false ->
  has_symmetric_covariances
    (Estimate pdf flog gmm_learn WIN32 default_tolerance cfg observations m
       useInitialModel)
  /\ has_symmetric_covariances
       (Estimate_weighted pdf flog cfg observations probabilities m
          useInitialModel).
Proof.
  intros Ho Hwf Hlen Hdim Hpol Hm Hsym Hpath.
  assert (Hp : probabilities <> []).
  { intros ->. destruct observations; [contradiction | discriminate]. }
  set (Q := fun m' : Mixture T =>
              has_dimension D m' /\ has_symmetric_covariances m').
  assert (Hseed :
    Q (if negb useInitialModel
       then InitialClustering cfg observations m else m)).
  { destruct useInitialModel; simpl; [split; assumption |].
    split.
    - apply InitialClustering_dimension; assumption.
    - apply (InitialClustering_symmetric D); assumption. }
  split.
  - unfold Estimate.
    replace (negb WIN32 && is_DiagonalConstraint (constraint cfg)) with false.
    2:{ destruct Hpath as [-> | ->]; [reflexivity |].
        symmetry. apply andb_false_r. }
    unfold EMLoop.
    apply (while_loop_model_invariant pdf flog Q); [| exact Hseed].
    intros m' [Hm' Hs']. split.
    + apply EMPass_dimension; assumption.
    + apply (EMPass_symmetric D); assumption.
  - unfold Estimate_weighted, EMLoop.
    apply (while_loop_model_invariant pdf flog Q); [| exact Hseed].
    intros m' _. split.
    + apply EMPass_weighted_dimension; assumption.
    + apply (EMPass_weighted_symmetric D); assumption.
Qed.

(** Witness of X18, in the plane: a covariance with the entry 1 off the
    diagonal, on both sides. *)
Lemma Estimate_keeps_symmetry_witness :
  has_symmetric_covariances
    (Estimate unit_density linear_log learn_nothing true lit_1e_10
       (cfg_generic 3) plane_points correlated_model true)
  /\ has_symmetric_covariances
       (Estimate_weighted unit_density linear_log (cfg_generic 3) plane_points
          [1%Qc; 1%Qc] correlated_model true).
Proof.
  apply (Estimate_keeps_symmetry unit_density linear_log learn_nothing true
           lit_1e_10 (cfg_generic 3) plane_points [1%Qc; 1%Qc]
           correlated_model true 2).
  - discriminate.
  - repeat constructor.
  - reflexivity.
  - intros A HA. exact HA.
  - intros A _ HA. exact HA.
  - repeat constructor.
  - repeat constructor; intros r j; destruct r as [| [| [| r]]];
      destruct j as [| [| [| j]]]; reflexivity.
  - left. reflexivity.
Defined.
